(** * Lifecycle and shutdown coordination of the p2pool node

    A shallow embedding of these pieces of the repository:

    - [Siad.Start]            (src/siad/siad.go),
    - [Consensus.loadDB] and [Consensus.initPersist]
                              (vendor/.../Sia/modules/consensus/persist.go),
    - [ThreadGroup]           (vendor/.../Sia/sync/threadgroup.go),
    - [Gateway.init_consts]   (vendor/.../Sia/modules/gateway/consts.go),
    - [Main.Action]           (main.go),

    followed by the properties of each that the specification relies on,
    and by further properties read off the code. *)

From Stdlib Require Import ZArith List String Ascii Bool Lia Permutation.
Import ListNotations.

Local Open Scope string_scope.
Local Open Scope list_scope.

(** Go [error] values.  Every error built by the code under study comes from
    [errors.New] with a fixed message, and callers only test them against
    [nil], so an error is represented by its message; [None] is [nil]. *)
Definition error := string.

(** Projection of a log onto the entries [f] selects. *)
Fixpoint filter_map {A B} (f : A -> option B) (l : list A) : list B :=
  match l with
  | [] => []
  | a :: l' =>
      match f a with
      | Some b => b :: filter_map f l'
      | None => filter_map f l'
      end
  end.

(* ================================================================== *)
(** * siad: the start-up sequence                                      *)
(* ================================================================== *)

Module Siad.

Definition NetAddress := string.

(** [Siad] is the receiver of [Start]. *)
Record Siad := mkSiad { RPCAddr : string; APIAddr : string }.

(** Everything [Start] calls lives outside this package.  [World] collects
    those collaborators: the handle types, the package-level values of
    [modules] that [Start] reads, and the result each call produces.  A Go
    call returning [(x, err)] is a sum: [inl x] when [err == nil]. *)
Record World := mkWorld {
  Gateway : Type;
  ConsensusSet : Type;
  TransactionPool : Type;
  Server : Type;
  GatewayDir : string;
  ConsensusDir : string;
  TransactionPoolDir : string;
  BootstrapPeers : list NetAddress;
  gateway_New : string -> string -> Gateway + error;
  consensus_New : Gateway -> string -> ConsensusSet + error;
  transactionpool_New :
    ConsensusSet -> Gateway -> string -> TransactionPool + error;
  (* api.NewServer(addr, agent, password, cs, nil, g, nil, nil, nil, tpool,
     nil): the arguments that are nil in the call are left out. *)
  api_NewServer :
    string -> string -> string -> ConsensusSet -> Gateway -> TransactionPool ->
    Server + error;
  (* crypto.Perm allocates its result with make([]int, n): the slice it
     returns has capacity equal to its length, so a list stands for it. *)
  crypto_Perm : Z -> list Z + error;
  Connect : Gateway -> NetAddress -> option error;
  Serve : Server -> option error
}.

(** What [Start] does to the outside, in program order. *)
Inductive event :=
| Printf (msg : string)
| Call_gateway_New (addr dir : string)
| Call_consensus_New (dir : string)
| Call_transactionpool_New (dir : string)
| Call_api_NewServer (addr agent password : string)
| Call_crypto_Perm (n : Z)
| Go_Connect (addr : NetAddress)      (* go g.Connect(addr) *)
| Call_Serve.

(** How a run of [Start] ends: it returns its [err] result, or it panics. *)
Inductive outcome :=
| Return (err : option error)
| Panic (msg : string).

(** ** A log-and-exit monad

    A computation appends to the event log and either yields a value or
    leaves the function early with an [outcome]. *)
Definition M (A : Type) : Type := list event * (outcome + A).

Definition ret {A} (a : A) : M A := ([], inr a).

Definition bind {A B} (m : M A) (f : A -> M B) : M B :=
  match m with
  | (l, inl o) => (l, inl o)
  | (l, inr a) => (l ++ fst (f a), snd (f a))
  end.

Definition emit (e : event) : M unit := ([e], inr tt).
Definition exit {A} (o : outcome) : M A := ([], inl o).

Notation "x <- m ;; k" := (bind m (fun x => k))
  (at level 61, m at next level, right associativity).
Notation "m ;;; k" := (bind m (fun _ => k))
  (at level 61, right associativity).

(** [x, err := f(...); if err != nil { return }]: the named result [err]
    is what the bare [return] hands back. *)
Definition check {A} (r : A + error) : M A :=
  match r with
  | inl a => ret a
  | inr e => exit (Return (Some e))
  end.

(** [perm[:high]]: a slice expression panics when [high] exceeds the
    capacity of the operand. *)
Definition slice_to (perm : list Z) (high : nat) : M (list Z) :=
  if (high <=? List.length perm)%nat then ret (firstn high perm)
  else exit (Panic "slice bounds out of range").

(** [peers[i]]: an index expression panics outside [0 <= i < len]. *)
Definition index (peers : list NetAddress) (i : Z) : M NetAddress :=
  if (i <? 0)%Z then exit (Panic "index out of range")
  else match nth_error peers (Z.to_nat i) with
       | Some a => ret a
       | None => exit (Panic "index out of range")
       end.

(** [for _, i := range idx { go g.Connect(peers[i]) }].  The operand of a
    [go] statement is evaluated by the caller; the call itself runs in a new
    goroutine and its result is dropped. *)
Fixpoint dial_all (peers : list NetAddress) (idx : list Z) : M unit :=
  match idx with
  | [] => ret tt
  | i :: rest =>
      a <- index peers i ;;
      emit (Go_Connect a) ;;;
      dial_all peers rest
  end.

Definition nl : string := String (ascii_of_nat 10) EmptyString.

Definition Start_body (w : World) (s : Siad) : M outcome :=
  emit (Printf ("Loading gateway..." ++ nl)%string) ;;;
  emit (Call_gateway_New (RPCAddr s) (GatewayDir w)) ;;;
  g <- check (gateway_New w (RPCAddr s) (GatewayDir w)) ;;
  emit (Printf ("Loading consensus..." ++ nl)%string) ;;;
  emit (Call_consensus_New (ConsensusDir w)) ;;;
  cs <- check (consensus_New w g (ConsensusDir w)) ;;
  emit (Printf ("Loading transaction pool..." ++ nl)%string) ;;;
  emit (Call_transactionpool_New (TransactionPoolDir w)) ;;;
  tpool <- check (transactionpool_New w cs g (TransactionPoolDir w)) ;;
  emit (Call_api_NewServer (APIAddr s) "SIA-Agent" "") ;;;
  srv <- check (api_NewServer w (APIAddr s) "SIA-Agent" "" cs g tpool) ;;
  (* connect to 3 random bootstrap nodes *)
  emit (Call_crypto_Perm (Z.of_nat (List.length (BootstrapPeers w)))) ;;;
  perm <- check (crypto_Perm w (Z.of_nat (List.length (BootstrapPeers w)))) ;;
  first3 <- slice_to perm 3 ;;
  dial_all (BootstrapPeers w) first3 ;;;
  (* Start serving api requests. *)
  emit Call_Serve ;;;
  ret (Return (Serve w srv)).

(** [Start]: the log of effects and the way the call ends. *)
Definition Start (w : World) (s : Siad) : list event * outcome :=
  match Start_body w s with
  | (l, inl o) => (l, o)
  | (l, inr o) => (l, o)
  end.

(** ** Observations on a log *)

Inductive stage := Network | ChainState | TxPool | Serving.

Definition stage_of_event (e : event) : option stage :=
  match e with
  | Call_gateway_New _ _ => Some Network
  | Call_consensus_New _ => Some ChainState
  | Call_transactionpool_New _ => Some TxPool
  | Call_api_NewServer _ _ _ => Some Serving
  | _ => None
  end.

(** The stages whose constructor was called, in call order. *)
Definition constructed (l : list event) : list stage :=
  filter_map stage_of_event l.

(** The addresses handed to [go g.Connect], in spawn order. *)
Definition dialed (l : list event) : list NetAddress :=
  filter_map (fun e => match e with Go_Connect a => Some a | _ => None end) l.

Definition is_Serve (e : event) : bool :=
  match e with Call_Serve => true | _ => false end.

Definition served (l : list event) : bool := existsb is_Serve l.

(** The stage whose constructor fails, with the error it reports; [None]
    when all four succeed. *)
Definition failing_stage (w : World) (s : Siad) : option (stage * error) :=
  match gateway_New w (RPCAddr s) (GatewayDir w) with
  | inr e => Some (Network, e)
  | inl g =>
    match consensus_New w g (ConsensusDir w) with
    | inr e => Some (ChainState, e)
    | inl cs =>
      match transactionpool_New w cs g (TransactionPoolDir w) with
      | inr e => Some (TxPool, e)
      | inl tpool =>
        match api_NewServer w (APIAddr s) "SIA-Agent" "" cs g tpool with
        | inr e => Some (Serving, e)
        | inl _ => None
        end
      end
    end
  end.

(** The stages up to and including [k], in construction order. *)
Definition stages_through (k : stage) : list stage :=
  match k with
  | Network => [Network]
  | ChainState => [Network; ChainState]
  | TxPool => [Network; ChainState; TxPool]
  | Serving => [Network; ChainState; TxPool; Serving]
  end.

(** The server handle, when all four constructors succeed. *)
Definition built (w : World) (s : Siad) : option (Gateway w * Server w) :=
  match gateway_New w (RPCAddr s) (GatewayDir w) with
  | inr _ => None
  | inl g =>
    match consensus_New w g (ConsensusDir w) with
    | inr _ => None
    | inl cs =>
      match transactionpool_New w cs g (TransactionPoolDir w) with
      | inr _ => None
      | inl tpool =>
        match api_NewServer w (APIAddr s) "SIA-Agent" "" cs g tpool with
        | inr _ => None
        | inl srv => Some (g, srv)
        end
      end
    end
  end.

(** The same world with another behaviour for [Connect]. *)
Definition with_Connect (w : World)
    (c : Gateway w -> NetAddress -> option error) : World :=
  mkWorld (Gateway w) (ConsensusSet w) (TransactionPool w) (Server w)
    (GatewayDir w) (ConsensusDir w) (TransactionPoolDir w) (BootstrapPeers w)
    (gateway_New w) (consensus_New w) (transactionpool_New w)
    (api_NewServer w) (crypto_Perm w) c (Serve w).

(** The log up to and including the call of [crypto.Perm]. *)
Definition prologue (w : World) (s : Siad) : list event :=
  [ Printf ("Loading gateway..." ++ nl)%string;
    Call_gateway_New (RPCAddr s) (GatewayDir w);
    Printf ("Loading consensus..." ++ nl)%string;
    Call_consensus_New (ConsensusDir w);
    Printf ("Loading transaction pool..." ++ nl)%string;
    Call_transactionpool_New (TransactionPoolDir w);
    Call_api_NewServer (APIAddr s) "SIA-Agent" "";
    Call_crypto_Perm (Z.of_nat (List.length (BootstrapPeers w))) ].

(** What a result of [crypto.Perm n] is: the integers [0, n) in some
    order. *)
Definition is_perm (n : nat) (perm : list Z) : Prop :=
  Permutation perm (map Z.of_nat (seq 0 n)).

(** A concrete world over [unit] handles, for examples. *)
Definition toy_world (peers : list NetAddress)
    (gw cs tp srv : option error) (perm : list Z + error)
    (conn serve : option error) : World :=
  let res (o : option error) : unit + error :=
    match o with None => inl tt | Some e => inr e end in
  mkWorld unit unit unit unit "gateway" "consensus" "transactionpool" peers
    (fun _ _ => res gw) (fun _ _ => res cs) (fun _ _ _ => res tp)
    (fun _ _ _ _ _ _ => res srv) (fun _ => perm)
    (fun _ _ => conn) (fun _ => serve).

Definition toy_siad : Siad := mkSiad ":9981" "localhost:9980".

(** ** Collaborators that panic

    A call into another package may also panic instead of returning, as
    [consensus.New] does when loading its database panics in a debug
    build.  [Panics] tells, for each call [Start] makes in its own
    goroutine, whether it panics and with what message; a call that does
    not panic returns what [World] says.  [Start] has no [recover]: the
    panic of a callee ends [Start] at the call.  The calls of [g.Connect]
    run in goroutines of their own and are not calls of [Start]. *)
Record Panics (w : World) := mkPanics {
  gateway_New_panics : string -> string -> option string;
  consensus_New_panics : Gateway w -> string -> option string;
  transactionpool_New_panics :
    ConsensusSet w -> Gateway w -> string -> option string;
  api_NewServer_panics :
    string -> string -> string -> ConsensusSet w -> Gateway w ->
    TransactionPool w -> option string;
  crypto_Perm_panics : Z -> option string;
  Serve_panics : Server w -> option string
}.
Arguments mkPanics {w}.
Arguments gateway_New_panics {w}.
Arguments consensus_New_panics {w}.
Arguments transactionpool_New_panics {w}.
Arguments api_NewServer_panics {w}.
Arguments crypto_Perm_panics {w}.
Arguments Serve_panics {w}.

(** No callee panics. *)
Definition no_panics (w : World) : Panics w :=
  mkPanics (fun _ _ => None) (fun _ _ => None) (fun _ _ _ => None)
    (fun _ _ _ _ _ _ => None) (fun _ => None) (fun _ => None).

(** A call that panics with [msg] when [p] is [Some msg] and otherwise
    returns [r], followed by [if err != nil { return }]. *)
Definition call {A} (p : option string) (r : A + error) : M A :=
  match p with
  | Some msg => exit (Panic msg)
  | None => check r
  end.

Definition StartP_body (w : World) (p : Panics w) (s : Siad) : M outcome :=
  emit (Printf ("Loading gateway..." ++ nl)%string) ;;;
  emit (Call_gateway_New (RPCAddr s) (GatewayDir w)) ;;;
  g <- call (gateway_New_panics p (RPCAddr s) (GatewayDir w))
            (gateway_New w (RPCAddr s) (GatewayDir w)) ;;
  emit (Printf ("Loading consensus..." ++ nl)%string) ;;;
  emit (Call_consensus_New (ConsensusDir w)) ;;;
  cs <- call (consensus_New_panics p g (ConsensusDir w))
             (consensus_New w g (ConsensusDir w)) ;;
  emit (Printf ("Loading transaction pool..." ++ nl)%string) ;;;
  emit (Call_transactionpool_New (TransactionPoolDir w)) ;;;
  tpool <- call (transactionpool_New_panics p cs g (TransactionPoolDir w))
                (transactionpool_New w cs g (TransactionPoolDir w)) ;;
  emit (Call_api_NewServer (APIAddr s) "SIA-Agent" "") ;;;
  srv <- call (api_NewServer_panics p (APIAddr s) "SIA-Agent" "" cs g tpool)
              (api_NewServer w (APIAddr s) "SIA-Agent" "" cs g tpool) ;;
  (* connect to 3 random bootstrap nodes *)
  emit (Call_crypto_Perm (Z.of_nat (List.length (BootstrapPeers w)))) ;;;
  perm <- call (crypto_Perm_panics p (Z.of_nat (List.length (BootstrapPeers w))))
               (crypto_Perm w (Z.of_nat (List.length (BootstrapPeers w)))) ;;
  first3 <- slice_to perm 3 ;;
  dial_all (BootstrapPeers w) first3 ;;;
  (* Start serving api requests. *)
  emit Call_Serve ;;;
  match Serve_panics p srv with
  | Some msg => exit (Panic msg)
  | None => ret (Return (Serve w srv))
  end.

(** [Start] with callees that may panic. *)
Definition StartP (w : World) (p : Panics w) (s : Siad)
  : list event * outcome :=
  match StartP_body w p s with
  | (l, inl o) => (l, o)
  | (l, inr o) => (l, o)
  end.

(** How the construction of the four modules ends: with the handles, with
    the error of the stage that failed, or with the panic of a
    constructor. *)
Inductive construction (w : World) :=
| Built (g : Gateway w) (srv : Server w)
| Failed (k : stage) (e : error)
| Panicked (k : stage) (msg : string).
Arguments Built {w}.
Arguments Failed {w}.
Arguments Panicked {w}.

Definition construct (w : World) (p : Panics w) (s : Siad) : construction w :=
  match gateway_New_panics p (RPCAddr s) (GatewayDir w) with
  | Some msg => Panicked Network msg
  | None =>
  match gateway_New w (RPCAddr s) (GatewayDir w) with
  | inr e => Failed Network e
  | inl g =>
  match consensus_New_panics p g (ConsensusDir w) with
  | Some msg => Panicked ChainState msg
  | None =>
  match consensus_New w g (ConsensusDir w) with
  | inr e => Failed ChainState e
  | inl cs =>
  match transactionpool_New_panics p cs g (TransactionPoolDir w) with
  | Some msg => Panicked TxPool msg
  | None =>
  match transactionpool_New w cs g (TransactionPoolDir w) with
  | inr e => Failed TxPool e
  | inl tpool =>
  match api_NewServer_panics p (APIAddr s) "SIA-Agent" "" cs g tpool with
  | Some msg => Panicked Serving msg
  | None =>
  match api_NewServer w (APIAddr s) "SIA-Agent" "" cs g tpool with
  | inr e => Failed Serving e
  | inl srv => Built g srv
  end end end end end end end end.

(** Callees over the handles of [toy_world]: the constructor of the
    consensus set, [crypto.Perm] and [Serve] panic as told. *)
Definition toy_panics (w : World) (cs perm serve : option string) : Panics w :=
  mkPanics (fun _ _ => None) (fun _ _ => cs) (fun _ _ _ => None)
    (fun _ _ _ _ _ _ => None) (fun _ => perm) (fun _ => serve).

End Siad.

(* ================================================================== *)
(** * consensus: loading the database                                  *)
(* ================================================================== *)

Module Consensus.

(** How a call ends: it returns its [error] result, or it panics with the
    error handed to [panic]. *)
Inductive outcome :=
| Return (err : option error)
| Panic (err : error).

(** [bolt]'s [db.Update(fn)]: [fn] runs on a writable transaction that is
    committed when [fn] returns [nil] and rolled back when it returns an
    error or panics.  A transaction is the store content it works on. *)
Definition Update {Tx : Type} (fn : Tx -> Tx * outcome) (db : Tx)
  : Tx * outcome :=
  match fn db with
  | (db', Return None) => (db', Return None)
  | (_, o) => (db, o)
  end.

(** The helpers [loadDB] calls are defined in files of the package that are
    not part of the sources at hand; [Env] takes them as they are used:
    - [BlockID], an array type compared with [!=];
    - the content [Tx] of the bolt database seen by a transaction;
    - [dbInitialized], [inconsistencyDetected], [getPath], reading it;
    - [initDB], writing the fresh layout, which may report an error;
    - [openDB], which opens (or creates) the file and may report an error;
    - [build.DEBUG], [modules.ConsensusDir] and [filepath.Join].
    [ConsensusSet] has the fields of the consensus set [loadDB] reads. *)
Record ConsensusSet (BlockID : Type) := mkCS {
  persistDir : string;
  blockRoot_Block_ID : BlockID      (* cs.blockRoot.Block.ID() *)
}.
Arguments mkCS {BlockID}.
Arguments persistDir {BlockID}.
Arguments blockRoot_Block_ID {BlockID}.

Record Env := mkEnv {
  BlockID : Type;
  BlockID_eqb : BlockID -> BlockID -> bool;          (* a == b *)
  Tx : Type;
  dbInitialized : Tx -> bool;
  inconsistencyDetected : Tx -> bool;
  getPath : Tx -> Z -> BlockID * option error;
  initDB : ConsensusSet BlockID -> Tx -> Tx * option error;
  openDB : ConsensusSet BlockID -> string -> option error;
  build_DEBUG : bool;
  modules_ConsensusDir : string;
  filepath_Join : string -> string -> string
}.

Definition DatabaseFilename (E : Env) : string :=
  (modules_ConsensusDir E ++ ".db")%string.
Definition logFile (E : Env) : string :=
  (modules_ConsensusDir E ++ ".log")%string.

(** The closure handed to [cs.db.Update]. *)
Definition loadDB_tx (E : Env) (cs : ConsensusSet (BlockID E)) (tx : Tx E)
  : Tx E * outcome :=
  (* Check if the database has been initialized. *)
  if negb (dbInitialized E tx) then
    let (tx', err) := initDB E cs tx in (tx', Return err)
  (* Check that inconsistencies have not been detected in the database. *)
  else if inconsistencyDetected E tx then
    (tx, Return (Some "database contains inconsistencies"))
  else
    (* Check that the genesis block is correct. *)
    let (genesisID, err) := getPath E tx 0 in
    match build_DEBUG E, err with
    | true, Some e => (tx, Panic e)
    | _, _ =>
        if negb (BlockID_eqb E genesisID (blockRoot_Block_ID cs)) then
          (tx, Return (Some "Blockchain has wrong genesis block, exiting."))
        else (tx, Return None)
    end.

(** [loadDB] on the database content [db] found under the persist
    directory: the content it leaves behind and the way it ends. *)
Definition loadDB (E : Env) (cs : ConsensusSet (BlockID E)) (db : Tx E)
  : Tx E * outcome :=
  match openDB E cs (filepath_Join E (persistDir cs) (DatabaseFilename E))
  with
  | Some err => (db, Return (Some err))
  | None => Update (loadDB_tx E cs) db
  end.

(** ** Setting up persistence *)

(** [initPersist] also calls [os.MkdirAll] and [persist.NewFileLogger],
    which are outside the sources at hand; [PersistEnv] takes them as they
    are used.  [persist.NewFileLogger] returns a pointer and an error: the
    pointer is [None] when it is [nil]. *)
Record PersistEnv := mkPersistEnv {
  Logger : Type;
  os_MkdirAll : string -> Z -> option error;
  persist_NewFileLogger : string -> option Logger * option error
}.

(** What [initPersist] writes: the field [cs.log] and the content of the
    database behind [cs.db]. *)
Record Persist (E : Env) (P : PersistEnv) := mkPersist {
  cs_log : option (Logger P);
  cs_db : Tx E
}.
Arguments mkPersist {E P}.
Arguments cs_log {E P}.
Arguments cs_db {E P}.

Definition initPersist (E : Env) (P : PersistEnv)
    (cs : ConsensusSet (BlockID E)) (st : Persist E P)
  : Persist E P * outcome :=
  (* Create the consensus directory. *)
  match os_MkdirAll P (persistDir cs) 448%Z (* 0700 *) with
  | Some err => (st, Return (Some err))
  | None =>
      (* Initialize the logger: cs.log is assigned whatever comes back. *)
      let r := persist_NewFileLogger P
                 (filepath_Join E (persistDir cs) (logFile E)) in
      let st1 := mkPersist (fst r) (cs_db st) in
      match snd r with
      | Some err => (st1, Return (Some err))
      | None =>
          (* Try to load an existing database from disk. *)
          let l := loadDB E cs (cs_db st1) in
          let st2 := mkPersist (cs_log st1) (fst l) in
          match snd l with
          | Return (Some err) => (st2, Return (Some err))
          | Return None => (st2, Return None)
          | Panic e => (st2, Panic e)
          end
      end
  end.

(** ** A concrete store, for examples *)

(** Modelled from the spec: the layout of the persisted store is not in the
    sources at hand.  The spec describes it as an "initialized" flag, an
    "inconsistency" marker and the stored genesis identity; identities are
    byte strings here. *)
Record Store := mkStore {
  initialized : bool;
  inconsistencyMarker : bool;
  genesisIdentity : option (list Z)
}.

Fixpoint id_eqb (a b : list Z) : bool :=
  match a, b with
  | [], [] => true
  | x :: a', y :: b' => (x =? y)%Z && id_eqb a' b'
  | _, _ => false
  end.

Definition toy_getPath (st : Store) (h : Z) : list Z * option error :=
  match genesisIdentity st with
  | Some g => if (h =? 0)%Z then (g, None) else ([], Some "no block at height")
  | None => ([], Some "no block at height")
  end.

(** An environment over [Store].  Fresh initialization is as the spec words
    it: "writes genesis record, sets initialized=true". *)
Definition toy_env (debug : bool) : Env :=
  mkEnv (list Z) id_eqb Store initialized inconsistencyMarker toy_getPath
    (fun cs _ => (mkStore true false (Some (blockRoot_Block_ID cs)), None))
    (fun _ _ => None) debug "consensus"
    (fun a b => (a ++ "/" ++ b)%string).

(** A consensus set whose genesis block has identity [genesis]. *)
Definition toy_cs (genesis : list Z) : ConsensusSet (list Z) :=
  mkCS "data" genesis.

(** Collaborators of [initPersist] over a [unit] logger. *)
Definition toy_persist_env (mkdir logger : option error) : PersistEnv :=
  mkPersistEnv unit (fun _ _ => mkdir)
    (fun _ => match logger with
              | None => (Some tt, None)
              | Some e => (None, Some e)
              end).

End Consensus.

(* ================================================================== *)
(** * sync: ThreadGroup                                                *)
(* ================================================================== *)

Module ThreadGroup.

Local Open Scope Z_scope.

(** The methods are modelled statement by statement, so that goroutines can
    interleave between any two accesses to the group.  What the Go run time
    provides is taken as documented:
    - [sync.Mutex]: [Lock] blocks while the mutex is taken; [Unlock] of a
      mutex that is not locked is a fatal error;
    - [sync.WaitGroup]: [Add(1)] and [Done] change the counter, [Done]
      panics when the counter would go below zero, [Wait] blocks until the
      counter is zero;
    - channels: [close] panics on a nil or closed channel; a receive in a
      [select] with a [default] succeeds exactly on a closed channel;
    - [sync.Once]: the function runs on the first [Do] only;
    - a panic ends the whole program. *)

(** [ErrStopped] is returned by ThreadGroup methods if Stop has already
    been called. *)
Definition ErrStopped : error := "ThreadGroup already stopped".

(** Goroutines are numbered.  A [func()] handed to [OnStop] is opaque to the
    group: it is named by a number and running it is recorded in the trace;
    what it does elsewhere is outside the model, and it is assumed not to
    call back into the group. *)
Definition tid := nat.
Definition fn := nat.

(** A [chan struct{}] that is only ever made and closed. *)
Inductive chan := ChanNil | ChanOpen | ChanClosed.

(** The fields of the struct.  [chanOnce] has fired exactly when [stopChan]
    is no longer nil; [mu] is the goroutine inside the mutex, if any; [wg]
    is the WaitGroup counter. *)
Record ThreadGroup := mkTG {
  stopChan : chan;
  mu : option tid;
  wg : Z;
  stopFns : list fn
}.

(** The zero value, which the code makes valid. *)
Definition zero : ThreadGroup := mkTG ChanNil None 0 [].

Definition set_stopChan (tg : ThreadGroup) (c : chan) :=
  mkTG c (mu tg) (wg tg) (stopFns tg).
Definition set_mu (tg : ThreadGroup) (m : option tid) :=
  mkTG (stopChan tg) m (wg tg) (stopFns tg).
Definition set_wg (tg : ThreadGroup) (n : Z) :=
  mkTG (stopChan tg) (mu tg) n (stopFns tg).
Definition set_stopFns (tg : ThreadGroup) (l : list fn) :=
  mkTG (stopChan tg) (mu tg) (wg tg) l.

(** [StopChan]: [chanOnce.Do] makes the channel on first use. *)
Definition StopChan (tg : ThreadGroup) : ThreadGroup * chan :=
  match stopChan tg with
  | ChanNil => (set_stopChan tg ChanOpen, ChanOpen)
  | c => (tg, c)
  end.

(** [IsStopped]: a non-blocking receive on [StopChan()] succeeds exactly
    when the channel is closed. *)
Definition IsStopped (tg : ThreadGroup) : ThreadGroup * bool :=
  let (tg', c) := StopChan tg in
  (tg', match c with ChanClosed => true | _ => false end).

(** ** Calls, results and the trace *)

Inductive method :=
| MAdd | MDone | MStop | MOnStop (f : fn) | MIsStopped | MStopChan.

Inductive value :=
| VUnit
| VErr (err : option error)
| VBool (b : bool).

(** One entry per call, per return and per access to shared state, in the
    order in which they happen. *)
Inductive event :=
| Call (t : tid) (m : method)
| Ret (t : tid) (m : method) (v : value)
| Lock (t : tid)
| Unlock (t : tid)
| Close (t : tid)                 (* close(tg.stopChan) *)
| WgAdd (t : tid)                 (* tg.wg.Add(1) *)
| WgDone (t : tid)                (* tg.wg.Done() *)
| RunStopFn (t : tid) (f : fn)    (* tg.stopFns[i]() inside Stop *)
| RunNow (t : tid) (f : fn)       (* fn() inside OnStop *)
| Appended (t : tid) (f : fn).    (* tg.stopFns = append(tg.stopFns, fn) *)

(** ** Program points

    Where a goroutine stands inside a method: each constructor names the
    statement it is about to execute. *)
Inductive frame :=
| Idle
| Add_Lock
| Add_IsStopped
| Add_wgAdd
| Add_return (err : option error)      (* deferred Unlock, then return err *)
| Done_wgDone
| Stop_Lock
| Stop_IsStopped
| Stop_UnlockErr                       (* Unlock; return ErrStopped *)
| Stop_close
| Stop_for (i : Z)                     (* loop test i >= 0, body, i-- *)
| Stop_Unlock
| Stop_Wait
| OnStop_Lock (f : fn)
| OnStop_IsStopped (f : fn)
| OnStop_Unlock_fn (f : fn)            (* Unlock, then fn() *)
| OnStop_fn (f : fn)
| OnStop_append (f : fn)
| OnStop_Unlock (f : fn)
| IsStopped_select
| StopChan_Do.

Definition entry (m : method) : frame :=
  match m with
  | MAdd => Add_Lock
  | MDone => Done_wgDone
  | MStop => Stop_Lock
  | MOnStop f => OnStop_Lock f
  | MIsStopped => IsStopped_select
  | MStopChan => StopChan_Do
  end.

(** What one statement does. *)
Inductive step_result :=
| Blocked                                            (* cannot proceed now *)
| Next (f : frame) (tg : ThreadGroup) (evs : list event)
| Crash (msg : string).                              (* run-time panic *)

(** [tg.mu.Lock()] blocks while the mutex is taken. *)
Definition do_Lock (t : tid) (tg : ThreadGroup) (k : frame) : step_result :=
  match mu tg with
  | None => Next k (set_mu tg (Some t)) [Lock t]
  | Some _ => Blocked
  end.

(** [tg.mu.Unlock()] of a mutex that is not locked is a fatal error. *)
Definition do_Unlock (t : tid) (tg : ThreadGroup) (k : frame)
    (evs : list event) : step_result :=
  match mu tg with
  | Some _ => Next k (set_mu tg None) (Unlock t :: evs)
  | None => Crash "sync: unlock of unlocked mutex"
  end.

Definition step_frame (t : tid) (f : frame) (tg : ThreadGroup)
  : step_result :=
  match f with
  | Idle => Blocked
  (* func (tg *ThreadGroup) Add() error *)
  | Add_Lock => do_Lock t tg Add_IsStopped
  | Add_IsStopped =>
      let (tg', b) := IsStopped tg in
      if b then Next (Add_return (Some ErrStopped)) tg' []
      else Next Add_wgAdd tg' []
  | Add_wgAdd => Next (Add_return None) (set_wg tg (wg tg + 1)) [WgAdd t]
  | Add_return err => do_Unlock t tg Idle [Ret t MAdd (VErr err)]
  (* func (tg *ThreadGroup) Done() *)
  | Done_wgDone =>
      if wg tg - 1 <? 0 then Crash "sync: negative WaitGroup counter"
      else Next Idle (set_wg tg (wg tg - 1)) [WgDone t; Ret t MDone VUnit]
  (* func (tg *ThreadGroup) Stop() error *)
  | Stop_Lock => do_Lock t tg Stop_IsStopped
  | Stop_IsStopped =>
      let (tg', b) := IsStopped tg in
      if b then Next Stop_UnlockErr tg' [] else Next Stop_close tg' []
  | Stop_UnlockErr =>
      do_Unlock t tg Idle [Ret t MStop (VErr (Some ErrStopped))]
  | Stop_close =>
      match stopChan tg with
      | ChanOpen =>
          Next (Stop_for (Z.of_nat (List.length (stopFns tg)) - 1))
               (set_stopChan tg ChanClosed) [Close t]
      | ChanNil => Crash "close of nil channel"
      | ChanClosed => Crash "close of closed channel"
      end
  | Stop_for i =>
      (* for i := len(tg.stopFns) - 1; i >= 0; i-- { tg.stopFns[i]() }
         and, on leaving the loop, tg.stopFns = nil *)
      if 0 <=? i then
        match nth_error (stopFns tg) (Z.to_nat i) with
        | Some f => Next (Stop_for (i - 1)) tg [RunStopFn t f]
        | None => Crash "index out of range"
        end
      else Next Stop_Unlock (set_stopFns tg []) []
  | Stop_Unlock => do_Unlock t tg Stop_Wait []
  | Stop_Wait =>
      if wg tg =? 0 then Next Idle tg [Ret t MStop (VErr None)]
      else Blocked
  (* func (tg *ThreadGroup) OnStop(fn func()) *)
  | OnStop_Lock f => do_Lock t tg (OnStop_IsStopped f)
  | OnStop_IsStopped f =>
      let (tg', b) := IsStopped tg in
      if b then Next (OnStop_Unlock_fn f) tg' []
      else Next (OnStop_append f) tg' []
  | OnStop_Unlock_fn f => do_Unlock t tg (OnStop_fn f) []
  | OnStop_fn f => Next Idle tg [RunNow t f; Ret t (MOnStop f) VUnit]
  | OnStop_append f =>
      Next (OnStop_Unlock f) (set_stopFns tg (stopFns tg ++ [f]))
           [Appended t f]
  | OnStop_Unlock f => do_Unlock t tg Idle [Ret t (MOnStop f) VUnit]
  (* func (tg *ThreadGroup) IsStopped() bool *)
  | IsStopped_select =>
      let (tg', b) := IsStopped tg in
      Next Idle tg' [Ret t MIsStopped (VBool b)]
  (* func (tg *ThreadGroup) StopChan() <-chan struct{} *)
  | StopChan_Do =>
      let (tg', _) := StopChan tg in
      Next Idle tg' [Ret t MStopChan VUnit]
  end.

(** ** The program: any number of goroutines sharing one group *)

Definition upd (fs : tid -> frame) (t : tid) (f : frame) : tid -> frame :=
  fun u => if Nat.eqb u t then f else fs u.

Record state := mkState {
  tg : ThreadGroup;
  frames : tid -> frame;
  trace : list event;             (* oldest first *)
  crashed : option string
}.

Definition init : state := mkState zero (fun _ => Idle) [] None.

(** What the scheduler and the callers decide: an idle goroutine calls a
    method, or a goroutine inside a method executes its next statement. *)
Inductive action :=
| Invoke (t : tid) (m : method)
| Tau (t : tid).

(** [None]: the action cannot happen in this state. *)
Definition step (a : action) (s : state) : option state :=
  match crashed s with
  | Some _ => None
  | None =>
    match a with
    | Invoke t m =>
        match frames s t with
        | Idle => Some (mkState (tg s) (upd (frames s) t (entry m))
                          (trace s ++ [Call t m]) None)
        | _ => None
        end
    | Tau t =>
        match step_frame t (frames s t) (tg s) with
        | Blocked => None
        | Next f' tg' evs =>
            Some (mkState tg' (upd (frames s) t f') (trace s ++ evs) None)
        | Crash msg =>
            Some (mkState (tg s) (frames s) (trace s) (Some msg))
        end
    end
  end.

Fixpoint run (l : list action) (s : state) : option state :=
  match l with
  | [] => Some s
  | a :: l' =>
      match step a s with
      | Some s' => run l' s'
      | None => None
      end
  end.

Definition reachable (s : state) : Prop := exists l, run l init = Some s.

(** A goroutine running a method on its own until it returns. *)
Definition solo (t : tid) (m : method) (n : nat) : list action :=
  Invoke t m :: repeat (Tau t) n.

(** The state a schedule leads to from [init]; [init] itself when the
    schedule cannot be followed. *)
Definition state_after (l : list action) : state :=
  match run l init with
  | Some s => s
  | None => init
  end.

(** The scenario of the specification: goroutine 1 acquires the group,
    goroutine 0 registers two functions and calls [Stop], which runs them
    and then waits for goroutine 1. *)
Definition scenario_draining : list action :=
  solo 1%nat MAdd 4 ++ solo 0%nat (MOnStop 7%nat) 4 ++
  solo 0%nat (MOnStop 8%nat) 4 ++ solo 0%nat MStop 7.

(** Goroutine 1 then releases the group and [Stop] returns. *)
Definition scenario_stopped : list action :=
  scenario_draining ++ solo 1%nat MDone 1 ++ [Tau 0%nat].

(** ** Observations on a trace *)

(** The goroutines that closed the channel. *)
Definition closers (tr : list event) : list tid :=
  filter_map (fun e => match e with Close t => Some t | _ => None end) tr.

(** The functions appended to [stopFns], in registration order. *)
Definition appended (tr : list event) : list fn :=
  filter_map (fun e => match e with Appended _ f => Some f | _ => None end) tr.

(** The functions called by the loop of [Stop], in call order. *)
Definition ran_by_Stop (tr : list event) : list fn :=
  filter_map (fun e => match e with RunStopFn _ f => Some f | _ => None end) tr.

Definition is_Stop_nil (e : event) : bool :=
  match e with Ret _ MStop (VErr None) => true | _ => false end.

(** Some call of [Stop] has returned [nil]. *)
Definition Stop_returned (tr : list event) : bool := existsb is_Stop_nil tr.

(** ** Program points by what is known there *)

(** Between [Lock] and [Unlock]. *)
Definition in_mutex (f : frame) : bool :=
  match f with
  | Add_IsStopped | Add_wgAdd | Add_return _
  | Stop_IsStopped | Stop_UnlockErr | Stop_close | Stop_for _ | Stop_Unlock
  | OnStop_IsStopped _ | OnStop_Unlock_fn _ | OnStop_append _
  | OnStop_Unlock _ => true
  | _ => false
  end.

(** After [IsStopped] answered false, still inside the mutex. *)
Definition saw_open (f : frame) : bool :=
  match f with
  | Add_wgAdd | Add_return None | Stop_close
  | OnStop_append _ | OnStop_Unlock _ => true
  | _ => false
  end.

(** After [IsStopped] answered true, or after [close]. *)
Definition saw_closed (f : frame) : bool :=
  match f with
  | Add_return (Some _) | Stop_UnlockErr
  | Stop_for _ | Stop_Unlock | Stop_Wait
  | OnStop_Unlock_fn _ | OnStop_fn _ => true
  | _ => false
  end.

(** Inside the call of [Stop] that closed the channel. *)
Definition stopping (f : frame) : bool :=
  match f with
  | Stop_for _ | Stop_Unlock | Stop_Wait => true
  | _ => false
  end.

(** ** The invariant of the group *)

Record inv (s : state) : Prop := mkInv {
  inv_mutex : forall t, in_mutex (frames s t) = true <-> mu (tg s) = Some t;
  inv_open : forall t,
    saw_open (frames s t) = true -> stopChan (tg s) = ChanOpen;
  inv_closed : forall t,
    saw_closed (frames s t) = true -> stopChan (tg s) = ChanClosed;
  inv_err : forall t e, frames s t = Add_return (Some e) -> e = ErrStopped;
  inv_wg : 0 <= wg (tg s);
  inv_stopping : forall t,
    stopping (frames s t) = true ->
    closers (trace s) = [t] /\ Stop_returned (trace s) = false;
  inv_for : forall t i,
    frames s t = Stop_for i ->
    -1 <= i < Z.of_nat (List.length (stopFns (tg s))) /\
    stopFns (tg s) = appended (trace s) /\
    ran_by_Stop (trace s) = rev (skipn (Z.to_nat (i + 1)) (stopFns (tg s)));
  inv_before :
    stopChan (tg s) <> ChanClosed ->
    closers (trace s) = [] /\ stopFns (tg s) = appended (trace s) /\
    ran_by_Stop (trace s) = [] /\ Stop_returned (trace s) = false;
  inv_after :
    stopChan (tg s) = ChanClosed ->
    exists u, closers (trace s) = [u] /\
      ((exists i, frames s u = Stop_for i) \/
       (stopFns (tg s) = [] /\
        ran_by_Stop (trace s) = rev (appended (trace s))));
  inv_returned : Stop_returned (trace s) = true -> wg (tg s) = 0
}.

(** ** What may still happen after the stop *)

(** Once the channel is closed: nothing is added to the WaitGroup, the
    channel is not closed again, nothing is appended to [stopFns], and
    [Add] returns [ErrStopped]. *)
Definition after_close (e : event) : bool :=
  match e with
  | WgAdd _ | Close _ | Appended _ _ => false
  | Ret _ MAdd (VErr (Some err)) => String.eqb err ErrStopped
  | Ret _ MAdd _ => false
  | _ => true
  end.

(** Once a call of [Stop] has returned [nil]: moreover the loop of [Stop]
    calls no function, and [Stop] returns [ErrStopped]. *)
Definition after_Stop (e : event) : bool :=
  after_close e &&
  match e with
  | RunStopFn _ _ => false
  | Ret _ MStop (VErr (Some err)) => String.eqb err ErrStopped
  | Ret _ MStop _ => false
  | _ => true
  end.

(** ** Counting in a trace *)

Definition count (p : event -> bool) (tr : list event) : nat :=
  List.length (filter p tr).

(** The goroutine an entry belongs to. *)
Definition tid_of (e : event) : tid :=
  match e with
  | Call t _ | Ret t _ _ | Lock t | Unlock t | Close t | WgAdd t | WgDone t
  | RunStopFn t _ | RunNow t _ | Appended t _ => t
  end.

(** [p], restricted to the entries of goroutine [t]. *)
Definition by_tid (t : tid) (p : event -> bool) (e : event) : bool :=
  Nat.eqb (tid_of e) t && p e.

(** The entries of the goroutines other than [t]. *)
Definition others (t : tid) (tr : list event) : list event :=
  filter (fun e => negb (Nat.eqb (tid_of e) t)) tr.

Definition p_WgAdd (e : event) : bool :=
  match e with WgAdd _ => true | _ => false end.
Definition p_WgDone (e : event) : bool :=
  match e with WgDone _ => true | _ => false end.
Definition p_Add_nil (e : event) : bool :=
  match e with Ret _ MAdd (VErr None) => true | _ => false end.
Definition p_Call_Done (e : event) : bool :=
  match e with Call _ MDone => true | _ => false end.
Definition p_Call_OnStop (f : fn) (e : event) : bool :=
  match e with Call _ (MOnStop g) => Nat.eqb g f | _ => false end.
Definition p_Appended (f : fn) (e : event) : bool :=
  match e with Appended _ g => Nat.eqb g f | _ => false end.
Definition p_RunNow (f : fn) (e : event) : bool :=
  match e with RunNow _ g => Nat.eqb g f | _ => false end.
Definition p_RunStopFn (f : fn) (e : event) : bool :=
  match e with RunStopFn _ g => Nat.eqb g f | _ => false end.

(** How often [f] has been called, by [Stop] or by [OnStop]. *)
Definition runs (f : fn) (tr : list event) : nat :=
  count (p_RunStopFn f) tr + count (p_RunNow f) tr.

(** How often [OnStop f] has been called. *)
Definition registrations (f : fn) (tr : list event) : nat :=
  count (p_Call_OnStop f) tr.

(** ** The callers' obligation

    [Done] is to be called once per [Add] that returned [nil], and not
    before.  [owed n tr] replays [tr] with [n] calls of [Done] still due:
    [None] when some [Done] is called that no [Add] accounts for, otherwise
    the number of calls due at the end. *)
Fixpoint owed (n : nat) (tr : list event) : option nat :=
  match tr with
  | [] => Some n
  | e :: tr' =>
      if p_Add_nil e then owed (S n) tr'
      else if p_Call_Done e then
        match n with
        | O => None
        | S m => owed m tr'
        end
      else owed n tr'
  end.

Definition matched (tr : list event) : bool :=
  match owed 0 tr with Some _ => true | None => false end.

(** ** Bookkeeping invariant *)

Definition at_Add_return_nil (f : frame) : nat :=
  match f with Add_return None => 1 | _ => 0 end.

Definition at_Done (f : frame) : nat :=
  match f with Done_wgDone => 1 | _ => 0 end.

(** Inside [OnStop g], before [g] has been appended or called. *)
Definition registering (g : fn) (f : frame) : nat :=
  match f with
  | OnStop_Lock h | OnStop_IsStopped h | OnStop_Unlock_fn h | OnStop_fn h
  | OnStop_append h => if Nat.eqb h g then 1 else 0
  | _ => 0
  end.

Definition in_OnStop (f : frame) : bool :=
  match f with
  | OnStop_Lock _ | OnStop_IsStopped _ | OnStop_Unlock_fn _ | OnStop_fn _
  | OnStop_append _ | OnStop_Unlock _ => true
  | _ => false
  end.

Record inv2 (s : state) : Prop := mkInv2 {
  cnt_wg :
    wg (tg s) =
      Z.of_nat (count p_WgAdd (trace s)) - Z.of_nat (count p_WgDone (trace s));
  cnt_add : forall t,
    count (by_tid t p_WgAdd) (trace s) =
      (count (by_tid t p_Add_nil) (trace s) + at_Add_return_nil (frames s t))%nat;
  cnt_done : forall t,
    count (by_tid t p_Call_Done) (trace s) =
      (count (by_tid t p_WgDone) (trace s) + at_Done (frames s t))%nat;
  cnt_onstop : forall t g,
    count (by_tid t (p_Call_OnStop g)) (trace s) =
      (count (by_tid t (p_Appended g)) (trace s) +
       count (by_tid t (p_RunNow g)) (trace s) +
       registering g (frames s t))%nat;
  busy_in_trace : forall t,
    frames s t <> Idle -> In t (map tid_of (trace s));
  inv_closer : forall u,
    closers (trace s) = [u] ->
    stopping (frames s u) = true \/ Stop_returned (trace s) = true;
  inv_winner : forall t,
    In (Ret t MStop (VErr None)) (trace s) -> closers (trace s) = [t];
  inv_once : (count is_Stop_nil (trace s) <= 1)%nat
}.

(** ** Further observations *)

(** Replays the [Lock] and [Unlock] entries of a trace from the holder [h]:
    [None] when a [Lock] happens while the mutex is held or an [Unlock] is
    not by the holder, otherwise the holder at the end. *)
Fixpoint holder_after (h : option tid) (tr : list event)
  : option (option tid) :=
  match tr with
  | [] => Some h
  | Lock t :: tr' =>
      match h with
      | None => holder_after (Some t) tr'
      | Some _ => None
      end
  | Unlock t :: tr' =>
      match h with
      | Some u => if Nat.eqb u t then holder_after None tr' else None
      | None => None
      end
  | _ :: tr' => holder_after h tr'
  end.

(** No function is called by the loop of [Stop] once [OnStop] has called
    one itself; [seen] tells whether [OnStop] already did. *)
Fixpoint loop_before_inline (seen : bool) (tr : list event) : bool :=
  match tr with
  | [] => true
  | RunNow _ _ :: tr' => loop_before_inline true tr'
  | RunStopFn _ _ :: tr' => negb seen && loop_before_inline seen tr'
  | _ :: tr' => loop_before_inline seen tr'
  end.

Definition p_RunNow_any (e : event) : bool :=
  match e with RunNow _ _ => true | _ => false end.

(** The channel is closed and no goroutine is inside the loop of [Stop]. *)
Definition loop_over (s : state) : Prop :=
  stopChan (tg s) = ChanClosed /\ forall u i, frames s u <> Stop_for i.

(** What holds of the functions [OnStop] calls itself. *)
Definition inline_inv (s : state) : Prop :=
  loop_before_inline false (trace s) = true /\
  (existsb p_RunNow_any (trace s) = true -> loop_over s) /\
  (forall t f, frames s t = OnStop_Unlock_fn f \/ frames s t = OnStop_fn f ->
               loop_over s).

(** [IsStopped] returned [b]. *)
Definition p_IsStopped (b : bool) (e : event) : bool :=
  match e with
  | Ret _ MIsStopped (VBool c) => Bool.eqb b c
  | _ => false
  end.

(** ** Functions that are nil

    A [func()] value may be nil, and calling a nil function is a run-time
    panic.  [is_nil] tells which of the numbered functions are nil.  The
    two statements that call a function handed to [OnStop] are
    [tg.stopFns[i]()] in [Stop], once the index expression has been
    evaluated, and [fn()] in [OnStop]. *)
Definition nil_call : string :=
  "invalid memory address or nil pointer dereference".

(** The function the statement at [f] is about to call. *)
Definition callee (f : frame) (tg : ThreadGroup) : option fn :=
  match f with
  | Stop_for i =>
      if 0 <=? i then nth_error (stopFns tg) (Z.to_nat i) else None
  | OnStop_fn g => Some g
  | _ => None
  end.

Definition step_frame_nil (is_nil : fn -> bool) (t : tid) (f : frame)
    (tg : ThreadGroup) : step_result :=
  match callee f tg with
  | Some g => if is_nil g then Crash nil_call else step_frame t f tg
  | None => step_frame t f tg
  end.

(** [step], with functions that may be nil. *)
Definition step_nil (is_nil : fn -> bool) (a : action) (s : state)
  : option state :=
  match crashed s with
  | Some _ => None
  | None =>
    match a with
    | Invoke t m =>
        match frames s t with
        | Idle => Some (mkState (tg s) (upd (frames s) t (entry m))
                          (trace s ++ [Call t m]) None)
        | _ => None
        end
    | Tau t =>
        match step_frame_nil is_nil t (frames s t) (tg s) with
        | Blocked => None
        | Next f' tg' evs =>
            Some (mkState tg' (upd (frames s) t f') (trace s ++ evs) None)
        | Crash msg =>
            Some (mkState (tg s) (frames s) (trace s) (Some msg))
        end
    end
  end.

Fixpoint run_nil (is_nil : fn -> bool) (l : list action) (s : state)
  : option state :=
  match l with
  | [] => Some s
  | a :: l' =>
      match step_nil is_nil a s with
      | Some s' => run_nil is_nil l' s'
      | None => None
      end
  end.

Definition reachable_nil (is_nil : fn -> bool) (s : state) : Prop :=
  exists l, run_nil is_nil l init = Some s.

End ThreadGroup.

(* ================================================================== *)
(** * gateway: build-dependent constants                               *)
(* ================================================================== *)

Module Gateway.

Local Open Scope Z_scope.

(** A package-level variable is initialised by calling a function literal
    that switches on [build.Release]: the call yields a value, or panics
    with a message. *)
Inductive result (A : Type) :=
| Val (a : A)
| Panic (msg : string).
Arguments Val {A}.
Arguments Panic {A}.

(** [time.Duration] counts nanoseconds. *)
Definition time_Millisecond : Z := 1000000.
Definition time_Second : Z := 1000 * time_Millisecond.
Definition time_Minute : Z := 60 * time_Second.

Definition handshakeUpgradeVersion : string := "1.0.0".
Definition minAcceptableVersion : string := "0.4.0".

(** [switch build.Release { case "dev": ... case "standard": ...
    case "testing": ... default: panic(msg) }]. *)
Definition switch_Release {A} (Release : string) (dev standard testing : A)
    (msg : string) : result A :=
  if String.eqb Release "dev" then Val dev
  else if String.eqb Release "standard" then Val standard
  else if String.eqb Release "testing" then Val testing
  else Panic msg.

Definition healthyNodeListLen (Release : string) : result Z :=
  switch_Release Release 30 200 15
    "unrecognized build.Release in healthyNodeListLen".

Definition maxSharedNodes (Release : string) : result Z :=
  switch_Release Release 5 10 3
    "unrecognized build.Release in healthyNodeListLen".

Definition nodePurgeDelay (Release : string) : result Z :=
  switch_Release Release
    (20 * time_Second) (10 * time_Minute) (500 * time_Millisecond)
    "unrecognized build.Release in nodePurgeDelay".

Definition nodeListDelay (Release : string) : result Z :=
  switch_Release Release
    (3 * time_Second) (5 * time_Second) (500 * time_Millisecond)
    "unrecognized build.Release in nodePurgeDelay".

Definition pruneNodeListLen (Release : string) : result Z :=
  switch_Release Release 15 50 10
    "unrecognized build.Release in pruneNodeListLen".

Definition acceptInterval (Release : string) : result Z :=
  switch_Release Release
    (3 * time_Second) (6 * time_Second) (100 * time_Millisecond)
    "unrecognized build.Release in acceptInterval".

Definition acquiringPeersDelay (Release : string) : result Z :=
  switch_Release Release
    (3 * time_Minute) (5 * time_Second) (500 * time_Millisecond)
    "unrecognized build.Release in wellConnectedDelay".

Definition fullyConnectedThreshold (Release : string) : result Z :=
  switch_Release Release 20 128 10
    "unrecognized build.Release in fullyConnectedThreshold".

Definition noNodesDelay (Release : string) : result Z :=
  switch_Release Release
    (10 * time_Second) (20 * time_Second) (3 * time_Second)
    "unrecognized build.Release in noNodesDelay".

Definition wellConnectedDelay (Release : string) : result Z :=
  switch_Release Release
    (1 * time_Minute) (5 * time_Minute) (3 * time_Second)
    "unrecognized build.Release in wellConnectedDelay".

Definition wellConnectedThreshold (Release : string) : result Z :=
  switch_Release Release 5 8 4
    "unrecognized build.Release in wellConnectedThreshold".

Definition dialTimeout (Release : string) : result Z :=
  switch_Release Release
    (20 * time_Second) (2 * time_Minute) (500 * time_Millisecond)
    "unrecognized build.Release in dialTimeout".

(** The variables of the file once initialised. *)
Record Consts := mkConsts {
  c_healthyNodeListLen : Z;
  c_maxSharedNodes : Z;
  c_nodePurgeDelay : Z;
  c_nodeListDelay : Z;
  c_pruneNodeListLen : Z;
  c_acceptInterval : Z;
  c_acquiringPeersDelay : Z;
  c_fullyConnectedThreshold : Z;
  c_noNodesDelay : Z;
  c_wellConnectedDelay : Z;
  c_wellConnectedThreshold : Z;
  c_dialTimeout : Z
}.

Definition and_then {A B} (r : result A) (k : A -> result B) : result B :=
  match r with
  | Val a => k a
  | Panic msg => Panic msg
  end.

(** Initialisation of the file's variables.  None of the initialisers
    refers to another variable of the file, so they run in the order of
    declaration; the first panic ends the program. *)
Definition init_consts (Release : string) : result Consts :=
  and_then (healthyNodeListLen Release) (fun a1 =>
  and_then (maxSharedNodes Release) (fun a2 =>
  and_then (nodePurgeDelay Release) (fun a3 =>
  and_then (nodeListDelay Release) (fun a4 =>
  and_then (pruneNodeListLen Release) (fun a5 =>
  and_then (acceptInterval Release) (fun a6 =>
  and_then (acquiringPeersDelay Release) (fun a7 =>
  and_then (fullyConnectedThreshold Release) (fun a8 =>
  and_then (noNodesDelay Release) (fun a9 =>
  and_then (wellConnectedDelay Release) (fun a10 =>
  and_then (wellConnectedThreshold Release) (fun a11 =>
  and_then (dialTimeout Release) (fun a12 =>
  Val (mkConsts a1 a2 a3 a4 a5 a6 a7 a8 a9 a10 a11 a12))))))))))))).

(** The values a Go [int], [uint64] or [time.Duration] can hold on a 64-bit
    platform. *)
Definition fits_int64 (z : Z) : Prop := - 2 ^ 63 <= z < 2 ^ 63.
Definition fits_uint64 (z : Z) : Prop := 0 <= z < 2 ^ 64.

End Gateway.

(* ================================================================== *)
(** * main: the action of the command                                  *)
(* ================================================================== *)

Module Main.

(** The variables the command-line flags are bound to. *)
Record Flags := mkFlags {
  debugLogging : bool;
  bindAddress : string;
  apiAddr : string;
  rpcAddr : string;
  poolFee : Z
}.

(** The [Value] fields of [app.Flags]. *)
Definition default_flags : Flags :=
  mkFlags false ":9985" "localhost:9980" ":9981" 200%Z.

(** The collaborators of [app.Action]: those of [Siad.Start], [net.Listen],
    [sharechain.New] and the [Serve] method of [http.Server]. *)
Record World := mkWorld {
  siad : Siad.World;
  Listener : Type;
  ShareChain : Type;
  net_Listen : string -> string -> Listener + error;
  sharechain_New : Siad.Siad -> string -> ShareChain + error;
  http_Serve : Listener -> option error
}.

(** What the action does to the outside, in program order.  The operands of
    [log.Fatal] are kept apart, an error by its message. *)
Inductive event :=
| Infoln (msg : string)
| Call_net_Listen (network addr : string)
| In_Start (e : Siad.event)           (* an effect of dc.Start() *)
| Fatal (args : list string)
| Call_sharechain_New (dir : string)
| Route (path method handler : string)
| Signal_Notify
| Go_signal_handler                   (* go func() { <-sigChan; ... }() *)
| Call_http_Serve.

(** How the action ends: it returns, [log.Fatal] ends the process with
    status 1, or a panic goes up to the caller. *)
Inductive outcome :=
| Returned
| Exited (status : Z)
| Panicked (msg : string).

Definition M (A : Type) : Type := list event * (outcome + A).

Definition ret {A} (a : A) : M A := ([], inr a).

Definition bind {A B} (m : M A) (f : A -> M B) : M B :=
  match m with
  | (l, inl o) => (l, inl o)
  | (l, inr a) => (l ++ fst (f a), snd (f a))
  end.

Definition emit (e : event) : M unit := ([e], inr tt).
Definition exit {A} (o : outcome) : M A := ([], inl o).

Notation "x <- m ;; k" := (bind m (fun x => k))
  (at level 61, m at next level, right associativity).
Notation "m ;;; k" := (bind m (fun _ => k))
  (at level 61, right associativity).

(** [log.Fatal(args...)]: the entry is logged and the process exits. *)
Definition log_Fatal {A} (args : list string) : M A :=
  emit (Fatal args) ;;; exit (Exited 1%Z).

(** [err = dc.Start()]: the effects of [Start] are those of the action; a
    panic of [Start] is not recovered. *)
Definition call_Start (w : World) (dc : Siad.Siad) : M (option error) :=
  match Siad.Start (siad w) dc with
  | (l, Siad.Return err) => (map In_Start l, inr err)
  | (l, Siad.Panic msg) => (map In_Start l, inl (Panicked msg))
  end.

Definition Action_body (w : World) (f : Flags) : M outcome :=
  (* Print a startup message. *)
  emit (Infoln "Loading...") ;;;
  (* Create the listener for the server *)
  emit (Call_net_Listen "tcp" (bindAddress f)) ;;;
  l <- match net_Listen w "tcp" (bindAddress f) with
       | inl l => ret l
       | inr e => log_Fatal ["Error listening on"; bindAddress f; e]
       end ;;
  let dc := Siad.mkSiad (rpcAddr f) (apiAddr f) in
  err <- call_Start w dc ;;
  match err with
  | Some e => log_Fatal ["Error running embedded siad: "; e]
  | None => ret tt
  end ;;;
  emit (Infoln "Loading sharechain...") ;;;
  emit (Call_sharechain_New "p2pooldata/sharechain") ;;;
  sc <- match sharechain_New w dc "p2pooldata/sharechain" with
        | inl sc => ret sc
        | inr e => log_Fatal ["Error initializing sharechain: "; e]
        end ;;
  emit (Route "/fee" "GET" "poolapi.FeeHandler") ;;;
  emit (Route "/version" "GET" "poolapi.VersionHandler") ;;;
  (* stop the server if a kill signal is caught *)
  emit Signal_Notify ;;;
  emit Go_signal_handler ;;;
  emit (Infoln "Listening for miner requests") ;;;
  emit Call_http_Serve ;;;
  (* the result of srv.Serve(l) is dropped *)
  ret Returned.

(** [app.Action]: the log of effects and the way the call ends. *)
Definition Action (w : World) (f : Flags) : list event * outcome :=
  match Action_body w f with
  | (l, inl o) => (l, o)
  | (l, inr o) => (l, o)
  end.

(** ** Observations on a log *)

(** The effects of [dc.Start()] within the action. *)
Definition start_events (l : list event) : list Siad.event :=
  filter_map (fun e => match e with In_Start e' => Some e' | _ => None end) l.

Definition is_Listen (e : event) : bool :=
  match e with Call_net_Listen _ _ => true | _ => false end.

Definition is_sharechain_New (e : event) : bool :=
  match e with Call_sharechain_New _ => true | _ => false end.

Definition is_http_Serve (e : event) : bool :=
  match e with Call_http_Serve => true | _ => false end.

Definition is_Fatal (e : event) : bool :=
  match e with Fatal _ => true | _ => false end.

(** A concrete world over [unit] handles, for examples. *)
Definition toy_world (sw : Siad.World) (listen sc : option error) : World :=
  let res (o : option error) : unit + error :=
    match o with None => inl tt | Some e => inr e end in
  mkWorld sw unit unit (fun _ _ => res listen) (fun _ _ => res sc)
    (fun _ => None).

End Main.

(* ================================================================== *)
(** * Facts about lists                                                *)
(* ================================================================== *)

Module ListFacts.

Lemma filter_map_app {A B} (f : A -> option B) (l1 l2 : list A) :
  filter_map f (l1 ++ l2) = filter_map f l1 ++ filter_map f l2.
Proof.
  induction l1 as [|a l1 IH]; simpl; [reflexivity|].
  destruct (f a); simpl; now rewrite IH.
Qed.

Lemma skipn_nth_error {A} (l : list A) n x :
  nth_error l n = Some x -> skipn n l = x :: skipn (S n) l.
Proof.
  revert l; induction n as [|n IH]; intros [|a l] H; simpl in *;
    try discriminate.
  - now injection H as ->.
  - now apply IH.
Qed.

End ListFacts.

(* ================================================================== *)
(** * Properties of the start-up sequence                              *)
(* ================================================================== *)

Module StartProps.
Import Siad ListFacts.

(** The stage constructors decide alone whether [built] yields handles. *)
Lemma built_failing_stage (w : World) (s : Siad) g srv :
  built w s = Some (g, srv) -> failing_stage w s = None.
Proof.
  unfold built, failing_stage.
  destruct (gateway_New w _ _); [|discriminate].
  destruct (consensus_New w _ _); [|discriminate].
  destruct (transactionpool_New w _ _ _); [|discriminate].
  destruct (api_NewServer w _ _ _ _ _ _); [reflexivity|discriminate].
Qed.

(** [Start] after the four constructors have succeeded. *)
Lemma Start_built (w : World) (s : Siad) g srv :
  built w s = Some (g, srv) ->
  Start w s =
    match crypto_Perm w (Z.of_nat (List.length (BootstrapPeers w))) with
    | inr e => (prologue w s, Return (Some e))
    | inl perm =>
        if (3 <=? List.length perm)%nat then
          match dial_all (BootstrapPeers w) (firstn 3 perm) with
          | (l, inl o) => (prologue w s ++ l, o)
          | (l, inr _) => (prologue w s ++ l ++ [Call_Serve],
                           Return (Serve w srv))
          end
        else (prologue w s, Panic "slice bounds out of range")
    end.
Proof.
  unfold built. intros H.
  unfold Start, Start_body, prologue.
  destruct (gateway_New w _ _) as [g0|]; [|discriminate].
  cbn [check bind emit ret exit app fst snd].
  destruct (consensus_New w _ _) as [cs|]; [|discriminate].
  cbn [check bind emit ret exit app fst snd].
  destruct (transactionpool_New w _ _ _) as [tp|]; [|discriminate].
  cbn [check bind emit ret exit app fst snd].
  destruct (api_NewServer w _ _ _ _ _ _) as [srv0|]; [|discriminate].
  injection H as -> ->.
  cbn [check bind emit ret exit app fst snd].
  destruct (crypto_Perm w _) as [perm|e]; [|reflexivity].
  cbn [check bind emit ret exit app fst snd]. unfold slice_to.
  destruct (3 <=? List.length perm)%nat; [|reflexivity].
  cbn [check bind emit ret exit app fst snd].
  destruct (dial_all _ _) as [l [o|[]]]; cbn; reflexivity.
Qed.

(** Dialing indices that are all within the list spawns one [Connect] per
    index, in order, and nothing else. *)
Lemma dial_all_in_range (peers : list NetAddress) (idx : list Z) :
  Forall (fun i => (0 <= i < Z.of_nat (List.length peers))%Z) idx ->
  dial_all peers idx =
    (map (fun i => Go_Connect (nth (Z.to_nat i) peers "")) idx, inr tt).
Proof.
  induction 1 as [|i idx Hi _ IH]; [reflexivity|].
  simpl. unfold index.
  destruct (Z.ltb_spec i 0); [lia|].
  destruct (nth_error peers (Z.to_nat i)) as [a|] eqn:E.
  - rewrite IH. cbn. rewrite (nth_error_nth _ _ _ E). reflexivity.
  - apply nth_error_None in E. lia.
Qed.

Lemma dialed_map_Go (f : Z -> NetAddress) (idx : list Z) :
  dialed (map (fun i => Go_Connect (f i)) idx) = map f idx.
Proof.
  unfold dialed. induction idx as [|i idx IH]; simpl;
    [reflexivity | now rewrite IH].
Qed.

Lemma firstn_incl {A} n (l : list A) x : In x (firstn n l) -> In x l.
Proof.
  revert l; induction n; intros [|a l]; simpl; try tauto.
  intros [->|H]; auto.
Qed.

Lemma NoDup_map_inj_local {A B} (f : A -> B) (l : list A) :
  (forall a b, f a = f b -> a = b) -> NoDup l -> NoDup (map f l).
Proof.
  intros Hf. induction 1 as [|a l Hin _ IH]; simpl; constructor; auto.
  intros H. apply in_map_iff in H as (b & Hb & Hbin).
  apply Hf in Hb. subst. contradiction.
Qed.

Lemma firstn_NoDup {A} n (l : list A) : NoDup l -> NoDup (firstn n l).
Proof.
  revert l; induction n; intros [|a l] H; simpl; try constructor.
  - inversion H; subst. intros Hin. apply firstn_incl in Hin. contradiction.
  - inversion H; auto.
Qed.

Lemma is_perm_range n perm i :
  is_perm n perm -> In i perm -> (0 <= i < Z.of_nat n)%Z.
Proof.
  intros P Hin. eapply Permutation_in in Hin; [|exact P].
  apply in_map_iff in Hin as (k & <- & Hk). apply in_seq in Hk. lia.
Qed.

Lemma is_perm_NoDup n perm : is_perm n perm -> NoDup perm.
Proof.
  intros P. eapply Permutation_NoDup; [symmetry; exact P|].
  apply NoDup_map_inj_local; [|apply seq_NoDup].
  intros a b H. lia.
Qed.

Lemma is_perm_length n perm : is_perm n perm -> List.length perm = n.
Proof.
  intros P. rewrite (Permutation_length P), length_map, length_seq.
  reflexivity.
Qed.

Lemma NoDup_map_nth (peers : list NetAddress) (idx : list Z) :
  NoDup peers -> NoDup idx ->
  Forall (fun i => (0 <= i < Z.of_nat (List.length peers))%Z) idx ->
  NoDup (map (fun i => nth (Z.to_nat i) peers "") idx).
Proof.
  intros Hp Hi Hr. induction idx as [|i idx IH]; simpl; [constructor|].
  inversion Hi; subst. inversion Hr; subst. constructor; auto.
  intros Hin. apply in_map_iff in Hin as (j & Hj & Hjin).
  rewrite Forall_forall in H4. pose proof (H4 _ Hjin).
  rewrite NoDup_nth in Hp. apply Hp in Hj; [|lia|lia].
  assert (i = j) by lia. subst. contradiction.
Qed.

(** A run in which everything succeeds: three of the four peers are
    dialed, in the order the permutation gives, and [Start] returns what
    [Serve] returns. *)
Example Start_all_well :
  Start (toy_world ["a:1"; "b:2"; "c:3"; "d:4"] None None None None
           (inl [2; 0; 3; 1]%Z) None (Some "listener closed")) toy_siad
  = ([ Printf ("Loading gateway..." ++ nl)%string;
       Call_gateway_New ":9981" "gateway";
       Printf ("Loading consensus..." ++ nl)%string;
       Call_consensus_New "consensus";
       Printf ("Loading transaction pool..." ++ nl)%string;
       Call_transactionpool_New "transactionpool";
       Call_api_NewServer "localhost:9980" "SIA-Agent" "";
       Call_crypto_Perm 4;
       Go_Connect "c:3"; Go_Connect "a:1"; Go_Connect "d:4";
       Call_Serve ],
     Return (Some "listener closed")).
Proof. reflexivity. Qed.

(** A permutation that names an index outside the list makes the index
    expression panic in the caller, after the dials already spawned. *)
Example Start_index_out_of_range :
  Start (toy_world ["a:1"; "b:2"; "c:3"] None None None None
           (inl [1; 5; 0]%Z) None None) toy_siad
  = (prologue (toy_world ["a:1"; "b:2"; "c:3"] None None None None
                 (inl [1; 5; 0]%Z) None None) toy_siad
       ++ [Go_Connect "b:2"],
     Panic "index out of range").
Proof. reflexivity. Qed.

(** [Start] never looks at what [Connect] returns. *)
Lemma Start_ignores_Connect (w : World) (s : Siad) c :
  Start (with_Connect w c) s = Start w s.
Proof. reflexivity. Qed.

(** ** The order of construction and the error handed back *)

(** C2 (as the code has it).  The constructors run in the order gateway,
    consensus, transaction pool, API server.  When the constructor of stage
    [k] is the first to fail, with error [e], exactly the stages up to [k]
    have been constructed, nothing is dialed or served, and [Start] returns
    [e] itself, unchanged. *)
Theorem Start_stops_at_first_failure (w : World) (s : Siad) k e :
  failing_stage w s = Some (k, e) ->
  constructed (fst (Start w s)) = stages_through k /\
  snd (Start w s) = Return (Some e) /\
  dialed (fst (Start w s)) = [] /\
  served (fst (Start w s)) = false.
Proof.
  unfold failing_stage, Start, Start_body.
  destruct (gateway_New w _ _) as [g|e1];
    cbn [check bind emit ret exit app fst snd].
  2:{ intros [= <- <-]. repeat split. }
  destruct (consensus_New w _ _) as [cs|e2];
    cbn [check bind emit ret exit app fst snd].
  2:{ intros [= <- <-]. repeat split. }
  destruct (transactionpool_New w _ _ _) as [tp|e3];
    cbn [check bind emit ret exit app fst snd].
  2:{ intros [= <- <-]. repeat split. }
  destruct (api_NewServer w _ _ _ _ _ _) as [srv|e4];
    cbn [check bind emit ret exit app fst snd].
  2:{ intros [= <- <-]. repeat split. }
  discriminate.
Qed.

Lemma Start_stops_at_first_failure_witness :
  let w := toy_world ["a:1"; "b:2"; "c:3"] None (Some "disk full") None None
             (inl [2; 0; 1]%Z) None None in
  failing_stage w toy_siad = Some (ChainState, "disk full") /\
  constructed (fst (Start w toy_siad)) = [Network; ChainState] /\
  snd (Start w toy_siad) = Return (Some "disk full").
Proof.
  intros w.
  pose proof (Start_stops_at_first_failure w toy_siad ChainState "disk full"
                eq_refl) as (H1 & H2 & _).
  split; [reflexivity | split; assumption].
Defined.

(** C2 (as the spec words it) does not hold: the error [Start] returns does
    not tell which stage produced it.  No function from returned errors to
    stages is right for every run. *)
Lemma Start_error_does_not_name_stage :
  ~ exists stage_of : error -> stage,
      forall (w : World) (s : Siad) k e,
        failing_stage w s = Some (k, e) ->
        exists e', snd (Start w s) = Return (Some e') /\ stage_of e' = k.
Proof.
  intros (stage_of & H).
  pose (w1 := toy_world [] (Some "disk full") None None None
                (inl []) None None).
  pose (w2 := toy_world [] None (Some "disk full") None None
                (inl []) None None).
  destruct (H w1 toy_siad Network "disk full" eq_refl) as (e1 & R1 & S1).
  destruct (H w2 toy_siad ChainState "disk full" eq_refl) as (e2 & R2 & S2).
  cbv in R1, R2. injection R1 as <-. injection R2 as <-.
  rewrite S1 in S2. discriminate.
Qed.

(** ** Bootstrap dialing *)

(** C7.  With at least three bootstrap peers and [crypto.Perm] handing back
    a permutation [perm] of their indices, [Start] spawns [g.Connect] for
    the peers at the first three indices of [perm], in that order, each in
    its own goroutine, right after [crypto.Perm] and before [Serve] is
    called: three dials, at three different positions of the list (three
    different addresses when the list has no repetition).  [Start] then
    returns what [Serve] returns, whatever the dials do. *)
Theorem Start_dials_three (w : World) (s : Siad) g srv perm :
  built w s = Some (g, srv) ->
  crypto_Perm w (Z.of_nat (List.length (BootstrapPeers w))) = inl perm ->
  is_perm (List.length (BootstrapPeers w)) perm ->
  (3 <= List.length (BootstrapPeers w))%nat ->
  let addrs :=
    map (fun i => nth (Z.to_nat i) (BootstrapPeers w) "") (firstn 3 perm) in
  fst (Start w s) = prologue w s ++ map Go_Connect addrs ++ [Call_Serve] /\
  dialed (fst (Start w s)) = addrs /\
  List.length addrs = 3%nat /\
  NoDup (firstn 3 perm) /\
  Forall (fun i => (0 <= i < Z.of_nat (List.length (BootstrapPeers w)))%Z)
         (firstn 3 perm) /\
  (NoDup (BootstrapPeers w) -> NoDup addrs) /\
  snd (Start w s) = Return (Serve w srv) /\
  (forall c, Start (with_Connect w c) s = Start w s).
Proof.
  intros Hb Hp Hperm Hn addrs.
  assert (Hr : Forall
            (fun i => (0 <= i < Z.of_nat (List.length (BootstrapPeers w)))%Z)
            (firstn 3 perm)).
  { apply Forall_forall. intros i Hi.
    eapply is_perm_range; [exact Hperm|]. eapply firstn_incl; exact Hi. }
  assert (Hlen : List.length perm = List.length (BootstrapPeers w))
    by (apply is_perm_length; exact Hperm).
  rewrite (Start_built w s g srv Hb), Hp.
  replace (3 <=? List.length perm)%nat with true
    by (symmetry; apply Nat.leb_le; lia).
  rewrite (dial_all_in_range _ _ Hr).
  cbn [fst snd].
  assert (Hmap : map (fun i => Go_Connect (nth (Z.to_nat i) (BootstrapPeers w) ""))
                     (firstn 3 perm) = map Go_Connect addrs)
    by (unfold addrs; rewrite map_map; reflexivity).
  rewrite Hmap.
  assert (Hc : forall c, Start (with_Connect w c) s =
     (prologue w s ++ map Go_Connect addrs ++ [Call_Serve],
      Return (Serve w srv))).
  { intros c. rewrite Start_ignores_Connect, (Start_built w s g srv Hb), Hp.
    replace (3 <=? List.length perm)%nat with true
      by (symmetry; apply Nat.leb_le; lia).
    rewrite (dial_all_in_range _ _ Hr), Hmap. reflexivity. }
  split; [reflexivity|].
  split.
  { unfold dialed. rewrite !filter_map_app. cbn [filter_map prologue app].
    rewrite app_nil_r. fold (dialed (map Go_Connect addrs)).
    change (map Go_Connect addrs)
      with (map (fun a => Go_Connect ((fun x => x) a)) addrs).
    unfold dialed. clear. induction addrs; simpl; [reflexivity|now f_equal]. }
  split.
  { unfold addrs. rewrite length_map, length_firstn. lia. }
  split; [apply firstn_NoDup; eapply is_perm_NoDup; exact Hperm|].
  split; [exact Hr|].
  split.
  { intros Hnd. apply NoDup_map_nth; auto.
    apply firstn_NoDup; eapply is_perm_NoDup; exact Hperm. }
  split; [reflexivity|exact Hc].
Qed.

Lemma Start_dials_three_witness :
  let w := toy_world ["a:1"; "b:2"; "c:3"; "d:4"] None None None None
             (inl [2; 0; 3; 1]%Z) (Some "connection refused") None in
  dialed (fst (Start w toy_siad)) = ["c:3"; "a:1"; "d:4"] /\
  snd (Start w toy_siad) = Return None.
Proof.
  intros w.
  assert (P : is_perm 4 [2; 0; 3; 1]%Z).
  { unfold is_perm. simpl.
    apply perm_trans with (l' := [0; 2; 3; 1]%Z); [apply perm_swap|].
    apply perm_skip.
    apply perm_trans with (l' := [2; 1; 3]%Z);
      [apply perm_skip; apply perm_swap|].
    apply perm_trans with (l' := [1; 2; 3]%Z);
      [apply perm_swap|apply Permutation_refl]. }
  pose proof (Start_dials_three w toy_siad tt tt [2; 0; 3; 1]%Z
                eq_refl eq_refl P) as H.
  simpl in H. destruct (H ltac:(lia)) as (_ & H2 & _ & _ & _ & _ & H7 & _).
  split; assumption.
Defined.

(** C8 (what the code does).  When [crypto.Perm] hands back fewer than
    three indices, the slice expression [perm[:3]] panics: [Start] ends in
    a run-time panic after the four constructors, before any dial and
    before [Serve]. *)
Theorem Start_panics_on_short_list (w : World) (s : Siad) g srv perm :
  built w s = Some (g, srv) ->
  crypto_Perm w (Z.of_nat (List.length (BootstrapPeers w))) = inl perm ->
  (List.length perm < 3)%nat ->
  Start w s = (prologue w s, Panic "slice bounds out of range") /\
  dialed (fst (Start w s)) = [] /\
  served (fst (Start w s)) = false.
Proof.
  intros Hb Hp Hlen.
  rewrite (Start_built w s g srv Hb), Hp.
  replace (3 <=? List.length perm)%nat with false
    by (symmetry; apply Nat.leb_gt; lia).
  repeat split.
Qed.

Lemma Start_panics_on_short_list_witness :
  let w := toy_world ["a:1"; "b:2"] None None None None
             (inl [1; 0]%Z) None None in
  snd (Start w toy_siad) = Panic "slice bounds out of range" /\
  dialed (fst (Start w toy_siad)) = [].
Proof.
  intros w.
  destruct (Start_panics_on_short_list w toy_siad tt tt [1; 0]%Z
              eq_refl eq_refl ltac:(simpl; lia)) as (H1 & H2 & _).
  rewrite H1. split; [reflexivity|].
  rewrite H1 in H2. exact H2.
Defined.

(** C10.  When the four constructors succeed and [crypto.Perm] reports an
    error [e], [Start] returns [e]: all four stages have been constructed,
    no dial has been spawned and [Serve] has not been called.  The results
    of the dials, by contrast, never reach the caller. *)
Theorem Start_returns_Perm_error (w : World) (s : Siad) g srv e :
  built w s = Some (g, srv) ->
  crypto_Perm w (Z.of_nat (List.length (BootstrapPeers w))) = inr e ->
  snd (Start w s) = Return (Some e) /\
  constructed (fst (Start w s)) = [Network; ChainState; TxPool; Serving] /\
  dialed (fst (Start w s)) = [] /\
  served (fst (Start w s)) = false /\
  (forall c, Start (with_Connect w c) s = Start w s).
Proof.
  intros Hb Hp.
  assert (Hc : forall c, Start (with_Connect w c) s = Start w s)
    by (intros c; apply Start_ignores_Connect).
  revert Hc. rewrite (Start_built w s g srv Hb), Hp. intros Hc.
  repeat split. exact Hc.
Qed.

Lemma Start_returns_Perm_error_witness :
  let w := toy_world ["a:1"; "b:2"; "c:3"] None None None None
             (inr "entropy source unavailable") None None in
  snd (Start w toy_siad) = Return (Some "entropy source unavailable") /\
  served (fst (Start w toy_siad)) = false.
Proof.
  intros w.
  destruct (Start_returns_Perm_error w toy_siad tt tt
              "entropy source unavailable" eq_refl eq_refl)
    as (H1 & _ & _ & H4 & _).
  split; assumption.
Defined.

(** ** Every run of [Start] *)

(** [index] fails exactly outside the list. *)
Lemma index_out_of_range (peers : list NetAddress) (i : Z) :
  ~ (0 <= i < Z.of_nat (List.length peers))%Z ->
  index peers i = ([], inl (Panic "index out of range")).
Proof.
  intros H. unfold index.
  destruct (Z.ltb_spec i 0); [reflexivity|].
  destruct (nth_error peers (Z.to_nat i)) eqn:E; [|reflexivity].
  exfalso. apply H. split; [assumption|].
  assert (Z.to_nat i < List.length peers)%nat
    by (apply nth_error_Some; congruence).
  lia.
Qed.

(** The loop over the indices: it spawns one dial per index up to the first
    index that lies outside the list, where the index expression panics. *)
Lemma dial_all_cases (peers : list NetAddress) (idx : list Z) :
  (Forall (fun i => (0 <= i < Z.of_nat (List.length peers))%Z) idx /\
   dial_all peers idx =
     (map (fun i => Go_Connect (nth (Z.to_nat i) peers "")) idx, inr tt)) \/
  (exists k i,
     nth_error idx k = Some i /\
     ~ (0 <= i < Z.of_nat (List.length peers))%Z /\
     Forall (fun i => (0 <= i < Z.of_nat (List.length peers))%Z)
            (firstn k idx) /\
     dial_all peers idx =
       (map (fun i => Go_Connect (nth (Z.to_nat i) peers "")) (firstn k idx),
        inl (Panic "index out of range"))).
Proof.
  induction idx as [|i idx IH].
  - left. split; [constructor|reflexivity].
  - destruct (Z_lt_dec i 0) as [Hneg|Hpos];
      [|destruct (Z_lt_dec i (Z.of_nat (List.length peers))) as [Hlt|Hge]].
    + right. exists 0%nat, i. split; [reflexivity|].
      split; [lia|]. split; [constructor|].
      cbn [dial_all]. rewrite index_out_of_range by lia. reflexivity.
    + assert (Hi : (0 <= i < Z.of_nat (List.length peers))%Z) by lia.
      assert (E : index peers i = ([], inr (nth (Z.to_nat i) peers ""))).
      { unfold index. destruct (Z.ltb_spec i 0); [lia|].
        destruct (nth_error peers (Z.to_nat i)) eqn:E.
        - rewrite (nth_error_nth _ _ _ E). reflexivity.
        - apply nth_error_None in E. lia. }
      destruct IH as [(HF & HE)|(k & j & Hk & Hj & HF & HE)].
      * left. split; [constructor; assumption|].
        cbn [dial_all]. rewrite E, HE. reflexivity.
      * right. exists (S k), j. split; [exact Hk|]. split; [exact Hj|].
        split; [cbn [firstn]; constructor; assumption|].
        cbn [dial_all]. rewrite E, HE. reflexivity.
    + right. exists 0%nat, i. split; [reflexivity|].
      split; [lia|]. split; [constructor|].
      cbn [dial_all]. rewrite index_out_of_range by lia. reflexivity.
Qed.

Lemma served_app l1 l2 : served (l1 ++ l2) = served l1 || served l2.
Proof. apply existsb_app. Qed.

Lemma dialed_app l1 l2 : dialed (l1 ++ l2) = dialed l1 ++ dialed l2.
Proof. apply filter_map_app. Qed.

Lemma constructed_app l1 l2 :
  constructed (l1 ++ l2) = constructed l1 ++ constructed l2.
Proof. apply filter_map_app. Qed.

Lemma served_map_Go (f : Z -> NetAddress) idx :
  served (map (fun i => Go_Connect (f i)) idx) = false.
Proof. induction idx; simpl; auto. Qed.

Lemma constructed_map_Go (f : Z -> NetAddress) idx :
  constructed (map (fun i => Go_Connect (f i)) idx) = [].
Proof. induction idx; simpl; auto. Qed.

(** [Start] when one of the four constructors fails. *)
Lemma Start_not_built (w : World) (s : Siad) :
  built w s = None ->
  dialed (fst (Start w s)) = [] /\
  served (fst (Start w s)) = false /\
  exists e, snd (Start w s) = Return (Some e).
Proof.
  unfold built, Start, Start_body.
  destruct (gateway_New w _ _) as [g|e1];
    cbn [check bind emit ret exit app fst snd].
  2:{ intros _. split; [reflexivity|]. split; [reflexivity|]. eexists; reflexivity. }
  destruct (consensus_New w _ _) as [cs|e2];
    cbn [check bind emit ret exit app fst snd].
  2:{ intros _. split; [reflexivity|]. split; [reflexivity|]. eexists; reflexivity. }
  destruct (transactionpool_New w _ _ _) as [tp|e3];
    cbn [check bind emit ret exit app fst snd].
  2:{ intros _. split; [reflexivity|]. split; [reflexivity|]. eexists; reflexivity. }
  destruct (api_NewServer w _ _ _ _ _ _) as [srv|e4];
    cbn [check bind emit ret exit app fst snd].
  2:{ intros _. split; [reflexivity|]. split; [reflexivity|]. eexists; reflexivity. }
  discriminate.
Qed.

(** The ways a run of [Start] can go once the four constructors have
    succeeded: [crypto.Perm] fails; the slice expression panics; an index
    expression panics after [k] dials; or three dials are spawned and
    [Serve] is called. *)
Lemma Start_cases (w : World) (s : Siad) g srv :
  built w s = Some (g, srv) ->
  (exists e,
     crypto_Perm w (Z.of_nat (List.length (BootstrapPeers w))) = inr e /\
     Start w s = (prologue w s, Return (Some e))) \/
  (exists perm,
     crypto_Perm w (Z.of_nat (List.length (BootstrapPeers w))) = inl perm /\
     (List.length perm < 3)%nat /\
     Start w s = (prologue w s, Panic "slice bounds out of range")) \/
  (exists perm k i,
     crypto_Perm w (Z.of_nat (List.length (BootstrapPeers w))) = inl perm /\
     (3 <= List.length perm)%nat /\ (k < 3)%nat /\
     nth_error perm k = Some i /\
     ~ (0 <= i < Z.of_nat (List.length (BootstrapPeers w)))%Z /\
     Forall (fun i => (0 <= i < Z.of_nat (List.length (BootstrapPeers w)))%Z)
            (firstn k perm) /\
     Start w s =
       (prologue w s ++
        map (fun i => Go_Connect (nth (Z.to_nat i) (BootstrapPeers w) ""))
            (firstn k perm),
        Panic "index out of range")) \/
  (exists perm,
     crypto_Perm w (Z.of_nat (List.length (BootstrapPeers w))) = inl perm /\
     (3 <= List.length perm)%nat /\
     Forall (fun i => (0 <= i < Z.of_nat (List.length (BootstrapPeers w)))%Z)
            (firstn 3 perm) /\
     Start w s =
       (prologue w s ++
        map (fun i => Go_Connect (nth (Z.to_nat i) (BootstrapPeers w) ""))
            (firstn 3 perm) ++ [Call_Serve],
        Return (Serve w srv))).
Proof.
  intros Hb. rewrite (Start_built w s g srv Hb).
  destruct (crypto_Perm w _) as [perm|e].
  2:{ left. exists e. split; reflexivity. }
  right.
  destruct (Nat.leb_spec 3 (List.length perm)) as [Hlen|Hlen].
  2:{ left. exists perm. split; [reflexivity|]. split; [exact Hlen|reflexivity]. }
  right.
  destruct (dial_all_cases (BootstrapPeers w) (firstn 3 perm))
    as [(HF & HE)|(k & i & Hk & Hi & HF & HE)]; rewrite HE.
  - right. exists perm. split; [reflexivity|]. split; [exact Hlen|].
    split; [exact HF|reflexivity].
  - left.
    assert (Hk3 : (k < 3)%nat).
    { assert (k < List.length (firstn 3 perm))%nat
        by (apply nth_error_Some; congruence).
      rewrite length_firstn in H. lia. }
    assert (Hf : firstn k (firstn 3 perm) = firstn k perm).
    { rewrite firstn_firstn. f_equal. lia. }
    exists perm, k, i. split; [reflexivity|]. split; [exact Hlen|].
    split; [exact Hk3|].
    split.
    { rewrite nth_error_firstn in Hk.
      destruct (Nat.ltb_spec k 3); [exact Hk|lia]. }
    split; [exact Hi|]. rewrite <- Hf. split; [exact HF|reflexivity].
Qed.

Lemma built_constructed (w : World) (s : Siad) g srv :
  built w s = Some (g, srv) ->
  constructed (prologue w s) = [Network; ChainState; TxPool; Serving] /\
  dialed (prologue w s) = [] /\ served (prologue w s) = false.
Proof. intros _. split; [reflexivity|]. split; reflexivity. Qed.

Lemma dialed_Go_nth (peers : list NetAddress) (idx : list Z) :
  dialed (map (fun i => Go_Connect (nth (Z.to_nat i) peers "")) idx)
  = map (fun i => nth (Z.to_nat i) peers "") idx.
Proof. apply (dialed_map_Go (fun i => nth (Z.to_nat i) peers "")). Qed.

Lemma nth_in_range (peers : list NetAddress) (idx : list Z) :
  Forall (fun i => (0 <= i < Z.of_nat (List.length peers))%Z) idx ->
  Forall (fun a => In a peers) (map (fun i => nth (Z.to_nat i) peers "") idx).
Proof.
  induction 1 as [|i idx Hi _ IH]; simpl; constructor; [|exact IH].
  apply nth_In. lia.
Qed.

(** X10.  Whatever the collaborators return, a run of [Start] spawns at
    most three dials, and every address it dials is an entry of
    [modules.BootstrapPeers]. *)
Theorem Start_dials_bootstrap_peers_only (w : World) (s : Siad) :
  (List.length (dialed (fst (Start w s))) <= 3)%nat /\
  Forall (fun a => In a (BootstrapPeers w)) (dialed (fst (Start w s))).
Proof.
  destruct (built w s) as [[g srv]|] eqn:Hb.
  2:{ destruct (Start_not_built w s Hb) as (-> & _). split; [simpl; lia|constructor]. }
  destruct (Start_cases w s g srv Hb)
    as [(e & _ & ->)|[(perm & _ & _ & ->)|
        [(perm & k & i & _ & _ & Hk & _ & _ & HF & ->)|
         (perm & _ & _ & HF & ->)]]]; cbn [fst].
  - split; [simpl; lia|constructor].
  - split; [simpl; lia|constructor].
  - rewrite dialed_app, dialed_Go_nth. cbn [dialed prologue filter_map app].
    split; [rewrite length_map, length_firstn; lia|apply nth_in_range; exact HF].
  - rewrite !dialed_app, dialed_Go_nth.
    cbn [dialed prologue filter_map app]. rewrite app_nil_r.
    split; [rewrite length_map, length_firstn; lia|apply nth_in_range; exact HF].
Qed.

(** X11.  [Serve] is called only at the very end of a run in which the four
    constructors and [crypto.Perm] have succeeded and exactly three dials
    have been spawned; [Start] then returns what [Serve] returns. *)
Theorem Start_serves_last (w : World) (s : Siad) :
  served (fst (Start w s)) = true ->
  exists g srv l,
    built w s = Some (g, srv) /\
    fst (Start w s) = l ++ [Call_Serve] /\
    served l = false /\
    constructed l = [Network; ChainState; TxPool; Serving] /\
    List.length (dialed l) = 3%nat /\
    snd (Start w s) = Return (Serve w srv).
Proof.
  destruct (built w s) as [[g srv]|] eqn:Hb.
  2:{ destruct (Start_not_built w s Hb) as (_ & -> & _). discriminate. }
  destruct (Start_cases w s g srv Hb)
    as [(e & _ & ->)|[(perm & _ & _ & ->)|
        [(perm & k & i & _ & _ & Hk & _ & _ & HF & ->)|
         (perm & _ & Hlen & HF & ->)]]]; cbn [fst snd].
  - discriminate.
  - discriminate.
  - rewrite served_app, served_map_Go. discriminate.
  - intros _. exists g, srv.
    exists (prologue w s ++
            map (fun i => Go_Connect (nth (Z.to_nat i) (BootstrapPeers w) ""))
                (firstn 3 perm)).
    split; [reflexivity|]. split; [rewrite app_assoc; reflexivity|].
    split; [rewrite served_app, served_map_Go; reflexivity|].
    split; [rewrite constructed_app, constructed_map_Go; reflexivity|].
    split; [|reflexivity].
    rewrite dialed_app, dialed_Go_nth. cbn [dialed prologue filter_map app].
    rewrite length_map, length_firstn. lia.
Qed.

Lemma Start_serves_last_witness :
  let w := toy_world ["a:1"; "b:2"; "c:3"; "d:4"] None None None None
             (inl [2; 0; 3; 1]%Z) None (Some "listener closed") in
  served (fst (Start w toy_siad)) = true /\
  exists g srv l,
    built w toy_siad = Some (g, srv) /\
    fst (Start w toy_siad) = l ++ [Call_Serve] /\
    served l = false /\
    constructed l = [Network; ChainState; TxPool; Serving] /\
    List.length (dialed l) = 3%nat /\
    snd (Start w toy_siad) = Return (Serve w srv).
Proof.
  intros w.
  split; [reflexivity | apply (Start_serves_last w toy_siad); reflexivity].
Defined.

(** X12.  [Start] returns [nil] exactly when the four constructors and
    [crypto.Perm] succeed, the permutation has at least three entries, its
    first three lie inside the bootstrap list, and [Serve] returns [nil]. *)
Theorem Start_returns_nil_iff (w : World) (s : Siad) :
  snd (Start w s) = Return None <->
  exists g srv perm,
    built w s = Some (g, srv) /\
    crypto_Perm w (Z.of_nat (List.length (BootstrapPeers w))) = inl perm /\
    (3 <= List.length perm)%nat /\
    Forall (fun i => (0 <= i < Z.of_nat (List.length (BootstrapPeers w)))%Z)
           (firstn 3 perm) /\
    Serve w srv = None.
Proof.
  split.
  - destruct (built w s) as [[g srv]|] eqn:Hb.
    2:{ destruct (Start_not_built w s Hb) as (_ & _ & e & ->). discriminate. }
    destruct (Start_cases w s g srv Hb)
      as [(e & _ & ->)|[(perm & _ & _ & ->)|
          [(perm & k & i & _ & _ & Hk & _ & _ & HF & ->)|
           (perm & Hp & Hlen & HF & ->)]]]; cbn [fst snd];
      try discriminate.
    intros [= E]. exists g, srv, perm. split; [reflexivity|].
    split; [exact Hp|]. split; [exact Hlen|]. split; [exact HF|exact E].
  - intros (g & srv & perm & Hb & Hp & Hlen & HF & HS).
    rewrite (Start_built w s g srv Hb), Hp.
    replace (3 <=? List.length perm)%nat with true
      by (symmetry; apply Nat.leb_le; lia).
    rewrite (dial_all_in_range _ _ HF). cbn [snd]. rewrite HS. reflexivity.
Qed.

(** ** Panics *)

(** Without a panicking callee, [StartP] is [Start]. *)
Lemma StartP_no_panics (w : World) (s : Siad) :
  StartP w (no_panics w) s = Start w s.
Proof. reflexivity. Qed.

(** [StartP] when the construction of the modules does not go through. *)
Lemma StartP_not_built (w : World) (p : Panics w) (s : Siad) :
  match construct w p s with
  | Built _ _ => True
  | Failed k e =>
      snd (StartP w p s) = Return (Some e) /\
      constructed (fst (StartP w p s)) = stages_through k /\
      dialed (fst (StartP w p s)) = [] /\
      served (fst (StartP w p s)) = false
  | Panicked k msg =>
      snd (StartP w p s) = Panic msg /\
      constructed (fst (StartP w p s)) = stages_through k /\
      dialed (fst (StartP w p s)) = [] /\
      served (fst (StartP w p s)) = false
  end.
Proof.
  unfold construct, StartP, StartP_body, call.
  destruct (gateway_New_panics p _ _) as [m|];
    cbn [check bind emit ret exit app fst snd]; [repeat split|].
  destruct (gateway_New w _ _) as [g|e1];
    cbn [check bind emit ret exit app fst snd]; [|repeat split].
  destruct (consensus_New_panics p _ _) as [m|];
    cbn [check bind emit ret exit app fst snd]; [repeat split|].
  destruct (consensus_New w _ _) as [cs|e2];
    cbn [check bind emit ret exit app fst snd]; [|repeat split].
  destruct (transactionpool_New_panics p _ _ _) as [m|];
    cbn [check bind emit ret exit app fst snd]; [repeat split|].
  destruct (transactionpool_New w _ _ _) as [tp|e3];
    cbn [check bind emit ret exit app fst snd]; [|repeat split].
  destruct (api_NewServer_panics p _ _ _ _ _ _) as [m|];
    cbn [check bind emit ret exit app fst snd]; [repeat split|].
  destruct (api_NewServer w _ _ _ _ _ _) as [srv|e4];
    cbn [check bind emit ret exit app fst snd]; [exact I|repeat split].
Qed.

(** [StartP] after the four constructors have succeeded. *)
Lemma StartP_built (w : World) (p : Panics w) (s : Siad) g srv :
  construct w p s = Built g srv ->
  StartP w p s =
    match crypto_Perm_panics p (Z.of_nat (List.length (BootstrapPeers w))) with
    | Some msg => (prologue w s, Panic msg)
    | None =>
    match crypto_Perm w (Z.of_nat (List.length (BootstrapPeers w))) with
    | inr e => (prologue w s, Return (Some e))
    | inl perm =>
        if (3 <=? List.length perm)%nat then
          match dial_all (BootstrapPeers w) (firstn 3 perm) with
          | (l, inl o) => (prologue w s ++ l, o)
          | (l, inr _) =>
              (prologue w s ++ l ++ [Call_Serve],
               match Serve_panics p srv with
               | Some msg => Panic msg
               | None => Return (Serve w srv)
               end)
          end
        else (prologue w s, Panic "slice bounds out of range")
    end
    end.
Proof.
  unfold construct. intros H.
  unfold StartP, StartP_body, prologue, call.
  destruct (gateway_New_panics p _ _) as [m|]; [discriminate|].
  destruct (gateway_New w _ _) as [g0|]; [|discriminate].
  cbn [check bind emit ret exit app fst snd].
  destruct (consensus_New_panics p _ _) as [m|]; [discriminate|].
  destruct (consensus_New w _ _) as [cs|]; [|discriminate].
  cbn [check bind emit ret exit app fst snd].
  destruct (transactionpool_New_panics p _ _ _) as [m|]; [discriminate|].
  destruct (transactionpool_New w _ _ _) as [tp|]; [|discriminate].
  cbn [check bind emit ret exit app fst snd].
  destruct (api_NewServer_panics p _ _ _ _ _ _) as [m|]; [discriminate|].
  destruct (api_NewServer w _ _ _ _ _ _) as [srv0|]; [|discriminate].
  injection H as -> ->.
  cbn [check bind emit ret exit app fst snd].
  destruct (crypto_Perm_panics p _) as [m|]; [reflexivity|].
  destruct (crypto_Perm w _) as [perm|e]; [|reflexivity].
  cbn [check bind emit ret exit app fst snd]. unfold slice_to.
  destruct (3 <=? List.length perm)%nat; [|reflexivity].
  cbn [check bind emit ret exit app fst snd].
  destruct (dial_all _ _) as [l [o|[]]];
    cbn [check bind emit ret exit app fst snd]; [reflexivity|].
  destruct (Serve_panics p srv); reflexivity.
Qed.

(** X13.  [Start] has no [recover], and its own statements can panic in the
    bootstrap step only.  Whenever a run of [Start] panics, with callees
    that may panic themselves, the panic is one of these:
    - the panic of a constructor, which ends [Start] at that stage, with the
      stages up to it called, nothing dialed and [Serve] not called;
    - after the four modules are constructed: the panic of [crypto.Perm];
      or that of the slice expression [perm[:3]], when the permutation has
      fewer than three entries; or that of the index expression, for the
      first of the three entries that lies outside the bootstrap list, with
      the dials before it already spawned; or the panic of [Serve], after
      the three dials. *)
Theorem Start_panic_sites (w : World) (p : Panics w) (s : Siad) msg :
  snd (StartP w p s) = Panic msg ->
  (exists k,
     construct w p s = Panicked k msg /\
     constructed (fst (StartP w p s)) = stages_through k /\
     dialed (fst (StartP w p s)) = [] /\
     served (fst (StartP w p s)) = false) \/
  (exists g srv,
     construct w p s = Built g srv /\
     constructed (fst (StartP w p s)) = [Network; ChainState; TxPool; Serving] /\
     ((crypto_Perm_panics p (Z.of_nat (List.length (BootstrapPeers w)))
         = Some msg /\
       dialed (fst (StartP w p s)) = [] /\
       served (fst (StartP w p s)) = false) \/
      (crypto_Perm_panics p (Z.of_nat (List.length (BootstrapPeers w))) = None /\
       exists perm,
         crypto_Perm w (Z.of_nat (List.length (BootstrapPeers w))) = inl perm /\
         ((msg = "slice bounds out of range" /\ (List.length perm < 3)%nat /\
           dialed (fst (StartP w p s)) = [] /\
           served (fst (StartP w p s)) = false) \/
          (msg = "index out of range" /\ (3 <= List.length perm)%nat /\
           served (fst (StartP w p s)) = false /\
           exists k i,
             (k < 3)%nat /\ nth_error perm k = Some i /\
             ~ (0 <= i < Z.of_nat (List.length (BootstrapPeers w)))%Z /\
             dialed (fst (StartP w p s)) =
               map (fun i => nth (Z.to_nat i) (BootstrapPeers w) "")
                   (firstn k perm)) \/
          (Serve_panics p srv = Some msg /\ (3 <= List.length perm)%nat /\
           Forall (fun i =>
                     (0 <= i < Z.of_nat (List.length (BootstrapPeers w)))%Z)
                  (firstn 3 perm) /\
           served (fst (StartP w p s)) = true /\
           dialed (fst (StartP w p s)) =
             map (fun i => nth (Z.to_nat i) (BootstrapPeers w) "")
                 (firstn 3 perm)))))).
Proof.
  pose proof (StartP_not_built w p s) as Hn.
  destruct (construct w p s) as [g srv|k e|k m] eqn:Hc.
  - clear Hn. rewrite (StartP_built w p s g srv Hc).
    intros H. right. exists g, srv. split; [reflexivity|].
    destruct (crypto_Perm_panics p _) as [m|] eqn:Hpp.
    { cbn [fst snd] in *. injection H as ->.
      split; [reflexivity|]. left. repeat split. }
    destruct (crypto_Perm w _) as [perm|e] eqn:Hp; [|discriminate H].
    destruct (Nat.leb_spec 3 (List.length perm)) as [Hlen|Hlen].
    2:{ cbn [fst snd] in *. injection H as <-.
        split; [reflexivity|]. right. split; [reflexivity|].
        exists perm. split; [reflexivity|]. left.
        split; [reflexivity|]. split; [exact Hlen|]. split; reflexivity. }
    destruct (dial_all_cases (BootstrapPeers w) (firstn 3 perm))
      as [(HF & HE)|(k & i & Hk & Hi & HF & HE)]; rewrite HE in *;
      cbn [fst snd] in *.
    + destruct (Serve_panics p srv) as [m|] eqn:Hs; [|discriminate H].
      injection H as ->.
      split; [rewrite !constructed_app, constructed_map_Go; reflexivity|].
      right. split; [reflexivity|]. exists perm. split; [reflexivity|].
      right; right. split; [reflexivity|]. split; [exact Hlen|].
      split; [exact HF|].
      split; [rewrite !served_app; cbn; rewrite orb_true_r; reflexivity|].
      rewrite !dialed_app, dialed_Go_nth. cbn. rewrite app_nil_r. reflexivity.
    + injection H as <-.
      assert (Hk3 : (k < 3)%nat).
      { assert (K : (k < List.length (firstn 3 perm))%nat)
          by (apply nth_error_Some; congruence).
        rewrite length_firstn in K. lia. }
      assert (Hf : firstn k (firstn 3 perm) = firstn k perm).
      { rewrite firstn_firstn. f_equal. lia. }
      split; [rewrite constructed_app, constructed_map_Go; reflexivity|].
      right. split; [reflexivity|]. exists perm. split; [reflexivity|].
      right; left. split; [reflexivity|]. split; [exact Hlen|].
      split; [rewrite served_app, served_map_Go; reflexivity|].
      exists k, i. split; [exact Hk3|].
      split.
      { rewrite nth_error_firstn in Hk.
        destruct (Nat.ltb_spec k 3); [exact Hk|lia]. }
      split; [exact Hi|].
      rewrite dialed_app, dialed_Go_nth, Hf. reflexivity.
  - destruct Hn as (-> & _). discriminate.
  - destruct Hn as (-> & H2 & H3 & H4). intros [= ->].
    left. exists k. split; [reflexivity|]. split; [exact H2|].
    split; [exact H3|exact H4].
Qed.

Lemma Start_panic_sites_witness :
  let w := toy_world ["a:1"; "b:2"; "c:3"] None None None None
             (inl [2; 0; 1]%Z) None None in
  let p := toy_panics w (Some "no block at height") None None in
  snd (StartP w p toy_siad) = Panic "no block at height" /\
  constructed (fst (StartP w p toy_siad)) = [Network; ChainState] /\
  served (fst (StartP w p toy_siad)) = false.
Proof.
  intros w p.
  split; [reflexivity|].
  destruct (Start_panic_sites w p toy_siad "no block at height" eq_refl)
    as [(k & Hk & Hc & _ & Hs)|(g & srv & Hb & _)].
  - injection Hk as <-. split; [exact Hc|exact Hs].
  - discriminate Hb.
Defined.

(** A run of [Start] that returns [nil] has called [Serve]. *)
Lemma Start_nil_served (w : World) (s : Siad) :
  snd (Start w s) = Return None -> served (fst (Start w s)) = true.
Proof.
  destruct (built w s) as [[g srv]|] eqn:Hb.
  2:{ destruct (Start_not_built w s Hb) as (_ & _ & e & ->). discriminate. }
  destruct (Start_cases w s g srv Hb)
    as [(e & _ & ->)|[(perm & _ & _ & ->)|
        [(perm & k & i & _ & _ & _ & _ & _ & _ & ->)|
         (perm & _ & _ & _ & ->)]]]; cbn [fst snd]; try discriminate.
  intros _. rewrite !served_app. cbn. rewrite orb_true_r. reflexivity.
Qed.

(** Every run of [Start] begins by announcing the gateway. *)
Lemma Start_log_head (w : World) (s : Siad) :
  exists l, fst (Start w s) = Printf ("Loading gateway..." ++ nl)%string :: l.
Proof.
  unfold Start, Start_body.
  destruct (gateway_New w _ _) as [g|e1];
    cbn [check bind emit ret exit app fst snd].
  2:{ eexists; reflexivity. }
  match goal with |- context [bind ?m ?k] => destruct (bind m k) as [l [o|o]] end;
    eexists; reflexivity.
Qed.

End StartProps.

(* ================================================================== *)
(** * Properties of the integrity-gated load                           *)
(* ================================================================== *)

Module LoadDBProps.
Import Consensus.



(** When a genesis identity is stored, [build.DEBUG] plays no part. *)
Lemma loadDB_checks_genesis (E : Env) (cs : ConsensusSet (BlockID E)) db g :
  openDB E cs (filepath_Join E (persistDir cs) (DatabaseFilename E)) = None ->
  dbInitialized E db = true -> inconsistencyDetected E db = false ->
  getPath E db 0 = (g, None) ->
  loadDB E cs db =
    if BlockID_eqb E g (blockRoot_Block_ID cs) then (db, Return None)
    else (db, Return (Some "Blockchain has wrong genesis block, exiting.")).
Proof.
  unfold loadDB, Update, loadDB_tx. intros -> -> -> ->. simpl.
  destruct (BlockID_eqb E g (blockRoot_Block_ID cs));
    destruct (build_DEBUG E); reflexivity.
Qed.





(** In a debug build, a store marked initialized that holds no block at
    height 0 makes [loadDB] panic. *)
Example loadDB_debug_panics :
  loadDB (toy_env true) (toy_cs [7; 7]%Z) (mkStore true false None)
  = (mkStore true false None, Panic "no block at height").
Proof. reflexivity. Qed.

(** ** What [loadDB] leaves behind *)

(** The store after [loadDB]: as found, or as a successful [initDB] on an
    uninitialized store wrote it. *)
Lemma loadDB_store_cases
    (E : Env) (cs : ConsensusSet (BlockID E)) (db : Tx E) :
  fst (loadDB E cs db) = db \/
  (openDB E cs (filepath_Join E (persistDir cs) (DatabaseFilename E)) = None /\
   dbInitialized E db = false /\
   snd (initDB E cs db) = None /\
   loadDB E cs db = (fst (initDB E cs db), Return None)).
Proof.
  unfold loadDB, Update, loadDB_tx.
  destruct (openDB E cs _) as [e|]; [left; reflexivity|].
  destruct (dbInitialized E db); cbn [negb].
  - left. destruct (inconsistencyDetected E db); [reflexivity|].
    destruct (getPath E db 0) as [g [e|]];
      destruct (build_DEBUG E);
      destruct (BlockID_eqb E g (blockRoot_Block_ID cs)); reflexivity.
  - destruct (initDB E cs db) as [db' [e|]]; [left; reflexivity|].
    right. repeat split.
Qed.

(** The one way [loadDB] panics. *)
Lemma loadDB_panic_cases
    (E : Env) (cs : ConsensusSet (BlockID E)) (db : Tx E) (e : error) :
  snd (loadDB E cs db) = Panic e <->
  (build_DEBUG E = true /\
   openDB E cs (filepath_Join E (persistDir cs) (DatabaseFilename E)) = None /\
   dbInitialized E db = true /\
   inconsistencyDetected E db = false /\
   snd (getPath E db 0) = Some e).
Proof.
  unfold loadDB, Update, loadDB_tx.
  destruct (openDB E cs _) as [e0|].
  { split; [discriminate|]. intros (_ & H & _). discriminate. }
  destruct (dbInitialized E db); cbn [negb].
  2:{ destruct (initDB E cs db) as [db' [e1|]]; cbn [snd];
      (split; [discriminate|]); intros (_ & _ & H & _); discriminate. }
  destruct (inconsistencyDetected E db).
  { cbn [snd]. split; [discriminate|]. intros (_ & _ & _ & H & _).
    discriminate. }
  destruct (getPath E db 0) as [g [e1|]]; destruct (build_DEBUG E);
    try (destruct (BlockID_eqb E g (blockRoot_Block_ID cs)));
    cbn [snd];
    try (split; [discriminate|]; intros (H1 & _ & _ & _ & H5);
         discriminate).
  all: split.
  all: try (intros [= ->]; repeat split).
  all: try (intros (_ & _ & _ & _ & [= ->]); reflexivity).
Qed.

(** X14.  [loadDB] changes the store in one case only: the store was not
    initialized, the file could be opened and [initDB] reported no error;
    the store is then what [initDB] wrote, and [loadDB] returns [nil].  In
    every other run, also when [initDB] fails half way or the closure
    panics, the store is left as it was found; a store that is already
    initialized is never written. *)
Theorem loadDB_changes_only_by_initDB
    (E : Env) (cs : ConsensusSet (BlockID E)) (db : Tx E) :
  (fst (loadDB E cs db) = db \/
   (openDB E cs (filepath_Join E (persistDir cs) (DatabaseFilename E)) = None /\
    dbInitialized E db = false /\
    snd (initDB E cs db) = None /\
    loadDB E cs db = (fst (initDB E cs db), Return None))) /\
  (snd (loadDB E cs db) <> Return None -> fst (loadDB E cs db) = db) /\
  (dbInitialized E db = true -> fst (loadDB E cs db) = db).
Proof.
  pose proof (loadDB_store_cases E cs db) as H.
  split; [exact H|]. split.
  - intros Hn. destruct H as [H|(_ & _ & _ & H)]; [exact H|].
    rewrite H in Hn. contradiction Hn. reflexivity.
  - intros Hi. destruct H as [H|(_ & H & _)]; [exact H|congruence].
Qed.

(** X15.  [loadDB] panics in exactly one situation: a debug build, the file
    opened, the store initialized and not marked inconsistent, and
    [getPath] failing for height 0; the panic carries the error of
    [getPath] and the store is left as it was.  A release build never
    panics here. *)
Theorem loadDB_panics_iff
    (E : Env) (cs : ConsensusSet (BlockID E)) (db : Tx E) (e : error) :
  (snd (loadDB E cs db) = Panic e <->
   (build_DEBUG E = true /\
    openDB E cs (filepath_Join E (persistDir cs) (DatabaseFilename E)) = None /\
    dbInitialized E db = true /\
    inconsistencyDetected E db = false /\
    snd (getPath E db 0) = Some e)) /\
  (build_DEBUG E = false -> snd (loadDB E cs db) <> Panic e) /\
  (snd (loadDB E cs db) = Panic e -> fst (loadDB E cs db) = db).
Proof.
  pose proof (loadDB_panic_cases E cs db e) as H.
  split; [exact H|]. split.
  - intros Hd Hp. apply H in Hp as (Hp & _). congruence.
  - intros Hp. destruct (loadDB_store_cases E cs db) as [K|(_ & _ & _ & K)];
      [exact K|]. rewrite K in Hp. discriminate.
Qed.

(** X16.  In a release build the error of [getPath] is dropped: on an
    initialized, consistent store the result of [loadDB] is decided by the
    identifier [getPath] hands back alone, so a store without a block at
    height 0 is reported as having the wrong genesis block (or accepted,
    should the identifier handed back with the error equal the one of the
    genesis block). *)
Theorem loadDB_release_drops_getPath_error
    (E : Env) (cs : ConsensusSet (BlockID E)) (db : Tx E) :
  build_DEBUG E = false ->
  openDB E cs (filepath_Join E (persistDir cs) (DatabaseFilename E)) = None ->
  dbInitialized E db = true ->
  inconsistencyDetected E db = false ->
  loadDB E cs db =
    (db, Return (if BlockID_eqb E (fst (getPath E db 0)) (blockRoot_Block_ID cs)
                 then None
                 else Some "Blockchain has wrong genesis block, exiting.")).
Proof.
  unfold loadDB, Update, loadDB_tx. intros -> -> -> ->. cbn [negb].
  destruct (getPath E db 0) as [g [e|]]; cbn [fst];
    destruct (BlockID_eqb E g (blockRoot_Block_ID cs)); reflexivity.
Qed.

Lemma loadDB_release_drops_getPath_error_witness :
  let E := toy_env false in
  let db := mkStore true false None in
  snd (getPath E db 0) = Some "no block at height" /\
  loadDB E (toy_cs [7; 7]%Z) db
    = (db, Return (Some "Blockchain has wrong genesis block, exiting.")) /\
  loadDB E (toy_cs []) db = (db, Return None).
Proof.
  intros E db.
  split; [reflexivity|].
  split.
  - exact (loadDB_release_drops_getPath_error E (toy_cs [7; 7]%Z) db
             eq_refl eq_refl eq_refl eq_refl).
  - exact (loadDB_release_drops_getPath_error E (toy_cs []) db
             eq_refl eq_refl eq_refl eq_refl).
Defined.

(** X17.  Loading is stable.  Provided [initDB], when it succeeds, leaves a
    store that is initialized, not marked inconsistent and holds the
    identifier of the genesis block at height 0, a store that [loadDB] has
    accepted is accepted again by the next [loadDB], which leaves it as it
    is: initialization runs at most once. *)
Theorem loadDB_again
    (E : Env) (cs : ConsensusSet (BlockID E)) (db db' : Tx E) :
  (forall d d', dbInitialized E d = false -> initDB E cs d = (d', None) ->
     dbInitialized E d' = true /\ inconsistencyDetected E d' = false /\
     exists g, getPath E d' 0 = (g, None) /\
               BlockID_eqb E g (blockRoot_Block_ID cs) = true) ->
  loadDB E cs db = (db', Return None) ->
  loadDB E cs db' = (db', Return None) /\ dbInitialized E db' = true.
Proof.
  intros Hinit.
  unfold loadDB. destruct (openDB E cs _) as [e|] eqn:Ho; [discriminate|].
  unfold Update, loadDB_tx.
  destruct (dbInitialized E db) eqn:Hi; cbn [negb].
  - destruct (inconsistencyDetected E db) eqn:Hc; [discriminate|].
    destruct (getPath E db 0) as [g err] eqn:Hg.
    destruct (BlockID_eqb E g (blockRoot_Block_ID cs)) eqn:Hb;
      destruct (build_DEBUG E), err as [e|]; cbn [negb]; try discriminate;
      intros [= <-]; rewrite Hi, Hc, Hg; cbn [negb]; rewrite Hb; cbn [negb];
      split; reflexivity.
  - destruct (initDB E cs db) as [d' [e|]] eqn:Hd; [discriminate|].
    intros [= <-].
    destruct (Hinit db d' Hi Hd) as (Hi' & Hc' & g & Hg & Hb).
    rewrite Hi', Hc', Hg. cbn [negb]. rewrite Hb. cbn [negb].
    split; [|reflexivity].
    destruct (build_DEBUG E); reflexivity.
Qed.

Lemma loadDB_again_witness :
  let E := toy_env true in
  let cs := toy_cs [7; 7]%Z in
  let db' := mkStore true false (Some [7; 7]%Z) in
  loadDB E cs (mkStore false false None) = (db', Return None) /\
  loadDB E cs db' = (db', Return None) /\ dbInitialized E db' = true.
Proof.
  intros E cs db'.
  split; [reflexivity|].
  apply (loadDB_again E cs (mkStore false false None) db'); [|reflexivity].
  intros d d' _ [= <-].
  split; [reflexivity|]. split; [reflexivity|].
  exists [7; 7]%Z. split; reflexivity.
Defined.

(** ** [initPersist] *)

(** X18.  [initPersist] returns [nil] exactly when the directory could be
    created, the logger could be opened and [loadDB] returned [nil]; the
    three steps run in this order and the first one that fails decides the
    result: [loadDB] plays no part unless the two before it succeeded. *)
Theorem initPersist_nil_iff
    (E : Env) (P : PersistEnv) (cs : ConsensusSet (BlockID E))
    (st : Persist E P) :
  (snd (initPersist E P cs st) = Return None <->
   os_MkdirAll P (persistDir cs) 448 = None /\
   snd (persist_NewFileLogger P
          (filepath_Join E (persistDir cs) (logFile E))) = None /\
   snd (loadDB E cs (cs_db st)) = Return None) /\
  (forall e, os_MkdirAll P (persistDir cs) 448 = Some e ->
     initPersist E P cs st = (st, Return (Some e))) /\
  (forall e, os_MkdirAll P (persistDir cs) 448 = None ->
     snd (persist_NewFileLogger P
            (filepath_Join E (persistDir cs) (logFile E))) = Some e ->
     snd (initPersist E P cs st) = Return (Some e) /\
     cs_db (fst (initPersist E P cs st)) = cs_db st).
Proof.
  unfold initPersist.
  destruct (os_MkdirAll P (persistDir cs) 448) as [e0|].
  { split; [|split].
    - cbn [snd]. split; [discriminate|]. intros (H & _). discriminate.
    - intros e [= ->]. reflexivity.
    - discriminate. }
  cbv zeta.
  destruct (persist_NewFileLogger P _) as [l [e1|]]; cbn [fst snd cs_db cs_log].
  { split; [|split].
    - split; [discriminate|]. intros (_ & H & _). discriminate.
    - discriminate.
    - intros e _ [= ->]. split; reflexivity. }
  destruct (loadDB E cs (cs_db st)) as [db' [[e2|]|e2]]; cbn [fst snd].
  all: split; [|split]; try (intros; discriminate).
  - split; [discriminate|]. intros (_ & _ & H). discriminate.
  - split; [intros _; repeat split | reflexivity].
  - split; [discriminate|]. intros (_ & _ & H). discriminate.
Qed.

(** X19.  [initPersist] changes the database only in a run that returns
    [nil] on a store that was not initialized.  The field [cs.log] is
    untouched when the directory cannot be created; otherwise it holds what
    [persist.NewFileLogger] handed back, also when that call or [loadDB]
    failed.  [initPersist] panics only where [loadDB] does, in a debug
    build. *)
Theorem initPersist_writes
    (E : Env) (P : PersistEnv) (cs : ConsensusSet (BlockID E))
    (st : Persist E P) :
  (cs_db (fst (initPersist E P cs st)) = cs_db st \/
   (snd (initPersist E P cs st) = Return None /\
    dbInitialized E (cs_db st) = false /\
    cs_db (fst (initPersist E P cs st)) = fst (initDB E cs (cs_db st)))) /\
  (match os_MkdirAll P (persistDir cs) 448 with
   | Some _ => cs_log (fst (initPersist E P cs st)) = cs_log st
   | None => cs_log (fst (initPersist E P cs st)) =
             fst (persist_NewFileLogger P
                    (filepath_Join E (persistDir cs) (logFile E)))
   end) /\
  (forall e, snd (initPersist E P cs st) = Panic e ->
     build_DEBUG E = true /\ snd (loadDB E cs (cs_db st)) = Panic e).
Proof.
  pose proof (loadDB_store_cases E cs (cs_db st)) as Hl.
  pose proof (fun e => proj1 (loadDB_panic_cases E cs (cs_db st) e)) as Hp.
  unfold initPersist.
  destruct (os_MkdirAll P (persistDir cs) 448) as [e0|].
  { split; [left; reflexivity|]. split; [reflexivity|]. discriminate. }
  cbv zeta.
  destruct (persist_NewFileLogger P _) as [l [e1|]]; cbn [fst snd cs_db cs_log].
  { split; [left; reflexivity|]. split; [reflexivity|]. discriminate. }
  destruct (loadDB E cs (cs_db st)) as [db' [[e2|]|e2]] eqn:EL;
    cbn [fst snd cs_db cs_log] in *.
  - split; [|split; [reflexivity|discriminate]].
    destruct Hl as [->|(_ & _ & _ & [= _])]. left; reflexivity.
  - split; [|split; [reflexivity|discriminate]].
    destruct Hl as [->|(_ & Hi & _ & [= ->])]; [left; reflexivity|].
    right. repeat split. exact Hi.
  - split; [|split; [reflexivity|]].
    + destruct Hl as [->|(_ & _ & _ & [= _])]. left; reflexivity.
    + intros e [= <-]. destruct (Hp e2 eq_refl) as (Hd & _).
      split; [exact Hd|reflexivity].
Qed.

End LoadDBProps.

(* ================================================================== *)
(** * Properties of the gateway constants                              *)
(* ================================================================== *)

Module GatewayProps.
Import Gateway.
Local Open Scope Z_scope.

(** The three releases the switch knows, and the default branch. *)
Lemma Release_cases (r : string) :
  r = "dev" \/ r = "standard" \/ r = "testing" \/
  (String.eqb r "dev" = false /\ String.eqb r "standard" = false /\
   String.eqb r "testing" = false).
Proof.
  destruct (String.eqb_spec r "dev"); [tauto|].
  destruct (String.eqb_spec r "standard"); [tauto|].
  destruct (String.eqb_spec r "testing"); [tauto|].
  right; right; right. repeat split.
Qed.

(** X20.  The variables of the file are initialised for the releases "dev",
    "standard" and "testing" and for no other: with any other value of
    [build.Release] the program panics during initialisation, in the first
    initialiser of the file, so the message always names
    [healthyNodeListLen]. *)
Theorem init_consts_defined_iff (r : string) :
  ((r = "dev" \/ r = "standard" \/ r = "testing") /\
   exists c, init_consts r = Val c) \/
  (r <> "dev" /\ r <> "standard" /\ r <> "testing" /\
   init_consts r = Panic "unrecognized build.Release in healthyNodeListLen").
Proof.
  destruct (Release_cases r) as [->|[->|[->|(H1 & H2 & H3)]]].
  - left. split; [tauto|]. eexists. vm_compute. reflexivity.
  - left. split; [tauto|]. eexists. vm_compute. reflexivity.
  - left. split; [tauto|]. eexists. vm_compute. reflexivity.
  - right.
    split; [intros ->; discriminate H1|].
    split; [intros ->; discriminate H2|].
    split; [intros ->; discriminate H3|].
    unfold init_consts, healthyNodeListLen, switch_Release.
    rewrite H1, H2, H3. reflexivity.
Qed.

Lemma init_consts_Val (r : string) (c : Consts) :
  init_consts r = Val c ->
  (r = "dev" /\ init_consts "dev" = Val c) \/
  (r = "standard" /\ init_consts "standard" = Val c) \/
  (r = "testing" /\ init_consts "testing" = Val c).
Proof.
  destruct (Release_cases r) as [->|[->|[->|(H1 & H2 & H3)]]]; try tauto.
  unfold init_consts, healthyNodeListLen, switch_Release.
  rewrite H1, H2, H3. discriminate.
Qed.

(** X21.  In every release for which the file initialises, the thresholds
    are ordered: no more nodes are shared at once than the length at which
    pruning starts, which lies below the length of a healthy node list; the
    number of outbound peers at which the gateway stops dialing lies below
    the number of peers at which it stops accepting; every delay is
    positive, and every value fits the Go type of its variable. *)
Theorem consts_ordered (r : string) (c : Consts) :
  init_consts r = Val c ->
  0 < c_maxSharedNodes c <= c_pruneNodeListLen c /\
  c_pruneNodeListLen c < c_healthyNodeListLen c /\
  0 < c_wellConnectedThreshold c < c_fullyConnectedThreshold c /\
  0 < c_nodeListDelay c <= c_nodePurgeDelay c /\
  0 < c_noNodesDelay c <= c_wellConnectedDelay c /\
  0 < c_acceptInterval c /\ 0 < c_acquiringPeersDelay c /\
  0 < c_dialTimeout c /\
  fits_uint64 (c_maxSharedNodes c) /\
  Forall fits_int64
    [ c_healthyNodeListLen c; c_nodePurgeDelay c; c_nodeListDelay c;
      c_pruneNodeListLen c; c_acceptInterval c; c_acquiringPeersDelay c;
      c_fullyConnectedThreshold c; c_noNodesDelay c; c_wellConnectedDelay c;
      c_wellConnectedThreshold c; c_dialTimeout c ].
Proof.
  intros H.
  destruct (init_consts_Val r c H) as [(_ & E)|[(_ & E)|(_ & E)]];
    vm_compute in E; injection E as <-;
    unfold fits_uint64, fits_int64; cbn;
    repeat (split; try lia);
    repeat (constructor; [lia|]); constructor.
Qed.

Lemma consts_ordered_witness :
  exists c, init_consts "standard" = Val c /\
            c_pruneNodeListLen c < c_healthyNodeListLen c /\
            c_wellConnectedThreshold c < c_fullyConnectedThreshold c.
Proof.
  eexists. split; [vm_compute; reflexivity|].
  destruct (consts_ordered "standard" _ eq_refl) as (_ & H2 & H3 & _).
  split; [exact H2 | exact (proj2 H3)].
Defined.

(** X22.  The comment on [acceptInterval] asks for it to be longer than
    [nodeListDelay].  The values do so in the "standard" release only: they
    are equal in "dev", and in "testing" [acceptInterval] is the
    shorter. *)
Theorem acceptInterval_longer_iff_standard (r : string) (c : Consts) :
  init_consts r = Val c ->
  (c_nodeListDelay c < c_acceptInterval c <-> r = "standard") /\
  (c_nodeListDelay c = c_acceptInterval c <-> r = "dev") /\
  (c_acceptInterval c < c_nodeListDelay c <-> r = "testing").
Proof.
  intros H.
  destruct (init_consts_Val r c H) as [(-> & E)|[(-> & E)|(-> & E)]];
    vm_compute in E; injection E as <-; cbn;
    (split; [|split]); split;
    try reflexivity; try discriminate; try lia.
Qed.

Lemma acceptInterval_longer_iff_standard_witness :
  exists c, init_consts "testing" = Val c /\
            c_acceptInterval c < c_nodeListDelay c.
Proof.
  eexists. split; [vm_compute; reflexivity|].
  apply (acceptInterval_longer_iff_standard "testing" _ eq_refl).
  reflexivity.
Defined.

End GatewayProps.

(* ================================================================== *)
(** * Properties of the action of the command                          *)
(* ================================================================== *)

Module MainProps.
Import Main ListFacts StartProps.

(** The log of the action up to the call of [dc.Start()]. *)
Lemma start_events_In_Start (l : list Siad.event) :
  start_events (map In_Start l) = l.
Proof.
  unfold start_events. induction l as [|e l IH]; simpl;
    [reflexivity | now rewrite IH].
Qed.

Lemma start_events_app l1 l2 :
  start_events (l1 ++ l2) = start_events l1 ++ start_events l2.
Proof. apply filter_map_app. Qed.

Lemma existsb_In_Start (p : event -> bool) (l : list Siad.event) :
  (forall e, p (In_Start e) = false) ->
  existsb p (map In_Start l) = false.
Proof. intros H. induction l as [|e l IH]; simpl; [reflexivity|]. now rewrite H. Qed.

(** The runs of the action, by the results of its collaborators. *)
Lemma Action_cases (w : World) (f : Flags) :
  let dc := Siad.mkSiad (rpcAddr f) (apiAddr f) in
  let pre := [Infoln "Loading..."; Call_net_Listen "tcp" (bindAddress f)] in
  let st := map In_Start (fst (Siad.Start (siad w) dc)) in
  Action w f =
    match net_Listen w "tcp" (bindAddress f) with
    | inr e =>
        (pre ++ [Fatal ["Error listening on"; bindAddress f; e]], Exited 1)
    | inl _ =>
        match snd (Siad.Start (siad w) dc) with
        | Siad.Panic msg => (pre ++ st, Panicked msg)
        | Siad.Return (Some e) =>
            (pre ++ st ++ [Fatal ["Error running embedded siad: "; e]],
             Exited 1)
        | Siad.Return None =>
            match sharechain_New w dc "p2pooldata/sharechain" with
            | inr e =>
                (pre ++ st ++
                 [Infoln "Loading sharechain...";
                  Call_sharechain_New "p2pooldata/sharechain";
                  Fatal ["Error initializing sharechain: "; e]],
                 Exited 1)
            | inl _ =>
                (pre ++ st ++
                 [Infoln "Loading sharechain...";
                  Call_sharechain_New "p2pooldata/sharechain";
                  Route "/fee" "GET" "poolapi.FeeHandler";
                  Route "/version" "GET" "poolapi.VersionHandler";
                  Signal_Notify; Go_signal_handler;
                  Infoln "Listening for miner requests";
                  Call_http_Serve],
                 Returned)
            end
        end
    end.
Proof.
  intros dc pre st. unfold Action, Action_body, call_Start, log_Fatal.
  fold dc.
  destruct (net_Listen w "tcp" (bindAddress f)) as [l|e];
    cbn [bind emit ret exit app fst snd]; [|reflexivity].
  subst st. destruct (Siad.Start (siad w) dc) as [ls [[e|]|msg]];
    cbn [bind emit ret exit app fst snd]; try reflexivity.
  destruct (sharechain_New w dc "p2pooldata/sharechain") as [sc|e];
    cbn [bind emit ret exit app fst snd]; reflexivity.
Qed.

(** X23.  The action starts the embedded siad only with the listener in
    hand: when [net.Listen] fails, [log.Fatal] ends the process before any
    siad module is constructed; when it succeeds, every effect of
    [dc.Start()] takes place, after the call of [net.Listen]. *)
Theorem Action_listens_before_siad (w : World) (f : Flags) :
  let dc := Siad.mkSiad (rpcAddr f) (apiAddr f) in
  (exists l tl,
     fst (Action w f) =
       l ++ [Call_net_Listen "tcp" (bindAddress f)] ++ tl /\
     start_events l = [] /\
     existsb is_Listen l = false /\ existsb is_Listen tl = false) /\
  match net_Listen w "tcp" (bindAddress f) with
  | inr e =>
      start_events (fst (Action w f)) = [] /\
      snd (Action w f) = Exited 1 /\
      In (Fatal ["Error listening on"; bindAddress f; e]) (fst (Action w f))
  | inl _ =>
      start_events (fst (Action w f)) = fst (Siad.Start (siad w) dc) /\
      start_events (fst (Action w f)) <> []
  end.
Proof.
  intros dc. pose proof (Action_cases w f) as H. cbv zeta in H. fold dc in H.
  destruct (Start_log_head (siad w) dc) as (hd & Hhd).
  assert (Hne : fst (Siad.Start (siad w) dc) <> []) by (rewrite Hhd; discriminate).
  assert (HL : existsb is_Listen (map In_Start (fst (Siad.Start (siad w) dc)))
               = false) by (apply existsb_In_Start; reflexivity).
  split.
  - exists [Infoln "Loading..."].
    destruct (net_Listen w "tcp" (bindAddress f)) as [l|e].
    2:{ rewrite H. eexists. split; [reflexivity|]. repeat split. }
    destruct (snd (Siad.Start (siad w) dc)) as [[e|]|msg].
    + rewrite H. eexists. split; [reflexivity|]. split; [reflexivity|].
      split; [reflexivity|]. rewrite existsb_app, HL. reflexivity.
    + destruct (sharechain_New w dc "p2pooldata/sharechain") as [sc|e];
        rewrite H; (eexists; split; [reflexivity|]); (split; [reflexivity|]);
        (split; [reflexivity|]); rewrite existsb_app, HL; reflexivity.
    + rewrite H. eexists. split; [reflexivity|]. split; [reflexivity|].
      split; [reflexivity|]. exact HL.
  - destruct (net_Listen w "tcp" (bindAddress f)) as [l|e].
    2:{ rewrite H. split; [reflexivity|]. split; [reflexivity|].
        cbn. right; right; left; reflexivity. }
    assert (E : start_events (fst (Action w f)) = fst (Siad.Start (siad w) dc)).
    { destruct (snd (Siad.Start (siad w) dc)) as [[e|]|msg];
        [| destruct (sharechain_New w dc "p2pooldata/sharechain") as [sc|e] |];
        rewrite H; cbn [fst]; rewrite !start_events_app, start_events_In_Start;
        cbn; rewrite ?app_nil_r; reflexivity. }
    split; [exact E|]. rewrite E. exact Hne.
Qed.

(** X24.  The sharechain is loaded only after [dc.Start()] has returned
    [nil]: by then the four siad modules are constructed, three bootstrap
    dials are spawned and the [Serve] of the siad API server has returned
    [nil].  It is loaded from "p2pooldata/sharechain", after every effect
    of [dc.Start()]. *)
Theorem Action_loads_sharechain_after_siad (w : World) (f : Flags) :
  existsb is_sharechain_New (fst (Action w f)) = true ->
  let dc := Siad.mkSiad (rpcAddr f) (apiAddr f) in
  snd (Siad.Start (siad w) dc) = Siad.Return None /\
  Siad.served (fst (Siad.Start (siad w) dc)) = true /\
  (exists l, net_Listen w "tcp" (bindAddress f) = inl l) /\
  exists l1 l2,
    fst (Action w f) =
      l1 ++ [Call_sharechain_New "p2pooldata/sharechain"] ++ l2 /\
    start_events l1 = fst (Siad.Start (siad w) dc) /\
    start_events l2 = [] /\
    existsb is_sharechain_New l1 = false /\
    existsb is_sharechain_New l2 = false.
Proof.
  intros Hsc dc. pose proof (Action_cases w f) as H. cbv zeta in H.
  fold dc in H. revert Hsc.
  assert (HL : existsb is_sharechain_New
                 (map In_Start (fst (Siad.Start (siad w) dc))) = false)
    by (apply existsb_In_Start; reflexivity).
  destruct (net_Listen w "tcp" (bindAddress f)) as [l|e].
  2:{ rewrite H. discriminate. }
  destruct (snd (Siad.Start (siad w) dc)) as [[e|]|msg] eqn:ES.
  - rewrite H. cbn [fst app existsb is_sharechain_New orb].
    rewrite existsb_app, HL. discriminate.
  - intros _. split; [reflexivity|].
    split; [apply Start_nil_served; exact ES|].
    split; [exists l; reflexivity|].
    exists ([Infoln "Loading..."; Call_net_Listen "tcp" (bindAddress f)] ++
            map In_Start (fst (Siad.Start (siad w) dc)) ++
            [Infoln "Loading sharechain..."]).
    destruct (sharechain_New w dc "p2pooldata/sharechain") as [sc|e];
      rewrite H; cbn [fst]; eexists;
      (split; [rewrite <- !app_assoc; reflexivity|]);
      (split; [rewrite !start_events_app, start_events_In_Start; cbn;
               rewrite app_nil_r; reflexivity|]);
      (split; [reflexivity|]);
      (split; [|reflexivity]);
      rewrite !existsb_app, HL; reflexivity.
  - rewrite H. cbn [fst app existsb is_sharechain_New orb].
    rewrite HL. discriminate.
Qed.

Lemma Action_loads_sharechain_after_siad_witness :
  let sw := Siad.toy_world ["a:1"; "b:2"; "c:3"; "d:4"] None None None None
              (inl [2; 0; 3; 1]%Z) None None in
  let w := toy_world sw None (Some "no sharechain") in
  snd (Action w default_flags) = Exited 1 /\
  snd (Siad.Start sw Siad.toy_siad) = Siad.Return None /\
  Siad.served (fst (Siad.Start sw Siad.toy_siad)) = true.
Proof.
  intros sw w.
  destruct (Action_loads_sharechain_after_siad w default_flags eq_refl)
    as (H1 & H2 & _).
  split; [reflexivity | split; [exact H1 | exact H2]].
Defined.

(** X25.  The action does not recover from a panic of [dc.Start()]: it
    panics exactly when the listener was created and [Start] panics, with
    the same message, and then nothing is logged as fatal and neither the
    sharechain nor the HTTP server is reached. *)
Theorem Action_panics_iff (w : World) (f : Flags) (msg : string) :
  let dc := Siad.mkSiad (rpcAddr f) (apiAddr f) in
  (snd (Action w f) = Panicked msg <->
   (exists l, net_Listen w "tcp" (bindAddress f) = inl l) /\
   snd (Siad.Start (siad w) dc) = Siad.Panic msg) /\
  (snd (Action w f) = Panicked msg ->
   existsb is_Fatal (fst (Action w f)) = false /\
   existsb is_sharechain_New (fst (Action w f)) = false /\
   existsb is_http_Serve (fst (Action w f)) = false).
Proof.
  intros dc. pose proof (Action_cases w f) as H. cbv zeta in H. fold dc in H.
  destruct (net_Listen w "tcp" (bindAddress f)) as [l|e].
  2:{ rewrite H. cbn [snd]. split; [|discriminate].
      split; [discriminate|]. intros ((l & Hl) & _). discriminate. }
  destruct (snd (Siad.Start (siad w) dc)) as [[e|]|m] eqn:ES.
  - rewrite H. cbn [snd]. split; [|discriminate].
    split; [discriminate|]. intros (_ & E). discriminate.
  - destruct (sharechain_New w dc "p2pooldata/sharechain") as [sc|e];
      rewrite H; cbn [snd]; (split; [|discriminate]);
      (split; [discriminate|]); intros (_ & E); discriminate.
  - rewrite H. cbn [fst snd]. split.
    + split.
      * intros [= ->]. split; [exists l; reflexivity|reflexivity].
      * intros (_ & [= ->]). reflexivity.
    + intros _. cbn [app existsb is_Fatal is_sharechain_New is_http_Serve orb].
      rewrite !existsb_In_Start by reflexivity. repeat split.
Qed.

(** X26.  The action reaches [srv.Serve(l)] exactly when it returns, which
    is exactly when the listener, [dc.Start()] and the sharechain all came
    up without error; in every other run that does not panic, [log.Fatal]
    is the last thing it does and the process exits with status 1.  What
    [srv.Serve(l)] returns plays no part. *)
Theorem Action_serves_iff (w : World) (f : Flags) :
  let dc := Siad.mkSiad (rpcAddr f) (apiAddr f) in
  (snd (Action w f) = Returned <->
   (exists l, net_Listen w "tcp" (bindAddress f) = inl l) /\
   snd (Siad.Start (siad w) dc) = Siad.Return None /\
   (exists sc, sharechain_New w dc "p2pooldata/sharechain" = inl sc)) /\
  (existsb is_http_Serve (fst (Action w f)) = true <->
   snd (Action w f) = Returned) /\
  (existsb is_Fatal (fst (Action w f)) = true <->
   snd (Action w f) = Exited 1) /\
  (forall st, snd (Action w f) = Exited st ->
     st = 1%Z /\
     exists l args, fst (Action w f) = l ++ [Fatal args] /\
                    existsb is_Fatal l = false) /\
  (forall serve,
     Action (mkWorld (siad w) (Listener w) (ShareChain w) (net_Listen w)
               (sharechain_New w) serve) f = Action w f).
Proof.
  intros dc. pose proof (Action_cases w f) as H. cbv zeta in H. fold dc in H.
  assert (HF : existsb is_Fatal (map In_Start (fst (Siad.Start (siad w) dc)))
               = false) by (apply existsb_In_Start; reflexivity).
  assert (HS : existsb is_http_Serve
                 (map In_Start (fst (Siad.Start (siad w) dc))) = false)
    by (apply existsb_In_Start; reflexivity).
  assert (Hlast : forall serve,
     Action (mkWorld (siad w) (Listener w) (ShareChain w) (net_Listen w)
               (sharechain_New w) serve) f = Action w f) by reflexivity.
  destruct (net_Listen w "tcp" (bindAddress f)) as [l|e].
  2:{ rewrite H. cbn [fst snd].
      split; [split; [discriminate|intros ((l & Hl) & _); discriminate]|].
      split; [split; discriminate|].
      split; [split; reflexivity|].
      split; [|intros serve; rewrite (Hlast serve); exact H].
      intros st [= <-]. split; [reflexivity|].
      eexists _, _. split; [reflexivity|reflexivity]. }
  destruct (snd (Siad.Start (siad w) dc)) as [[e|]|m] eqn:ES.
  - rewrite H. cbn [fst snd app existsb is_Fatal is_http_Serve orb].
    rewrite !existsb_app, HF, HS.
    cbn [fst snd app existsb is_Fatal is_http_Serve orb].
    split; [split; [discriminate|intros (_ & E & _); discriminate]|].
    split; [split; discriminate|].
    split; [split; reflexivity|].
    split; [|intros serve; rewrite (Hlast serve); exact H].
    intros st [= <-]. split; [reflexivity|].
    exists ([Infoln "Loading..."; Call_net_Listen "tcp" (bindAddress f)] ++
            map In_Start (fst (Siad.Start (siad w) dc))).
    eexists. split; [rewrite <- app_assoc; reflexivity|].
    rewrite existsb_app, HF. reflexivity.
  - destruct (sharechain_New w dc "p2pooldata/sharechain") as [sc|e];
      rewrite H; cbn [fst snd app existsb is_Fatal is_http_Serve orb];
      rewrite !existsb_app, HF, HS;
      cbn [fst snd app existsb is_Fatal is_http_Serve orb].
    + split; [split; [intros _|reflexivity]|].
      { split; [exists l; reflexivity|]. split; [reflexivity|].
        exists sc; reflexivity. }
      split; [split; reflexivity|].
      split; [split; discriminate|].
      split; [discriminate|intros serve; rewrite (Hlast serve); exact H].
    + split; [split; [discriminate|intros (_ & _ & (sc & E)); discriminate]|].
      split; [split; discriminate|].
      split; [split; reflexivity|].
      split; [|intros serve; rewrite (Hlast serve); exact H].
      intros st [= <-]. split; [reflexivity|].
      exists ([Infoln "Loading..."; Call_net_Listen "tcp" (bindAddress f)] ++
              map In_Start (fst (Siad.Start (siad w) dc)) ++
              [Infoln "Loading sharechain...";
               Call_sharechain_New "p2pooldata/sharechain"]).
      eexists. split; [rewrite <- !app_assoc; reflexivity|].
      rewrite !existsb_app, HF. reflexivity.
  - rewrite H. cbn [fst snd app existsb is_Fatal is_http_Serve orb].
    rewrite HF, HS.
    split; [split; [discriminate|intros (_ & E & _); discriminate]|].
    split; [split; discriminate|].
    split; [split; discriminate|].
    split; [discriminate|intros serve; rewrite (Hlast serve); exact H].
Qed.

End MainProps.

(* ================================================================== *)
(** * Properties of the thread group                                   *)
(* ================================================================== *)

Module ThreadGroupProps.
Import ThreadGroup ListFacts.
Local Open Scope Z_scope.

(** ** Traces and frames *)

Lemma closers_app l1 l2 : closers (l1 ++ l2) = closers l1 ++ closers l2.
Proof. apply filter_map_app. Qed.
Lemma appended_app l1 l2 : appended (l1 ++ l2) = appended l1 ++ appended l2.
Proof. apply filter_map_app. Qed.
Lemma ran_by_Stop_app l1 l2 :
  ran_by_Stop (l1 ++ l2) = ran_by_Stop l1 ++ ran_by_Stop l2.
Proof. apply filter_map_app. Qed.
Lemma Stop_returned_app l1 l2 :
  Stop_returned (l1 ++ l2) = Stop_returned l1 || Stop_returned l2.
Proof. apply existsb_app. Qed.

Lemma upd_same fs t f : upd fs t f t = f.
Proof. unfold upd. now rewrite Nat.eqb_refl. Qed.
Lemma upd_other fs t f u : u <> t -> upd fs t f u = fs u.
Proof. unfold upd. intros H. apply Nat.eqb_neq in H. now rewrite H. Qed.

Lemma saw_open_in_mutex f : saw_open f = true -> in_mutex f = true.
Proof. destruct f as [| | | |[e|]| | | | | | | | | | | | | | | |]; simpl; congruence. Qed.

Lemma stopping_saw_closed f : stopping f = true -> saw_closed f = true.
Proof. destruct f; simpl; congruence. Qed.

Ltac inner_destruct H :=
  repeat match type of H with
         | context [match ?x with _ => _ end] =>
             lazymatch x with
             | context [match _ with _ => _ end] => fail
             | _ => tryif is_var x then fail else destruct x eqn:?
             end; simpl in H
         end.

Lemma closers_cons e l :
  closers (e :: l) =
    match e with Close t => t :: closers l | _ => closers l end.
Proof. destruct e; reflexivity. Qed.
Lemma appended_cons e l :
  appended (e :: l) =
    match e with Appended _ f => f :: appended l | _ => appended l end.
Proof. destruct e; reflexivity. Qed.
Lemma ran_by_Stop_cons e l :
  ran_by_Stop (e :: l) =
    match e with RunStopFn _ f => f :: ran_by_Stop l | _ => ran_by_Stop l end.
Proof. destruct e; reflexivity. Qed.
Lemma Stop_returned_cons e l :
  Stop_returned (e :: l) = is_Stop_nil e || Stop_returned l.
Proof. reflexivity. Qed.

Ltac proj_simpl :=
  cbn [tg frames trace stopChan mu wg stopFns
       set_mu set_wg set_stopChan set_stopFns];
  rewrite ?app_nil_r;
  rewrite ?closers_app, ?appended_app, ?ran_by_Stop_app, ?Stop_returned_app;
  rewrite ?closers_cons, ?appended_cons, ?ran_by_Stop_cons,
    ?Stop_returned_cons;
  change (closers []) with (@nil tid) in *;
  change (appended []) with (@nil fn) in *;
  change (ran_by_Stop []) with (@nil fn) in *;
  change (Stop_returned []) with false in *;
  cbn [is_Stop_nil orb];
  rewrite ?app_nil_r, ?orb_false_r, ?orb_true_r.

Ltac facts I t Ef :=
  pose proof (inv_mutex _ I t) as Mt;
  pose proof (inv_open _ I t) as Ot;
  pose proof (inv_closed _ I t) as Ct;
  pose proof (inv_stopping _ I t) as St;
  pose proof (inv_before _ I) as Bf;
  pose proof (inv_wg _ I) as Wg;
  rewrite Ef in Mt, Ot, Ct, St; cbn [in_mutex saw_open saw_closed stopping] in Mt, Ot, Ct, St.

Ltac other I u :=
  pose proof (inv_mutex _ I u) as Mu;
  pose proof (inv_open _ I u) as Ou;
  pose proof (inv_closed _ I u) as Cu;
  pose proof (inv_stopping _ I u) as Su;
  pose proof (inv_err _ I u) as Eu;
  pose proof (inv_for _ I u) as Fu;
  match type of I with inv ?s =>
  pose proof (saw_open_in_mutex (frames s u)) as SOu;
  pose proof (stopping_saw_closed (frames s u)) as SCu end.

Ltac split_u u t :=
  intros u; 
  destruct (Nat.eq_dec u t) as [->|Hne];
  [rewrite upd_same | rewrite (upd_other _ _ _ _ Hne)].

Lemma inv_crash s msg :
  inv s -> inv (mkState (tg s) (frames s) (trace s) (Some msg)).
Proof. intros []. constructor; assumption. Qed.

Lemma step_inv a s s' : inv s -> step a s = Some s' -> inv s'.
Proof.
  intros I H. unfold step in H.
  destruct (crashed s); [discriminate|].
  destruct a as [t m|t].
  - destruct (frames s t) eqn:Ef; try discriminate. injection H as <-.
    facts I t Ef.
    destruct I as [I1 I2 I3 I4 I5 I6 I7 I8 I9 I10].
    constructor; proj_simpl; auto.
    all: try (split_u u t;
              [destruct m; cbn; try discriminate; intuition congruence
              | first [apply I1|apply I2|apply I3|apply I4|apply I6|apply I7]]).
    intros Hc. destruct (I9 Hc) as (u & A1 & A2). exists u. split; [exact A1|].
      destruct A2 as [(i & A2)|A2]; [left; exists i|right; exact A2].
      rewrite upd_other; [exact A2|congruence].
  - destruct (frames s t) eqn:Ef; simpl in H;
    unfold do_Lock, do_Unlock, IsStopped, StopChan in H;
    inner_destruct H; try discriminate; injection H as <-.
    all: try (apply inv_crash; assumption).
    all: facts I t Ef.
    all: constructor; proj_simpl.
    (* inv_mutex *)
    (* inv_mutex *)
    all: try (split_u u t; [cbn [in_mutex]; intuition congruence | other I u; intuition congruence]).
    all: try (split_u u t; [cbn [saw_open saw_closed]; intuition congruence | other I u; intuition congruence]).
    all: try lia.
    (* inv_returned *)
    all: try (match goal with |- Stop_returned _ = true -> _ => idtac | |- _ || _ = true -> _ => idtac end;
              intros Hr; pose proof (inv_returned _ I) as Rt;
              rewrite ?Z.ltb_ge, ?Z.eqb_eq in *;
              solve [intuition (try congruence; try lia)]).
    (* inv_before *)
    all: try (match goal with |- _ <> ChanClosed -> _ => idtac end;
              intros Hc;
              first [ solve [exfalso; intuition congruence]
                    | assert (Hc' : stopChan (tg s) <> ChanClosed) by congruence;
                      destruct (Bf Hc') as (B1 & B2 & B3 & B4);
                      rewrite ?B1, ?B3, ?B4, <- ?B2; repeat split; reflexivity ]).
    (* inv_after, nothing relevant changes *)
    all: try (match goal with |- _ = ChanClosed -> _ => idtac end;
              intros Hc; first [ congruence |
              destruct (inv_after _ I Hc) as (u & A1 & A2);
              exists u; split; [exact A1|];
              destruct A2 as [(i & A2)|A2];
              [ left; exists i; rewrite upd_other; [exact A2|congruence]
              | right; solve [intuition congruence] ] ]).
    all: pose proof (inv_for _ I t) as Ft.
    all: try (intros u j; unfold upd; destruct (Nat.eqb_spec u t) as [->|Hne];
              [intros [= <-] || discriminate
              | intros Hf; other I u; rewrite Hf in *; cbn in Mu, SCu, Su;
                exfalso; intuition congruence]).
    + (* close: stopping *)
      assert (Hc' : stopChan (tg s) <> ChanClosed) by congruence.
      destruct (Bf Hc') as (B1 & B2 & B3 & B4).
      split_u u t.
      * intros _. rewrite B1. split; [reflexivity|exact B4].
      * intros Hs. other I u. intuition congruence.
    + (* close: the loop starts at the last index *)
      assert (Hc' : stopChan (tg s) <> ChanClosed) by congruence.
      destruct (Bf Hc') as (B1 & B2 & B3 & B4).
      split; [lia|]. split; [exact B2|]. rewrite B3.
      replace (Z.to_nat (Z.of_nat (List.length (stopFns (tg s))) - 1 + 1))
        with (List.length (stopFns (tg s))) by lia.
      rewrite skipn_all. reflexivity.
    + (* close: inv_after *)
      assert (Hc' : stopChan (tg s) <> ChanClosed) by congruence.
      destruct (Bf Hc') as (B1 & B2 & B3 & B4).
      intros _. exists t. rewrite B1. split; [reflexivity|].
      left. eexists. rewrite upd_same. reflexivity.
    + (* loop body *)
      destruct (Ft _ Ef) as (F1 & F2 & F3).
      apply Z.leb_le in Heqb.
      split; [lia|]. split; [exact F2|]. rewrite F3.
      replace (Z.to_nat (i - 1 + 1)) with (Z.to_nat i) by lia.
      replace (Z.to_nat (i + 1)) with (S (Z.to_nat i)) by lia.
      rewrite (skipn_nth_error _ _ _ Heqo). reflexivity.
    + intros _. exists t. split; [apply St; reflexivity|].
      left. eexists. rewrite upd_same. reflexivity.
    + (* loop exit *)
      destruct (Ft _ Ef) as (F1 & F2 & F3).
      apply Z.leb_gt in Heqb.
      intros _. exists t. split; [apply St; reflexivity|].
      right. split; [reflexivity|]. rewrite F3, <- F2.
      replace (Z.to_nat (i + 1)) with 0%nat by lia. reflexivity.
Qed.

Lemma count_app p l1 l2 : count p (l1 ++ l2) = (count p l1 + count p l2)%nat.
Proof. unfold count. now rewrite filter_app, length_app. Qed.

Lemma Stop_returned_count tr :
  Stop_returned tr = false -> count is_Stop_nil tr = 0%nat.
Proof.
  unfold Stop_returned, count. induction tr as [|e tr IH]; simpl; [reflexivity|].
  destruct (is_Stop_nil e); simpl; [discriminate|exact IH].
Qed.

Lemma Stop_returned_In tr :
  Stop_returned tr = true <-> exists t, In (Ret t MStop (VErr None)) tr.
Proof.
  unfold Stop_returned. rewrite existsb_exists. split.
  - intros (e & Hin & He).
    destruct e as [| t [] [| [|] |] | | | | | | | |]; try discriminate.
    exists t. exact Hin.
  - intros (t & Hin). eexists. split; [exact Hin|reflexivity].
Qed.


Lemma count_by_other u t p tr evs :
  Forall (fun e => tid_of e = t) evs -> u <> t ->
  count (by_tid u p) (tr ++ evs) = count (by_tid u p) tr.
Proof.
  intros H Hne. rewrite count_app.
  assert (count (by_tid u p) evs = 0%nat) as ->; [|lia].
  unfold count. induction H as [|e evs He _ IH]; [reflexivity|].
  simpl. unfold by_tid at 1. rewrite He.
  destruct (Nat.eqb_spec t u); [congruence|]. simpl. exact IH.
Qed.

Ltac st_simpl :=
  cbn [tg frames trace stopChan mu wg stopFns
       set_mu set_wg set_stopChan set_stopFns];
  rewrite ?app_nil_r.

Ltac cnt_self :=
  rewrite ?count_app; unfold count, by_tid in *;
  cbn [filter tid_of p_WgAdd p_WgDone p_Add_nil p_Call_Done
       p_Call_OnStop p_Appended p_RunNow is_Stop_nil];
  rewrite ?Nat.eqb_refl;
  cbn [filter tid_of p_WgAdd p_WgDone p_Add_nil p_Call_Done
       p_Call_OnStop p_Appended p_RunNow is_Stop_nil andb List.length
       at_Add_return_nil at_Done registering].

Ltac cnt_other Hne :=
  match type of Hne with ?u <> ?t =>
    repeat rewrite (count_by_other u t) by (try exact Hne; repeat constructor)
  end.

Lemma step_inv2 a s s' : inv s -> inv2 s -> step a s = Some s' -> inv2 s'.
Proof.
  intros I J H. unfold step in H.
  destruct (crashed s); [discriminate|].
  destruct a as [t m|t].
  - destruct (frames s t) eqn:Ef; try discriminate. injection H as <-.
    constructor; st_simpl.
    + pose proof (cnt_wg _ J) as W. cnt_self. unfold count in W. lia.
    + intros u. destruct (Nat.eq_dec u t) as [->|Hne].
      * rewrite upd_same. pose proof (cnt_add _ J t) as A. rewrite Ef in A.
        cnt_self. unfold count in A. cbn [at_Add_return_nil] in A. destruct m; cbn; lia.
      * rewrite (upd_other _ _ _ _ Hne). cnt_other Hne. apply (cnt_add _ J).
    + intros u. destruct (Nat.eq_dec u t) as [->|Hne].
      * rewrite upd_same. pose proof (cnt_done _ J t) as A. rewrite Ef in A.
        cnt_self. unfold count in A. cbn [at_Done] in A. destruct m; cbn; lia.
      * rewrite (upd_other _ _ _ _ Hne). cnt_other Hne. apply (cnt_done _ J).
    + intros u g. destruct (Nat.eq_dec u t) as [->|Hne].
      * rewrite upd_same. pose proof (cnt_onstop _ J t g) as A.
        rewrite Ef in A. cnt_self. unfold count in A. cbn [registering] in A.
        destruct m; cbn; try lia. destruct (Nat.eqb f g); cbn; lia.
      * rewrite (upd_other _ _ _ _ Hne). cnt_other Hne.
        apply (cnt_onstop _ J).
    + intros u Hu. rewrite map_app, in_app_iff.
      destruct (Nat.eq_dec u t) as [->|Hne]; [right; simpl; auto|].
      rewrite (upd_other _ _ _ _ Hne) in Hu. left.
      apply (busy_in_trace _ J); exact Hu.
    + intros u. proj_simpl. intros Hcl.
      destruct (inv_closer _ J u Hcl) as [K|K]; [|now right].
      left. rewrite upd_other; [exact K|]. intros ->. rewrite Ef in K.
      discriminate.
    + intros u. rewrite in_app_iff. intros [Hin|[Hin|[]]]; [|discriminate].
      proj_simpl. apply (inv_winner _ J); exact Hin.
    + pose proof (inv_once _ J) as O1. cnt_self. unfold count in O1. lia.
  - destruct (frames s t) eqn:Ef; simpl in H;
    unfold do_Lock, do_Unlock, IsStopped, StopChan in H;
    inner_destruct H; try discriminate; injection H as <-.
    all: try (destruct J; constructor; assumption).
    all: try match goal with e : option error |- _ => destruct e end.
    all: facts I t Ef.
    all: constructor; st_simpl.
    (* cnt_wg *)
    all: try (pose proof (cnt_wg _ J) as W; cnt_self; unfold count in W; lia).
    (* cnt_add, cnt_done *)
    all: try (intros u; destruct (Nat.eq_dec u t) as [->|Hne];
              [ rewrite upd_same;
                pose proof (cnt_add _ J t) as A; pose proof (cnt_done _ J t) as D;
                rewrite Ef in A, D; cbn [at_Add_return_nil at_Done] in A, D;
                cnt_self; unfold count in A, D; lia
              | rewrite (upd_other _ _ _ _ Hne); cnt_other Hne;
                first [apply (cnt_add _ J) | apply (cnt_done _ J)] ]).
    (* cnt_onstop *)
    all: try (intros u g; destruct (Nat.eq_dec u t) as [->|Hne];
              [ rewrite upd_same;
                pose proof (cnt_onstop _ J t g) as A;
                rewrite Ef in A; cbn [registering] in A;
                cnt_self; unfold count in A;
                repeat match goal with |- context [Nat.eqb ?a ?b] => destruct (Nat.eqb a b) end;
                cbn [List.length filter]; lia
              | rewrite (upd_other _ _ _ _ Hne); cnt_other Hne;
                apply (cnt_onstop _ J) ]).
    (* busy_in_trace *)
    all: try (intros u Hu; rewrite ?map_app, ?in_app_iff;
              destruct (Nat.eq_dec u t) as [->|Hne];
              [ assert (Hb : frames s t <> Idle) by (rewrite Ef; discriminate);
                pose proof (busy_in_trace _ J t Hb); tauto
              | rewrite (upd_other _ _ _ _ Hne) in Hu;
                pose proof (busy_in_trace _ J u Hu); tauto ]).
    (* inv_once *)
    all: try (pose proof (inv_once _ J) as O1; cnt_self; unfold count in O1;
              first [ lia
                    | rewrite (Stop_returned_count (trace s)) in * by (apply St; reflexivity);
                      unfold count in *; lia ]).
    (* inv_closer *)
    all: try (match goal with |- forall u, closers _ = _ -> _ => idtac end;
              intros u; proj_simpl; intros Hcl;
              destruct (Nat.eq_dec u t) as [->|Hne];
              [ rewrite upd_same; cbn [stopping];
                pose proof (inv_closer _ J t) as K; rewrite Ef in K;
                cbn [stopping] in K;
                first [ now left | now right | intuition congruence ]
              | rewrite (upd_other _ _ _ _ Hne);
                first [ exact (inv_closer _ J u Hcl)
                      | now right
                      | exfalso; intuition congruence ] ]).
    (* inv_winner *)
    all: try (match goal with |- forall u, In _ _ -> _ => idtac end;
              intros u; proj_simpl; rewrite ?in_app_iff; cbn [In];
              intros Hin; pose proof (inv_winner _ J u) as K;
              repeat match goal with H : _ \/ _ |- _ => destruct H end;
              try discriminate; try contradiction;
              first [ now apply K
                    | match goal with H : Ret _ _ _ = Ret _ _ _ |- _ =>
                        injection H as <- end; apply St; reflexivity
                    | exfalso; intuition congruence ]).
    + assert (Hc' : stopChan (tg s) <> ChanClosed) by congruence.
      destruct (Bf Hc') as (B1 & _).
      intros u. proj_simpl. rewrite B1. intros [= <-].
      rewrite upd_same. now left.
    + rewrite count_app.
      rewrite (Stop_returned_count (trace s)) by (apply St; reflexivity).
      unfold count. simpl. lia.
Qed.

(** ** Runs *)

Lemma run_app l1 l2 s :
  run (l1 ++ l2) s =
    match run l1 s with Some s' => run l2 s' | None => None end.
Proof.
  revert s; induction l1 as [|a l1 IH]; intros s; simpl; [reflexivity|].
  destruct (step a s); [apply IH|reflexivity].
Qed.

Lemma inv_init : inv init.
Proof.
  constructor; simpl; try (intros; discriminate); try lia.
  - intros t. split; discriminate.
  - intros _. repeat split.
Qed.

Lemma inv2_init : inv2 init.
Proof.
  constructor; simpl; try reflexivity; try (intros; discriminate);
    try (intros; contradiction); try lia.
  unfold count; simpl; lia.
Qed.

Lemma run_inv l s s' :
  inv s -> inv2 s -> run l s = Some s' -> inv s' /\ inv2 s'.
Proof.
  revert s; induction l as [|a l IH]; intros s I J H; simpl in H.
  - injection H as <-. split; assumption.
  - destruct (step a s) as [s1|] eqn:E; [|discriminate].
    apply (IH s1); [eapply step_inv|eapply step_inv2|]; eassumption.
Qed.

Lemma reachable_inv s : reachable s -> inv s /\ inv2 s.
Proof.
  intros (l & H). eapply run_inv; [apply inv_init|apply inv2_init|exact H].
Qed.

Lemma reachable_run l s s' : reachable s -> run l s = Some s' -> reachable s'.
Proof.
  intros (l0 & H0) H. exists (l0 ++ l). rewrite run_app, H0. exact H.
Qed.


Ltac step_cases I H t Ef :=
  unfold step in H;
  destruct (crashed _); [discriminate|];
  match type of H with match ?a with _ => _ end = _ => destruct a as [t ?m|t] end;
  [ destruct (frames _ t) eqn:Ef; try discriminate; injection H as <-
  | destruct (frames _ t) eqn:Ef; simpl in H;
    unfold do_Lock, do_Unlock, IsStopped, StopChan in H;
    inner_destruct H; try discriminate; injection H as <-;
    try match goal with e : option error |- _ => destruct e end;
    facts I t Ef ].

(** One step once the channel is closed. *)
Lemma step_after_close a s s' :
  inv s -> step a s = Some s' -> stopChan (tg s) = ChanClosed ->
  stopChan (tg s') = ChanClosed /\ wg (tg s') <= wg (tg s) /\
  exists evs, trace s' = trace s ++ evs /\ forallb after_close evs = true.
Proof.
  intros I H Hc. step_cases I H t Ef; st_simpl.
  all: try (exfalso; intuition congruence).
  all: split; [assumption|].
  all: split; [rewrite ?Z.ltb_ge in *; lia|].
  all: try (exists []; rewrite app_nil_r; split; reflexivity).
  all: try (eexists; split; [reflexivity|reflexivity]).
  rewrite (inv_err _ I t _ Ef). eexists; split; reflexivity.
Qed.

(** One step once a call of [Stop] has returned [nil]. *)
Lemma step_after_Stop a s s' :
  inv s -> step a s = Some s' -> Stop_returned (trace s) = true ->
  exists evs, trace s' = trace s ++ evs /\ forallb after_Stop evs = true.
Proof.
  intros I H Hr.
  assert (Hc : stopChan (tg s) = ChanClosed).
  { destruct (stopChan (tg s)) eqn:E; [| |reflexivity];
      destruct (inv_before _ I) as (_ & _ & _ & B); congruence. }
  step_cases I H t Ef; st_simpl.
  all: try (exfalso; intuition congruence).
  all: try (exists []; rewrite app_nil_r; split; reflexivity).
  all: try (eexists; split; [reflexivity|reflexivity]).
  rewrite (inv_err _ I t _ Ef). eexists; split; reflexivity.
Qed.

Lemma run_after_close l s s' :
  inv s -> inv2 s -> run l s = Some s' -> stopChan (tg s) = ChanClosed ->
  stopChan (tg s') = ChanClosed /\ wg (tg s') <= wg (tg s) /\
  exists new, trace s' = trace s ++ new /\ forallb after_close new = true.
Proof.
  revert s; induction l as [|a l IH]; intros s I J H Hc; simpl in H.
  - injection H as <-. split; [exact Hc|]. split; [lia|].
    exists []. rewrite app_nil_r. split; reflexivity.
  - destruct (step a s) as [s1|] eqn:E; [|discriminate].
    destruct (step_after_close _ _ _ I E Hc) as (Hc1 & W1 & evs & T1 & F1).
    destruct (IH s1 (step_inv _ _ _ I E) (step_inv2 _ _ _ I J E) H Hc1)
      as (Hc2 & W2 & new & T2 & F2).
    split; [exact Hc2|]. split; [lia|].
    exists (evs ++ new). rewrite T2, T1, app_assoc. split; [reflexivity|].
    rewrite forallb_app, F1, F2. reflexivity.
Qed.

Lemma Stop_returned_mono tr evs :
  Stop_returned tr = true -> Stop_returned (tr ++ evs) = true.
Proof. intros H. rewrite Stop_returned_app, H. reflexivity. Qed.

Lemma run_after_Stop l s s' :
  inv s -> inv2 s -> run l s = Some s' -> Stop_returned (trace s) = true ->
  exists new, trace s' = trace s ++ new /\ forallb after_Stop new = true.
Proof.
  revert s; induction l as [|a l IH]; intros s I J H Hr; simpl in H.
  - injection H as <-. exists []. rewrite app_nil_r. split; reflexivity.
  - destruct (step a s) as [s1|] eqn:E; [|discriminate].
    destruct (step_after_Stop _ _ _ I E Hr) as (evs & T1 & F1).
    assert (Hr1 : Stop_returned (trace s1) = true)
      by (rewrite T1; apply Stop_returned_mono; exact Hr).
    destruct (IH s1 (step_inv _ _ _ I E) (step_inv2 _ _ _ I J E) H Hr1)
      as (new & T2 & F2).
    exists (evs ++ new). rewrite T2, T1, app_assoc. split; [reflexivity|].
    rewrite forallb_app, F1, F2. reflexivity.
Qed.

(** After [Stop] has returned [nil] the group is at rest. *)
Lemma stopped_at_rest s :
  inv s -> Stop_returned (trace s) = true ->
  stopChan (tg s) = ChanClosed /\ wg (tg s) = 0 /\ stopFns (tg s) = [] /\
  ran_by_Stop (trace s) = rev (appended (trace s)).
Proof.
  intros I Hr.
  assert (Hc : stopChan (tg s) = ChanClosed).
  { destruct (stopChan (tg s)) eqn:E; [| |reflexivity];
      destruct (inv_before _ I) as (_ & _ & _ & B); congruence. }
  split; [exact Hc|]. split; [apply (inv_returned _ I Hr)|].
  destruct (inv_after _ I Hc) as (u & A1 & [(i & A2)|A2]); [|exact A2].
  destruct (inv_stopping _ I u) as (_ & S2); [rewrite A2; reflexivity|].
  congruence.
Qed.

Lemma run_Invoke s t m l :
  crashed s = None -> frames s t = Idle ->
  run (Invoke t m :: l) s =
    run l (mkState (tg s) (upd (frames s) t (entry m))
             (trace s ++ [Call t m]) None).
Proof. intros Hc Hf. simpl. unfold step. rewrite Hc, Hf. reflexivity. Qed.

Lemma run_Tau s t l f' tg' evs :
  crashed s = None ->
  step_frame t (frames s t) (tg s) = Next f' tg' evs ->
  run (Tau t :: l) s =
    run l (mkState tg' (upd (frames s) t f') (trace s ++ evs) None).
Proof. intros Hc Hf. simpl. unfold step. rewrite Hc, Hf. reflexivity. Qed.

(** Executes the next statement of the goroutine at the head of the
    schedule; [rw] rewrites with what is known of the group. *)
Ltac tau rw :=
  erewrite run_Tau;
  [ | reflexivity
    | cbn [frames tg]; rewrite upd_same; cbn [step_frame entry];
      unfold do_Lock, do_Unlock, IsStopped, StopChan;
      cbn [mu stopChan wg stopFns set_mu set_wg set_stopChan set_stopFns];
      rw;
      cbn [mu stopChan wg stopFns set_mu set_wg set_stopChan set_stopFns];
      reflexivity ].

Ltac solo_rest t :=
  cbn [tg trace frames crashed mu stopChan wg stopFns
       set_mu set_wg set_stopChan set_stopFns];
  repeat split;
  [ rewrite <- ?app_assoc; reflexivity
  | rewrite upd_same; reflexivity
  | intros u Hu; rewrite !upd_other by exact Hu; reflexivity ].

Lemma set_mu_back g x : mu g = None -> set_mu (set_mu g x) None = g.
Proof. destruct g; cbn; intros ->; reflexivity. Qed.

Lemma solo_Stop_stopped s t :
  crashed s = None -> frames s t = Idle -> mu (tg s) = None ->
  stopChan (tg s) = ChanClosed ->
  exists s', run (solo t MStop 3) s = Some s' /\
    tg s' = tg s /\
    trace s' = trace s ++ [Call t MStop; Lock t; Unlock t;
                           Ret t MStop (VErr (Some ErrStopped))] /\
    frames s' t = Idle /\ (forall u, u <> t -> frames s' u = frames s u) /\
    crashed s' = None.
Proof.
  intros Hcr Hf Hmu Hch. eexists. split.
  - unfold solo. cbn [repeat]. rewrite run_Invoke by assumption.
    tau ltac:(rewrite ?Hmu, ?Hch). tau ltac:(rewrite ?Hmu, ?Hch).
    tau ltac:(rewrite ?Hmu, ?Hch). reflexivity.
  - split; [apply set_mu_back; exact Hmu|]. solo_rest t.
Qed.

Lemma solo_Add_stopped s t :
  crashed s = None -> frames s t = Idle -> mu (tg s) = None ->
  stopChan (tg s) = ChanClosed ->
  exists s', run (solo t MAdd 3) s = Some s' /\
    tg s' = tg s /\
    trace s' = trace s ++ [Call t MAdd; Lock t; Unlock t;
                           Ret t MAdd (VErr (Some ErrStopped))] /\
    frames s' t = Idle /\ (forall u, u <> t -> frames s' u = frames s u) /\
    crashed s' = None.
Proof.
  intros Hcr Hf Hmu Hch. eexists. split.
  - unfold solo. cbn [repeat]. rewrite run_Invoke by assumption.
    tau ltac:(rewrite ?Hmu, ?Hch). tau ltac:(rewrite ?Hmu, ?Hch).
    tau ltac:(rewrite ?Hmu, ?Hch). reflexivity.
  - split; [apply set_mu_back; exact Hmu|]. solo_rest t.
Qed.

Lemma solo_OnStop_stopped s t f :
  crashed s = None -> frames s t = Idle -> mu (tg s) = None ->
  stopChan (tg s) = ChanClosed ->
  exists s', run (solo t (MOnStop f) 4) s = Some s' /\
    tg s' = tg s /\
    trace s' = trace s ++ [Call t (MOnStop f); Lock t; Unlock t;
                           RunNow t f; Ret t (MOnStop f) VUnit] /\
    frames s' t = Idle /\ (forall u, u <> t -> frames s' u = frames s u) /\
    crashed s' = None.
Proof.
  intros Hcr Hf Hmu Hch. eexists. split.
  - unfold solo. cbn [repeat]. rewrite run_Invoke by assumption.
    tau ltac:(rewrite ?Hmu, ?Hch). tau ltac:(rewrite ?Hmu, ?Hch).
    tau ltac:(rewrite ?Hmu, ?Hch). tau ltac:(rewrite ?Hmu, ?Hch).
    reflexivity.
  - split; [apply set_mu_back; exact Hmu|]. solo_rest t.
Qed.

(** ** Counting per goroutine *)

Lemma count_split t p tr :
  count p tr = (count (by_tid t p) tr + count p (others t tr))%nat.
Proof.
  unfold count, others, by_tid.
  induction tr as [|e tr IH]; simpl; [reflexivity|].
  destruct (Nat.eqb (tid_of e) t); simpl; destruct (p e); simpl; lia.
Qed.

Lemma count_by_others_same t p tr : count (by_tid t p) (others t tr) = 0%nat.
Proof.
  unfold count, others, by_tid.
  induction tr as [|e tr IH]; simpl; [reflexivity|].
  destruct (Nat.eqb (tid_of e) t) eqn:E; simpl; [exact IH|].
  rewrite E. simpl. exact IH.
Qed.

Lemma count_by_others_other t u p tr :
  u <> t -> count (by_tid u p) (others t tr) = count (by_tid u p) tr.
Proof.
  intros Hne. unfold count, others, by_tid.
  induction tr as [|e tr IH]; simpl; [reflexivity|].
  destruct (Nat.eqb_spec (tid_of e) t) as [E|E]; simpl.
  - destruct (Nat.eqb_spec (tid_of e) u); [congruence|]. simpl. exact IH.
  - destruct (Nat.eqb (tid_of e) u && p e); simpl; now rewrite IH.
Qed.

Lemma others_length t tr : (List.length (others t tr) <= List.length tr)%nat.
Proof. apply filter_length_le. Qed.

Lemma count_le_by_tid p q tr :
  (forall t, count (by_tid t p) tr <= count (by_tid t q) tr)%nat ->
  (count p tr <= count q tr)%nat.
Proof.
  remember (List.length tr) as n eqn:Hn. revert tr Hn.
  induction n as [n IH] using lt_wf_ind. intros [|e tr] Hn H.
  - unfold count; simpl; lia.
  - set (t0 := tid_of e).
    rewrite (count_split t0 p), (count_split t0 q).
    assert (Hlen : (List.length (others t0 (e :: tr)) < n)%nat).
    { subst n. unfold others. simpl. unfold t0. rewrite Nat.eqb_refl. simpl.
      pose proof (others_length (tid_of e) tr). unfold others in *. lia. }
    pose proof (H t0).
    assert (count p (others t0 (e :: tr)) <=
            count q (others t0 (e :: tr)))%nat; [|lia].
    apply (IH _ Hlen _ eq_refl). intros t.
    destruct (Nat.eq_dec t t0) as [->|Hne].
    + rewrite !count_by_others_same. lia.
    + rewrite !count_by_others_other by exact Hne. apply H.
Qed.

Lemma count_eq_by_tid p q tr :
  (forall t, count (by_tid t p) tr = count (by_tid t q) tr) ->
  count p tr = count q tr.
Proof.
  intros H. apply Nat.le_antisymm; apply count_le_by_tid; intros t;
    rewrite H; lia.
Qed.

Lemma count_lt_by_tid p q tr t0 :
  (forall t, count (by_tid t p) tr <= count (by_tid t q) tr)%nat ->
  (count (by_tid t0 p) tr < count (by_tid t0 q) tr)%nat ->
  (count p tr < count q tr)%nat.
Proof.
  intros H H0. rewrite (count_split t0 p), (count_split t0 q).
  assert (count p (others t0 tr) <= count q (others t0 tr))%nat; [|lia].
  apply count_le_by_tid. intros t.
  destruct (Nat.eq_dec t t0) as [->|Hne].
  - rewrite !count_by_others_same. lia.
  - rewrite !count_by_others_other by exact Hne. apply H.
Qed.


(** ** The callers' obligation *)

Lemma owed_app n l1 l2 :
  owed n (l1 ++ l2) =
    match owed n l1 with Some m => owed m l2 | None => None end.
Proof.
  revert n; induction l1 as [|e l1 IH]; intros n; simpl; [reflexivity|].
  destruct (p_Add_nil e); [apply IH|].
  destruct (p_Call_Done e); [|apply IH].
  destruct n; [reflexivity|apply IH].
Qed.

Lemma Add_nil_not_Call e : p_Add_nil e = true -> p_Call_Done e = false.
Proof. destruct e; simpl; congruence. Qed.

Lemma owed_count n tr m :
  owed n tr = Some m ->
  (m + count p_Call_Done tr = n + count p_Add_nil tr)%nat.
Proof.
  unfold count. revert n; induction tr as [|e tr IH]; intros n H; simpl in *.
  - injection H as <-. lia.
  - destruct (p_Add_nil e) eqn:E1.
    + rewrite (Add_nil_not_Call _ E1). apply IH in H. simpl. lia.
    + destruct (p_Call_Done e).
      * destruct n; [discriminate|]. apply IH in H. simpl. lia.
      * apply IH in H. lia.
Qed.



Lemma matched_prefix tr evs : matched (tr ++ evs) = true -> matched tr = true.
Proof.
  unfold matched. rewrite owed_app. destruct (owed 0 tr); [reflexivity|].
  discriminate.
Qed.


(** ** Totals once the channel is closed *)


Lemma total_Add_le s :
  inv2 s -> (count p_Add_nil (trace s) <= count p_WgAdd (trace s))%nat.
Proof.
  intros J. apply count_le_by_tid. intros t. rewrite (cnt_add _ J t). lia.
Qed.

Lemma total_Done_le s :
  inv2 s -> (count p_WgDone (trace s) <= count p_Call_Done (trace s))%nat.
Proof.
  intros J. apply count_le_by_tid. intros t. rewrite (cnt_done _ J t). lia.
Qed.


(** ** No panic while the callers keep their obligation *)

Lemma step_no_crash a s s' :
  inv s -> inv2 s -> step a s = Some s' ->
  matched (trace s') = true -> crashed s' = None.
Proof.
  intros I J H M.
  unfold step in H. destruct (crashed s); [discriminate|].
  destruct a as [t m|t].
  - destruct (frames s t); try discriminate. injection H as <-. reflexivity.
  - destruct (frames s t) eqn:Ef; simpl in H;
    unfold do_Lock, do_Unlock, IsStopped, StopChan in H;
    inner_destruct H; try discriminate; injection H as <-; try reflexivity;
    exfalso; facts I t Ef; simpl in M.
    all: try (intuition congruence).
    + (* Done on a zero counter *)
      apply Z.ltb_lt in Heqb.
      pose proof (cnt_wg _ J) as W.
      pose proof (total_Add_le _ J) as A.
      assert (D : (count p_WgDone (trace s) < count p_Call_Done (trace s))%nat).
      { apply (count_lt_by_tid _ _ _ t).
        - intros u. rewrite (cnt_done _ J u). lia.
        - rewrite (cnt_done _ J t), Ef. simpl. lia. }
      unfold matched in M. destruct (owed 0 (trace s)) as [m|] eqn:E;
        [|discriminate].
      apply owed_count in E. lia.
    + (* the loop index is in range *)
      destruct (inv_for _ I t _ Ef) as (F1 & _).
      apply Z.leb_le in Heqb. apply nth_error_None in Heqo. lia.
Qed.

Lemma run_snoc l a s s' :
  run (l ++ [a]) s = Some s' ->
  exists s0, run l s = Some s0 /\ step a s0 = Some s'.
Proof.
  rewrite run_app. destruct (run l s) as [s0|]; [|discriminate].
  simpl. destruct (step a s0) as [s1|] eqn:E; [|discriminate].
  intros [= <-]. eauto.
Qed.

Lemma reachable_no_crash s :
  reachable s -> matched (trace s) = true -> crashed s = None.
Proof.
  intros (l & H). destruct l as [|a l] using rev_ind.
  - injection H as <-. reflexivity.
  - apply run_snoc in H as (s0 & H0 & H1).
    destruct (reachable_inv s0) as (I & J); [exists l; exact H0|].
    apply (step_no_crash _ _ _ I J H1).
Qed.

(** ** Progress of the call of [Stop] that closed the channel *)








(** ** Every function is called as often as it was registered *)

Lemma count_ran_by_Stop f tr :
  count (p_RunStopFn f) tr = count_occ Nat.eq_dec (ran_by_Stop tr) f.
Proof.
  unfold count, ran_by_Stop.
  induction tr as [|e tr IH]; simpl; [reflexivity|].
  destruct e; simpl; try exact IH.
  destruct (Nat.eq_dec f0 f) as [->|Hne].
  - rewrite Nat.eqb_refl. simpl. now rewrite IH.
  - apply Nat.eqb_neq in Hne. rewrite Hne. exact IH.
Qed.

Lemma count_appended f tr :
  count (p_Appended f) tr = count_occ Nat.eq_dec (appended tr) f.
Proof.
  unfold count, appended.
  induction tr as [|e tr IH]; simpl; [reflexivity|].
  destruct e; simpl; try exact IH.
  destruct (Nat.eq_dec f0 f) as [->|Hne].
  - rewrite Nat.eqb_refl. simpl. now rewrite IH.
  - apply Nat.eqb_neq in Hne. rewrite Hne. exact IH.
Qed.

(** At every moment the functions called by [Stop] are the last ones
    registered, most recent first. *)
Lemma ran_by_Stop_prefix s :
  inv s -> exists rest,
    rev (appended (trace s)) = ran_by_Stop (trace s) ++ rest.
Proof.
  intros I. destruct (stopChan (tg s)) eqn:Ec.
  1,2: destruct (inv_before _ I) as (_ & _ & B3 & _); [congruence|];
       rewrite B3; eexists; reflexivity.
  destruct (inv_after _ I Ec) as (u & _ & [(i & Fu)|(_ & A)]).
  - destruct (inv_for _ I u i Fu) as (_ & F2 & F3).
    rewrite F3, <- F2.
    exists (rev (firstn (Z.to_nat (i + 1)) (stopFns (tg s)))).
    rewrite <- rev_app_distr, firstn_skipn. reflexivity.
  - exists []. rewrite app_nil_r. symmetry. exact A.
Qed.

Lemma count_or p q tr :
  (forall e, p e = true -> q e = false) ->
  count (fun e => p e || q e) tr = (count p tr + count q tr)%nat.
Proof.
  intros H. unfold count. induction tr as [|e tr IH]; simpl; [reflexivity|].
  destruct (p e) eqn:Ep; simpl.
  - rewrite (H _ Ep). simpl. lia.
  - destruct (q e); simpl; lia.
Qed.

Lemma Appended_not_RunNow f e : p_Appended f e = true -> p_RunNow f e = false.
Proof. destruct e; simpl; congruence. Qed.

Lemma by_tid_or t p q tr :
  (forall e, p e = true -> q e = false) ->
  count (by_tid t (fun e => p e || q e)) tr =
    (count (by_tid t p) tr + count (by_tid t q) tr)%nat.
Proof.
  intros H. unfold count, by_tid.
  induction tr as [|e tr IH]; simpl; [reflexivity|].
  destruct (Nat.eqb (tid_of e) t); simpl; [|exact IH].
  destruct (p e) eqn:Ep; simpl.
  - rewrite (H _ Ep). simpl. lia.
  - destruct (q e); simpl; lia.
Qed.

Lemma runs_le_registrations s f :
  inv s -> inv2 s -> (runs f (trace s) <= registrations f (trace s))%nat.
Proof.
  intros I J. unfold runs, registrations.
  assert (A : (count (p_RunStopFn f) (trace s) <=
               count (p_Appended f) (trace s))%nat).
  { rewrite count_ran_by_Stop, count_appended.
    destruct (ran_by_Stop_prefix s I) as (rest & E).
    rewrite <- (count_occ_rev _ (appended (trace s))), E, count_occ_app.
    apply Nat.le_add_r. }
  assert (B : (count (fun e => p_Appended f e || p_RunNow f e) (trace s) <=
               count (p_Call_OnStop f) (trace s))%nat).
  { apply count_le_by_tid. intros t.
    rewrite (by_tid_or _ _ _ _ (Appended_not_RunNow f)).
    rewrite (cnt_onstop _ J t f). lia. }
  rewrite (count_or _ _ _ (Appended_not_RunNow f)) in B. lia.
Qed.

Lemma runs_eq_registrations s f :
  inv s -> inv2 s -> Stop_returned (trace s) = true ->
  (forall t, in_OnStop (frames s t) = false) ->
  runs f (trace s) = registrations f (trace s).
Proof.
  intros I J Hr Hq. unfold runs, registrations.
  destruct (stopped_at_rest s I Hr) as (_ & _ & _ & E).
  assert (A : count (p_RunStopFn f) (trace s) =
              count (p_Appended f) (trace s)).
  { rewrite count_ran_by_Stop, count_appended, E. apply count_occ_rev. }
  assert (B : count (fun e => p_Appended f e || p_RunNow f e) (trace s) =
              count (p_Call_OnStop f) (trace s)).
  { apply count_eq_by_tid. intros t.
    rewrite (by_tid_or _ _ _ _ (Appended_not_RunNow f)).
    rewrite (cnt_onstop _ J t f).
    specialize (Hq t). destruct (frames s t); simpl in *;
      try discriminate; lia. }
  rewrite (count_or _ _ _ (Appended_not_RunNow f)) in B. lia.
Qed.

(** ** Reading the conditions on later events *)

Lemma after_close_In new :
  forallb after_close new = true ->
  (forall t, ~ In (WgAdd t) new) /\
  (forall t, ~ In (Close t) new) /\
  (forall t f, ~ In (Appended t f) new) /\
  (forall t v, In (Ret t MAdd v) new -> v = VErr (Some ErrStopped)).
Proof.
  rewrite forallb_forall. intros H.
  split; [|split; [|split]].
  - intros t Hin. specialize (H _ Hin). discriminate.
  - intros t Hin. specialize (H _ Hin). discriminate.
  - intros t f Hin. specialize (H _ Hin). discriminate.
  - intros t v Hin. specialize (H _ Hin). simpl in H.
    destruct v as [|[e|]|]; try discriminate.
    apply String.eqb_eq in H. now subst.
Qed.

Lemma after_Stop_In new :
  forallb after_Stop new = true ->
  forallb after_close new = true /\
  (forall t f, ~ In (RunStopFn t f) new) /\
  (forall t v, In (Ret t MStop v) new -> v = VErr (Some ErrStopped)).
Proof.
  intros H. split; [|split].
  - rewrite forallb_forall in *. intros e He. specialize (H _ He).
    unfold after_Stop in H. now apply andb_true_iff in H as (H & _).
  - rewrite forallb_forall in H. intros t f Hin. specialize (H _ Hin).
    discriminate.
  - rewrite forallb_forall in H. intros t v Hin. specialize (H _ Hin).
    unfold after_Stop in H. simpl in H.
    destruct v as [|[e|]|]; try discriminate.
    apply String.eqb_eq in H. now subst.
Qed.

Lemma after_Stop_proj new :
  forallb after_Stop new = true ->
  ran_by_Stop new = [] /\ appended new = [] /\ closers new = [].
Proof.
  induction new as [|e new IH]; simpl; [auto|].
  intros H. apply andb_true_iff in H as (He & H).
  destruct (IH H) as (H1 & H2 & H3).
  destruct e; try discriminate; auto.
Qed.

(** The scenario, as it unfolds. *)
Example scenario_stopped_trace :
  trace (state_after scenario_stopped) =
    [ Call 1 MAdd; Lock 1; WgAdd 1; Unlock 1; Ret 1 MAdd (VErr None);
      Call 0 (MOnStop 7); Lock 0; Appended 0 7; Unlock 0;
      Ret 0 (MOnStop 7) VUnit;
      Call 0 (MOnStop 8); Lock 0; Appended 0 8; Unlock 0;
      Ret 0 (MOnStop 8) VUnit;
      Call 0 MStop; Lock 0; Close 0; RunStopFn 0 8; RunStopFn 0 7; Unlock 0;
      Call 1 MDone; WgDone 1; Ret 1 MDone VUnit;
      Ret 0 MStop (VErr None) ]%nat.
Proof. vm_compute. reflexivity. Qed.

(** A [Done] that no [Add] accounts for panics. *)
Example Done_without_Add_panics :
  option_map crashed (run (solo 0%nat MDone 1) init)
  = Some (Some "sync: negative WaitGroup counter").
Proof. vm_compute. reflexivity. Qed.

(** ** Stop waits for the counter *)



(** While the counter is not zero the call of [Stop] cannot return: in the
    scenario, goroutine 0 stands at [tg.wg.Wait()] with the counter at 1
    and has no step. *)
Example Stop_blocks_while_active :
  let s := state_after scenario_draining in
  frames s 0%nat = Stop_Wait /\ wg (tg s) = 1 /\ step (Tau 0%nat) s = None.
Proof. vm_compute. repeat split. Qed.

(** ** Cleanup functions *)

(** C4.  In every reachable state:
    - the functions [Stop] has called so far are the most recently
      registered ones, last registered first;
    - before the channel is closed [stopFns] holds the registered functions
      in registration order and none has been called;
    - once [Stop] has returned [nil], it has called every registered
      function, in exactly the reverse order of registration, [stopFns] is
      empty, and in every continuation [Stop] calls no function again and
      nothing is registered any more;
    - on a stopped group [OnStop f], run on its own, calls [f] itself, after
      releasing the mutex and before returning, and leaves the group as it
      was;
    - no function is called more often than [OnStop] was called with it, and
      exactly as often once [Stop] has returned and no call of [OnStop] is
      under way. *)
Theorem hooks_run_once_in_reverse s :
  reachable s ->
  (exists rest, rev (appended (trace s)) = ran_by_Stop (trace s) ++ rest) /\
  (stopChan (tg s) <> ChanClosed ->
     stopFns (tg s) = appended (trace s) /\ ran_by_Stop (trace s) = []) /\
  (Stop_returned (trace s) = true ->
     ran_by_Stop (trace s) = rev (appended (trace s)) /\
     stopFns (tg s) = [] /\
     forall l s', run l s = Some s' ->
       ran_by_Stop (trace s') = ran_by_Stop (trace s) /\
       appended (trace s') = appended (trace s) /\
       stopFns (tg s') = []) /\
  (forall t f, stopChan (tg s) = ChanClosed -> crashed s = None ->
     frames s t = Idle -> mu (tg s) = None ->
     exists s', run (solo t (MOnStop f) 4) s = Some s' /\
       tg s' = tg s /\
       trace s' = trace s ++ [Call t (MOnStop f); Lock t; Unlock t;
                              RunNow t f; Ret t (MOnStop f) VUnit]) /\
  (forall f, (runs f (trace s) <= registrations f (trace s))%nat) /\
  (Stop_returned (trace s) = true ->
   (forall t, in_OnStop (frames s t) = false) ->
   forall f, runs f (trace s) = registrations f (trace s)).
Proof.
  intros R. destruct (reachable_inv s R) as (I & J).
  split; [apply ran_by_Stop_prefix; exact I|].
  split.
  { intros Hc. destruct (inv_before _ I Hc) as (_ & B2 & B3 & _).
    split; assumption. }
  split.
  { intros Hr. destruct (stopped_at_rest s I Hr) as (_ & _ & E1 & E2).
    split; [exact E2|]. split; [exact E1|].
    intros l s' Hrun.
    destruct (run_after_Stop l s s' I J Hrun Hr) as (new & T & F).
    destruct (after_Stop_proj new F) as (N1 & N2 & _).
    destruct (run_inv l s s' I J Hrun) as (I' & _).
    rewrite T, ran_by_Stop_app, appended_app, N1, N2, !app_nil_r.
    split; [reflexivity|]. split; [reflexivity|].
    apply (stopped_at_rest s' I'). rewrite T.
    apply Stop_returned_mono; exact Hr. }
  split.
  { intros t f Hc Hcr Ft Hmu.
    destruct (solo_OnStop_stopped s t f Hcr Ft Hmu Hc)
      as (s' & R' & T1 & T2 & _).
    exists s'. repeat split; assumption. }
  split; [intros f; apply runs_le_registrations; assumption|].
  intros Hr Hq f. apply runs_eq_registrations; assumption.
Qed.

Lemma hooks_run_once_in_reverse_witness :
  let s := state_after scenario_stopped in
  reachable s /\
  appended (trace s) = [7; 8]%nat /\ ran_by_Stop (trace s) = [8; 7]%nat /\
  stopFns (tg s) = [] /\ runs 7%nat (trace s) = 1%nat.
Proof.
  intros s.
  assert (R : reachable s)
    by (exists scenario_stopped; vm_compute; reflexivity).
  destruct (hooks_run_once_in_reverse s R) as (_ & _ & H3 & _ & _ & H6).
  destruct (H3 ltac:(vm_compute; reflexivity)) as (E1 & E2 & _).
  split; [exact R|].
  split; [vm_compute; reflexivity|].
  split; [rewrite E1; vm_compute; reflexivity|].
  split; [exact E2|].
  rewrite (H6 ltac:(vm_compute; reflexivity)
              ltac:(intros t; vm_compute;
                    destruct t as [|[|t]]; reflexivity)).
  vm_compute. reflexivity.
Defined.

(** ** A second call of Stop *)

(** C5.  Once a call of [Stop] has returned [nil], whatever the goroutines
    do afterwards: the channel is not closed again, the loop of [Stop]
    calls no function, every call of [Stop] that returns returns
    [ErrStopped], and the group stays closed, drained and without
    registered functions.  A call of [Stop] run on its own takes the mutex,
    releases it and returns [ErrStopped], leaving the group as it was. *)
Theorem second_Stop_returns_ErrStopped s :
  reachable s -> Stop_returned (trace s) = true ->
  (forall l s', run l s = Some s' ->
     stopChan (tg s') = ChanClosed /\ wg (tg s') = 0 /\
     stopFns (tg s') = [] /\
     exists new, trace s' = trace s ++ new /\
       (forall t, ~ In (Close t) new) /\
       (forall t f, ~ In (RunStopFn t f) new) /\
       (forall t v, In (Ret t MStop v) new -> v = VErr (Some ErrStopped))) /\
  (forall t, crashed s = None -> frames s t = Idle -> mu (tg s) = None ->
     exists s', run (solo t MStop 3) s = Some s' /\
       tg s' = tg s /\
       trace s' = trace s ++ [Call t MStop; Lock t; Unlock t;
                              Ret t MStop (VErr (Some ErrStopped))]).
Proof.
  intros R Hr. destruct (reachable_inv s R) as (I & J).
  split.
  - intros l s' Hrun.
    destruct (run_after_Stop l s s' I J Hrun Hr) as (new & T & F).
    destruct (run_inv l s s' I J Hrun) as (I' & _).
    destruct (stopped_at_rest s' I') as (E1 & E2 & E3 & _).
    { rewrite T. apply Stop_returned_mono; exact Hr. }
    split; [exact E1|]. split; [exact E2|]. split; [exact E3|].
    exists new. split; [exact T|].
    destruct (after_Stop_In new F) as (F1 & F2 & F3).
    destruct (after_close_In new F1) as (_ & F4 & _).
    split; [exact F4|]. split; assumption.
  - intros t Hcr Ft Hmu.
    destruct (stopped_at_rest s I Hr) as (Hc & _).
    destruct (solo_Stop_stopped s t Hcr Ft Hmu Hc) as (s' & R' & T1 & T2 & _).
    exists s'. repeat split; assumption.
Qed.

Lemma second_Stop_returns_ErrStopped_witness :
  let s := state_after scenario_stopped in
  reachable s /\ Stop_returned (trace s) = true /\
  exists s', run (solo 5%nat MStop 3) s = Some s' /\ tg s' = tg s /\
    trace s' = trace s ++ [Call 5%nat MStop; Lock 5%nat; Unlock 5%nat;
                           Ret 5%nat MStop (VErr (Some ErrStopped))].
Proof.
  intros s.
  assert (R : reachable s)
    by (exists scenario_stopped; vm_compute; reflexivity).
  assert (Hr : Stop_returned (trace s) = true) by (vm_compute; reflexivity).
  destruct (second_Stop_returns_ErrStopped s R Hr) as (_ & H2).
  split; [exact R|]. split; [exact Hr|].
  apply H2; vm_compute; reflexivity.
Defined.

(** ** Add after the stop *)

(** C6.  Once the channel is closed -- also while [Stop] is still calling
    functions or waiting -- whatever the goroutines do afterwards: no call
    of [Add] reaches [tg.wg.Add(1)], the counter never grows, and every
    call of [Add] that returns returns [ErrStopped].  A call of [Add] run
    on its own takes the mutex, releases it and returns [ErrStopped],
    leaving the group, and so the counter, as it was. *)
Theorem Add_fails_after_stop s :
  reachable s -> stopChan (tg s) = ChanClosed ->
  (forall l s', run l s = Some s' ->
     stopChan (tg s') = ChanClosed /\ wg (tg s') <= wg (tg s) /\
     exists new, trace s' = trace s ++ new /\
       (forall t, ~ In (WgAdd t) new) /\
       (forall t v, In (Ret t MAdd v) new -> v = VErr (Some ErrStopped))) /\
  (forall t, crashed s = None -> frames s t = Idle -> mu (tg s) = None ->
     exists s', run (solo t MAdd 3) s = Some s' /\
       tg s' = tg s /\
       trace s' = trace s ++ [Call t MAdd; Lock t; Unlock t;
                              Ret t MAdd (VErr (Some ErrStopped))]).
Proof.
  intros R Hc. destruct (reachable_inv s R) as (I & J).
  split.
  - intros l s' Hrun.
    destruct (run_after_close l s s' I J Hrun Hc) as (C1 & W & new & T & F).
    split; [exact C1|]. split; [exact W|].
    exists new. split; [exact T|].
    destruct (after_close_In new F) as (F1 & _ & _ & F4).
    split; assumption.
  - intros t Hcr Ft Hmu.
    destruct (solo_Add_stopped s t Hcr Ft Hmu Hc) as (s' & R' & T1 & T2 & _).
    exists s'. repeat split; assumption.
Qed.

Lemma Add_fails_after_stop_witness :
  let s := state_after scenario_draining in
  reachable s /\ frames s 0%nat = Stop_Wait /\ wg (tg s) = 1 /\
  exists s', run (solo 2%nat MAdd 3) s = Some s' /\ tg s' = tg s /\
    trace s' = trace s ++ [Call 2%nat MAdd; Lock 2%nat; Unlock 2%nat;
                           Ret 2%nat MAdd (VErr (Some ErrStopped))].
Proof.
  intros s.
  assert (R : reachable s)
    by (exists scenario_draining; vm_compute; reflexivity).
  destruct (Add_fails_after_stop s R ltac:(vm_compute; reflexivity))
    as (_ & H2).
  split; [exact R|].
  split; [vm_compute; reflexivity|]. split; [vm_compute; reflexivity|].
  apply H2; vm_compute; reflexivity.
Defined.

(** ** Where the mutex is held *)

(** C9 (as the code has it).  In every reachable state a goroutine holds
    the mutex exactly while it stands between [Lock] and [Unlock].  For
    [Stop] that includes the whole loop calling the registered functions;
    it does not include the wait: at [tg.wg.Wait()] the caller of [Stop]
    does not hold the mutex.  A function called by [OnStop] itself runs
    without the mutex.  [Done] takes no mutex: a goroutine about to
    execute [tg.wg.Done()] always has a step, whoever holds the mutex. *)
Theorem mutex_held_for_hooks_not_for_wait s t :
  reachable s ->
  (in_mutex (frames s t) = true <-> mu (tg s) = Some t) /\
  (frames s t = Stop_Wait -> mu (tg s) <> Some t) /\
  (forall i, frames s t = Stop_for i -> mu (tg s) = Some t) /\
  (forall f, frames s t = OnStop_fn f -> mu (tg s) <> Some t) /\
  (frames s t = Done_wgDone -> crashed s = None ->
   exists s', step (Tau t) s = Some s').
Proof.
  intros R. destruct (reachable_inv s R) as (I & _).
  pose proof (inv_mutex _ I t) as M.
  split; [exact M|].
  split; [intros Ft; rewrite Ft in M; simpl in M; intros H;
          apply M in H; discriminate|].
  split; [intros i Ft; rewrite Ft in M; apply M; reflexivity|].
  split; [intros f Ft; rewrite Ft in M; simpl in M; intros H;
          apply M in H; discriminate|].
  intros Ft Hcr. unfold step. rewrite Hcr, Ft. simpl.
  destruct (wg (tg s) - 1 <? 0); eauto.
Qed.

Lemma mutex_held_for_hooks_not_for_wait_witness :
  let s := state_after scenario_draining in
  reachable s /\ frames s 0%nat = Stop_Wait /\ mu (tg s) <> Some 0%nat.
Proof.
  intros s.
  assert (R : reachable s)
    by (exists scenario_draining; vm_compute; reflexivity).
  destruct (mutex_held_for_hooks_not_for_wait s 0%nat R) as (_ & H2 & _).
  split; [exact R|].
  split; [vm_compute; reflexivity|].
  apply H2. vm_compute. reflexivity.
Defined.

(** C9 (as the spec words it) does not hold: the mutex is held while the
    registered functions run.  After [OnStop 7] and the first statements
    of [Stop], goroutine 0 calls function 7 holding the mutex. *)
Lemma mutex_held_while_hook_runs :
  ~ (forall s s' t f,
       reachable s -> step (Tau t) s = Some s' ->
       trace s' = trace s ++ [RunStopFn t f] ->
       mu (tg s) <> Some t).
Proof.
  intros H.
  pose (l := solo 0%nat (MOnStop 7%nat) 4 ++ solo 0%nat MStop 3).
  pose (s := state_after l).
  assert (R : reachable s) by (exists l; vm_compute; reflexivity).
  destruct (step (Tau 0%nat) s) as [s'|] eqn:E; [|vm_compute in E; discriminate].
  apply (H s s' 0%nat 7%nat R E).
  - vm_compute in E. injection E as <-. vm_compute. reflexivity.
  - vm_compute. reflexivity.
Qed.

(** ** Mutual exclusion *)

(** X1.  A goroutine standing between [Lock] and [Unlock] is the holder of
    the mutex, and no other goroutine stands between [Lock] and [Unlock] of
    any method at the same time. *)
Theorem mutex_excludes s t :
  reachable s -> in_mutex (frames s t) = true ->
  mu (tg s) = Some t /\
  forall u, u <> t -> in_mutex (frames s u) = false /\ mu (tg s) <> Some u.
Proof.
  intros R Ht. destruct (reachable_inv s R) as (I & _).
  pose proof (proj1 (inv_mutex _ I t) Ht) as Hmu.
  split; [exact Hmu|]. intros u Hne.
  split; [|congruence].
  destruct (in_mutex (frames s u)) eqn:E; [|reflexivity].
  apply (inv_mutex _ I u) in E. congruence.
Qed.

Lemma mutex_excludes_witness :
  let s := state_after (solo 3%nat MAdd 2 ++ [Invoke 4%nat MStop]) in
  reachable s /\ frames s 3%nat = Add_wgAdd /\ mu (tg s) = Some 3%nat /\
  step (Tau 4%nat) s = None.
Proof.
  intros s.
  assert (R : reachable s)
    by (exists (solo 3%nat MAdd 2 ++ [Invoke 4%nat MStop]);
        vm_compute; reflexivity).
  destruct (mutex_excludes s 3%nat R ltac:(vm_compute; reflexivity))
    as (H1 & _).
  split; [exact R|]. split; [vm_compute; reflexivity|].
  split; [exact H1|]. vm_compute. reflexivity.
Defined.

(** ** The counter *)

(** X2.  The WaitGroup counter is never negative: it is the number of
    [tg.wg.Add(1)] executed minus the number of [tg.wg.Done()] executed;
    every [Add] that returned [nil] has incremented it, and every decrement
    belongs to a call of [Done]. *)
Theorem counter_accounts s :
  reachable s ->
  0 <= wg (tg s) /\
  wg (tg s) =
    Z.of_nat (count p_WgAdd (trace s)) - Z.of_nat (count p_WgDone (trace s)) /\
  (count p_Add_nil (trace s) <= count p_WgAdd (trace s))%nat /\
  (count p_WgDone (trace s) <= count p_Call_Done (trace s))%nat.
Proof.
  intros R. destruct (reachable_inv s R) as (I & J).
  split; [apply (inv_wg _ I)|]. split; [apply (cnt_wg _ J)|].
  split; [apply total_Add_le; exact J|apply total_Done_le; exact J].
Qed.

Lemma counter_accounts_witness :
  let s := state_after scenario_draining in
  reachable s /\ wg (tg s) = 1.
Proof.
  intros s.
  assert (R : reachable s)
    by (exists scenario_draining; vm_compute; reflexivity).
  destruct (counter_accounts s R) as (_ & H & _).
  split; [exact R|]. rewrite H. vm_compute. reflexivity.
Defined.

(** ** The only panic *)

Lemma step_crash a s s' msg :
  inv s -> step a s = Some s' -> crashed s' = Some msg ->
  msg = "sync: negative WaitGroup counter"%string /\ wg (tg s') = 0 /\
  exists t, frames s' t = Done_wgDone.
Proof.
  intros I H C.
  unfold step in H. destruct (crashed s); [discriminate|].
  destruct a as [t m|t].
  - destruct (frames s t); try discriminate. injection H as <-. discriminate.
  - destruct (frames s t) eqn:Ef; simpl in H;
    unfold do_Lock, do_Unlock, IsStopped, StopChan in H;
    inner_destruct H; try discriminate; injection H as <-;
    try discriminate; simpl in C; injection C as <-; facts I t Ef.
    all: try (exfalso; intuition congruence).
    + split; [reflexivity|]. apply Z.ltb_lt in Heqb. simpl. split; [lia|].
      exists t. exact Ef.
    + exfalso. destruct (inv_for _ I t _ Ef) as (F1 & _).
      apply Z.leb_le in Heqb. apply nth_error_None in Heqo. lia.
Qed.

(** A state that has panicked, reached without any call of a nil function:
    the panic is the one of [Done]. *)
Lemma crash_is_Done s msg :
  reachable s -> crashed s = Some msg ->
  msg = "sync: negative WaitGroup counter"%string /\ wg (tg s) = 0 /\
  (exists t, frames s t = Done_wgDone) /\ matched (trace s) = false.
Proof.
  intros R C.
  assert (M : matched (trace s) = false).
  { destruct (matched (trace s)) eqn:E; [|reflexivity].
    rewrite (reachable_no_crash s R E) in C. discriminate. }
  destruct R as (l & H). destruct l as [|a l] using rev_ind.
  - injection H as <-. discriminate.
  - apply run_snoc in H as (s0 & H0 & H1).
    destruct (reachable_inv s0) as (I & _); [exists l; exact H0|].
    destruct (step_crash _ _ _ _ I H1 C) as (E1 & E2 & E3).
    repeat (split; [assumption|]). exact M.
Qed.

(** A step with functions that may be nil is a step of the group, or the
    call of a nil function, which ends the program. *)
Lemma step_nil_cases is_nil a s s' :
  step_nil is_nil a s = Some s' ->
  step a s = Some s' \/
  (exists t g,
     crashed s = None /\
     callee (frames s t) (tg s) = Some g /\ is_nil g = true /\
     s' = mkState (tg s) (frames s) (trace s) (Some nil_call)).
Proof.
  unfold step_nil, step, step_frame_nil.
  destruct (crashed s) eqn:C; [discriminate|].
  destruct a as [t m|t]; [left; assumption|].
  destruct (callee (frames s t) (tg s)) as [g|] eqn:Ec; [|left; assumption].
  destruct (is_nil g) eqn:En; [|left; assumption].
  intros [= <-]. right. exists t, g. repeat split; assumption.
Qed.

Lemma run_nil_cases is_nil l : forall s s',
  run_nil is_nil l s = Some s' ->
  run l s = Some s' \/
  (exists l0 s0 t g,
     run l0 s = Some s0 /\ crashed s0 = None /\
     callee (frames s0 t) (tg s0) = Some g /\ is_nil g = true /\
     s' = mkState (tg s0) (frames s0) (trace s0) (Some nil_call)).
Proof.
  induction l as [|a l IH]; intros s s' H.
  - left. exact H.
  - cbn [run_nil] in H.
    destruct (step_nil is_nil a s) as [s1|] eqn:E1; [|discriminate].
    destruct (step_nil_cases _ _ _ _ E1) as [E|(t & g & C & Ec & En & ->)].
    + destruct (IH _ _ H) as [R|(l0 & s0 & t & g & R & K)].
      * left. cbn [run]. rewrite E. exact R.
      * right. exists (a :: l0), s0, t, g. cbn [run]. rewrite E.
        split; [exact R|exact K].
    + right. exists [], s, t, g.
      destruct l as [|b l]; [|discriminate H].
      injection H as <-. repeat split; assumption.
Qed.

(** The function a statement is about to call was handed to [OnStop]. *)
Lemma callee_registered s t g :
  inv s -> inv2 s -> callee (frames s t) (tg s) = Some g ->
  (0 < registrations g (trace s))%nat.
Proof.
  intros I J. unfold callee, registrations.
  assert (B : forall u,
    (count (by_tid u (p_Appended g)) (trace s) +
     registering g (frames s u) <=
     count (by_tid u (p_Call_OnStop g)) (trace s))%nat)
    by (intros u; rewrite (cnt_onstop _ J u g); lia).
  destruct (frames s t) eqn:Ef; try discriminate.
  - destruct (0 <=? i) eqn:Hi; [|discriminate]. intros Hn.
    destruct (inv_for _ I t _ Ef) as (_ & Ha & _).
    assert (Hin : In g (appended (trace s))).
    { rewrite <- Ha. eapply nth_error_In. exact Hn. }
    assert (Hc : (0 < count (p_Appended g) (trace s))%nat).
    { rewrite count_appended.
      apply (proj1 (count_occ_In Nat.eq_dec _ _)) in Hin. exact Hin. }
    assert (Hle : (count (p_Appended g) (trace s) <=
                   count (p_Call_OnStop g) (trace s))%nat).
    { apply count_le_by_tid. intros u. specialize (B u). lia. }
    lia.
  - intros [= ->]. specialize (B t). rewrite Ef in B. cbn [registering] in B.
    rewrite Nat.eqb_refl in B.
    pose proof (count_split t (p_Call_OnStop g) (trace s)). lia.
Qed.

(** X3.  Whatever the callers do, a function handed to [OnStop] being nil
    or not, the group panics in two ways only (the functions themselves are
    taken to return and not to call back into the group):
    - the negative-counter panic of [Done], raised with the counter at zero
      by a [Done] that no successful [Add] accounts for;
    - the call of a nil function, by the loop of [Stop] or by [OnStop]
      itself, and only of a nil function that [OnStop] was called with.
    The group never closes a nil or closed channel, never unlocks a mutex
    that is not locked and never indexes [stopFns] out of range. *)
Theorem panics_are_Done_or_nil_hook (is_nil : fn -> bool) s msg :
  reachable_nil is_nil s -> crashed s = Some msg ->
  (msg = "sync: negative WaitGroup counter"%string /\ wg (tg s) = 0 /\
   (exists t, frames s t = Done_wgDone) /\ matched (trace s) = false /\
   reachable s) \/
  (msg = nil_call /\
   exists t g,
     callee (frames s t) (tg s) = Some g /\ is_nil g = true /\
     (0 < registrations g (trace s))%nat).
Proof.
  intros (l & H) C.
  destruct (run_nil_cases _ _ _ _ H)
    as [R|(l0 & s0 & t & g & R & C0 & Ec & En & ->)].
  - left. assert (Rs : reachable s) by (exists l; exact R).
    destruct (crash_is_Done s msg Rs C) as (E1 & E2 & E3 & E4).
    repeat (split; [assumption|]). exact Rs.
  - right. cbn [crashed] in C. injection C as <-.
    split; [reflexivity|]. exists t, g. cbn [frames tg trace].
    split; [exact Ec|]. split; [exact En|].
    destruct (reachable_inv s0) as (I & J); [exists l0; exact R|].
    exact (callee_registered s0 t g I J Ec).
Qed.

Lemma panics_are_Done_or_nil_hook_witness :
  let is_nil := Nat.eqb 0 in
  let l := solo 0%nat (MOnStop 0%nat) 4 ++ solo 0%nat MStop 4 in
  exists s,
    run_nil is_nil l init = Some s /\
    crashed s = Some nil_call /\
    (0 < registrations 0%nat (trace s))%nat.
Proof.
  intros is_nil l.
  eexists. split; [vm_compute; reflexivity|].
  split; [reflexivity|].
  match goal with |- (0 < registrations _ (trace ?s))%nat =>
    destruct (panics_are_Done_or_nil_hook is_nil s nil_call) as
      [(E & _)|(_ & t & g & _ & En & Hr)]
  end.
  - exists l. vm_compute. reflexivity.
  - reflexivity.
  - discriminate E.
  - apply Nat.eqb_eq in En. subst g. exact Hr.
Defined.

(** ** IsStopped *)

Lemma holder_after_app h l1 l2 :
  holder_after h (l1 ++ l2) =
    match holder_after h l1 with
    | Some h' => holder_after h' l2
    | None => None
    end.
Proof.
  revert h; induction l1 as [|e l1 IH]; intros h; simpl; [reflexivity|].
  destruct e; try apply IH.
  - destruct h; [reflexivity|apply IH].
  - destruct h as [u|]; [|reflexivity].
    destruct (Nat.eqb u t); [apply IH|reflexivity].
Qed.

(** What [IsStopped] answers in one step, and what a step does to the
    channel. *)
Lemma step_IsStopped a s s' :
  step a s = Some s' ->
  (stopChan (tg s) = ChanClosed -> stopChan (tg s') = ChanClosed) /\
  (stopChan (tg s) <> ChanNil -> stopChan (tg s') <> ChanNil) /\
  exists evs, trace s' = trace s ++ evs /\
    (stopChan (tg s) = ChanClosed -> count (p_IsStopped false) evs = 0%nat) /\
    (stopChan (tg s) <> ChanClosed -> count (p_IsStopped true) evs = 0%nat).
Proof.
  intros H. unfold step in H. destruct (crashed s); [discriminate|].
  destruct a as [t m|t].
  - destruct (frames s t); try discriminate. injection H as <-. simpl.
    split; [auto|]. split; [auto|]. eexists. split; [reflexivity|].
    split; reflexivity.
  - destruct (frames s t) eqn:Ef; simpl in H;
    unfold do_Lock, do_Unlock, IsStopped, StopChan in H;
    inner_destruct H; try discriminate; injection H as <-; simpl;
    (split; [intros; congruence|]); (split; [intros; congruence|]);
    try (exists []; rewrite app_nil_r; split; [reflexivity|];
         split; reflexivity);
    (eexists; split; [reflexivity|]; split; intros; try reflexivity;
     congruence).
Qed.

Lemma run_IsStopped l : forall s s',
  run l s = Some s' ->
  (stopChan (tg s) = ChanClosed -> stopChan (tg s') = ChanClosed) /\
  (stopChan (tg s) <> ChanNil -> stopChan (tg s') <> ChanNil) /\
  exists new, trace s' = trace s ++ new /\
    (stopChan (tg s) = ChanClosed -> count (p_IsStopped false) new = 0%nat) /\
    (stopChan (tg s') <> ChanClosed -> count (p_IsStopped true) new = 0%nat).
Proof.
  induction l as [|a l IH]; intros s s' H; simpl in H.
  - injection H as <-. split; [auto|]. split; [auto|].
    exists []. rewrite app_nil_r. split; [reflexivity|]. split; reflexivity.
  - destruct (step a s) as [s1|] eqn:E; [|discriminate].
    destruct (step_IsStopped _ _ _ E) as (A1 & A2 & evs & T1 & A3 & A4).
    destruct (IH _ _ H) as (B1 & B2 & new & T2 & B3 & B4).
    split; [auto|]. split; [auto|].
    exists (evs ++ new). rewrite T2, T1, app_assoc. split; [reflexivity|].
    rewrite !count_app. split.
    + intros Hc. rewrite (A3 Hc), (B3 (A1 Hc)). reflexivity.
    + intros Hc. rewrite (B4 Hc).
      assert (stopChan (tg s1) <> ChanClosed) by (intros C; auto).
      assert (stopChan (tg s) <> ChanClosed) by (intros C; auto).
      rewrite A4 by assumption. reflexivity.
Qed.

(** X4.  [IsStopped] never answers true before the channel is closed, and
    the channel is closed only by [Stop].  Once the channel is closed it
    stays closed and no call of [IsStopped] answers false any more; once
    made, the channel is never nil again. *)
Theorem IsStopped_is_monotone s :
  reachable s ->
  (stopChan (tg s) <> ChanClosed -> count (p_IsStopped true) (trace s) = 0%nat) /\
  (stopChan (tg s) <> ChanClosed -> closers (trace s) = []) /\
  forall l s', run l s = Some s' ->
    (stopChan (tg s) <> ChanNil -> stopChan (tg s') <> ChanNil) /\
    (stopChan (tg s) = ChanClosed ->
       stopChan (tg s') = ChanClosed /\
       exists new, trace s' = trace s ++ new /\
         count (p_IsStopped false) new = 0%nat).
Proof.
  intros R. destruct (reachable_inv s R) as (I & _).
  split.
  { destruct R as (l & H). destruct (run_IsStopped l _ _ H)
      as (_ & _ & new & T & _ & B). simpl in T. rewrite T. exact B. }
  split; [intros Hc; apply (inv_before _ I Hc)|].
  intros l s' H. destruct (run_IsStopped l _ _ H) as (A1 & A2 & new & T & A3 & _).
  split; [exact A2|]. intros Hc. split; [auto|].
  exists new. split; [exact T|auto].
Qed.

Lemma IsStopped_is_monotone_witness :
  let s := state_after scenario_draining in
  reachable s /\
  exists s', run (solo 9%nat MIsStopped 1) s = Some s' /\
    trace s' = trace s ++ [Call 9%nat MIsStopped;
                           Ret 9%nat MIsStopped (VBool true)].
Proof.
  intros s.
  assert (R : reachable s)
    by (exists scenario_draining; vm_compute; reflexivity).
  destruct (IsStopped_is_monotone s R) as (_ & _ & H).
  split; [exact R|].
  destruct (run (solo 9%nat MIsStopped 1) s) as [s'|] eqn:E;
    [|vm_compute in E; discriminate].
  destruct (H _ _ E) as (_ & H2).
  destruct (H2 ltac:(vm_compute; reflexivity)) as (_ & new & T & _).
  exists s'. split; [reflexivity|].
  vm_compute in E. injection E as <-. vm_compute. reflexivity.
Defined.

(** ** The mutex in the trace *)

Lemma step_holder a s s' :
  inv s -> step a s = Some s' ->
  holder_after None (trace s) = Some (mu (tg s)) ->
  holder_after None (trace s') = Some (mu (tg s')).
Proof.
  intros I H Hh. step_cases I H t Ef; st_simpl.
  all: try exact Hh.
  all: try (rewrite holder_after_app, Hh; simpl).
  all: try reflexivity.
  all: try (rewrite Heqo; reflexivity).
  all: try congruence.
  all: assert (Hmu : mu (tg s) = Some t) by (apply Mt; reflexivity).
  all: replace t0 with t by congruence.
  all: rewrite Nat.eqb_refl; reflexivity.
Qed.

(** X5.  In every trace the [Lock] and [Unlock] entries alternate,
    starting with a [Lock], each [Unlock] by the goroutine of the [Lock]
    before it; the [mu] field is the holder the trace ends with. *)
Theorem mutex_events_alternate s :
  reachable s -> holder_after None (trace s) = Some (mu (tg s)).
Proof.
  intros (l & H).
  assert (G : forall l s0 s1, inv s0 -> inv2 s0 ->
            holder_after None (trace s0) = Some (mu (tg s0)) ->
            run l s0 = Some s1 ->
            holder_after None (trace s1) = Some (mu (tg s1))).
  { clear. induction l as [|a l IH]; intros s0 s1 I J Hh H; simpl in H.
    - injection H as <-. exact Hh.
    - destruct (step a s0) as [s2|] eqn:E; [|discriminate].
      apply (IH s2 s1 (step_inv _ _ _ I E) (step_inv2 _ _ _ I J E));
        [eapply step_holder; eassumption|exact H]. }
  apply (G l init s inv_init inv2_init eq_refl H).
Qed.

Lemma mutex_events_alternate_witness :
  let s := state_after scenario_stopped in
  reachable s /\ holder_after None (trace s) = Some None.
Proof.
  intros s.
  assert (R : reachable s)
    by (exists scenario_stopped; vm_compute; reflexivity).
  split; [exact R|].
  rewrite (mutex_events_alternate s R). vm_compute. reflexivity.
Defined.

(** ** Methods run on their own *)

(** X6.  On a group that is not stopped, with the mutex free, [Add] run on
    its own returns [nil] and raises the counter by one; [Done] then takes
    it back: after the pair the group is as before, except that the channel
    has been made. *)
Theorem Add_then_Done_restores s t :
  crashed s = None -> frames s t = Idle -> mu (tg s) = None ->
  stopChan (tg s) <> ChanClosed -> 0 <= wg (tg s) ->
  exists s1 s2,
    run (solo t MAdd 4) s = Some s1 /\
    trace s1 = trace s ++ [Call t MAdd; Lock t; WgAdd t; Unlock t;
                           Ret t MAdd (VErr None)] /\
    wg (tg s1) = wg (tg s) + 1 /\
    run (solo t MDone 1) s1 = Some s2 /\
    trace s2 = trace s1 ++ [Call t MDone; WgDone t; Ret t MDone VUnit] /\
    tg s2 = set_stopChan (tg s) ChanOpen /\
    frames s2 t = Idle.
Proof.
  intros Hcr Hf Hmu Hch Hw.
  destruct (stopChan (tg s)) eqn:Ech; [| |congruence].
  all: eexists; eexists; split;
    [ unfold solo; cbn [repeat]; rewrite run_Invoke by assumption;
      tau ltac:(rewrite ?Hmu, ?Ech); tau ltac:(rewrite ?Hmu, ?Ech);
      tau ltac:(rewrite ?Hmu, ?Ech); tau ltac:(rewrite ?Hmu, ?Ech);
      reflexivity | ].
  all: split; [cbn [trace]; rewrite <- !app_assoc; reflexivity|].
  all: split; [reflexivity|].
  all: split;
    [ unfold solo; cbn [repeat];
      rewrite run_Invoke; [|reflexivity|cbn [frames]; apply upd_same];
      erewrite run_Tau;
        [ reflexivity | reflexivity
        | cbn [frames tg]; rewrite upd_same; cbn [step_frame entry];
          cbn [mu stopChan wg stopFns set_mu set_wg set_stopChan set_stopFns];
          destruct (Z.ltb_spec (wg (tg s) + 1 - 1) 0); [lia|reflexivity] ]
    | ].
  all: split; [cbn [trace]; rewrite <- !app_assoc; reflexivity|].
  all: split; [|cbn [frames]; apply upd_same].
  all: cbn [tg]; destruct (tg s); cbn in *; subst;
    unfold set_wg, set_mu, set_stopChan; cbn; f_equal; lia.
Qed.

Lemma Add_then_Done_restores_witness :
  exists s1 s2,
    run (solo 0%nat MAdd 4) init = Some s1 /\ wg (tg s1) = 1 /\
    run (solo 0%nat MDone 1) s1 = Some s2 /\
    tg s2 = set_stopChan zero ChanOpen.
Proof.
  destruct (Add_then_Done_restores init 0%nat eq_refl eq_refl eq_refl
              ltac:(discriminate) ltac:(simpl; lia))
    as (s1 & s2 & R1 & _ & W & R2 & _ & T & _).
  exists s1, s2. repeat (split; [assumption|]). exact T.
Defined.

(** X7.  On a group that is not stopped, with the mutex free, [OnStop f]
    run on its own appends [f] at the end of [stopFns] and returns without
    calling it. *)
Theorem OnStop_before_stop_registers s t f :
  crashed s = None -> frames s t = Idle -> mu (tg s) = None ->
  stopChan (tg s) <> ChanClosed ->
  exists s', run (solo t (MOnStop f) 4) s = Some s' /\
    trace s' = trace s ++ [Call t (MOnStop f); Lock t; Appended t f;
                           Unlock t; Ret t (MOnStop f) VUnit] /\
    tg s' = set_stopFns (set_stopChan (tg s) ChanOpen) (stopFns (tg s) ++ [f]) /\
    frames s' t = Idle.
Proof.
  intros Hcr Hf Hmu Hch.
  destruct (stopChan (tg s)) eqn:Ech; [| |congruence].
  all: eexists; split;
    [ unfold solo; cbn [repeat]; rewrite run_Invoke by assumption;
      tau ltac:(rewrite ?Hmu, ?Ech); tau ltac:(rewrite ?Hmu, ?Ech);
      tau ltac:(rewrite ?Hmu, ?Ech); tau ltac:(rewrite ?Hmu, ?Ech);
      reflexivity | ].
  all: split; [cbn [trace]; rewrite <- !app_assoc; reflexivity|].
  all: split; [|cbn [frames]; apply upd_same].
  all: cbn [tg]; destruct (tg s); cbn in *; subst;
    unfold set_stopFns, set_mu, set_stopChan; cbn; reflexivity.
Qed.

Lemma OnStop_before_stop_registers_witness :
  exists s', run (solo 0%nat (MOnStop 7%nat) 4) init = Some s' /\
    stopFns (tg s') = [7%nat] /\ frames s' 0%nat = Idle.
Proof.
  destruct (OnStop_before_stop_registers init 0%nat 7%nat eq_refl eq_refl
              eq_refl ltac:(discriminate)) as (s' & R & _ & T & F).
  exists s'. split; [exact R|]. split; [rewrite T; reflexivity|exact F].
Defined.

(** ** Stop on its own *)

Lemma firstn_S_nth_error {A} (l : list A) n x :
  nth_error l n = Some x -> firstn (S n) l = firstn n l ++ [x].
Proof.
  revert l; induction n as [|n IH]; intros [|a l] H; simpl in *;
    try discriminate.
  - now injection H as ->.
  - f_equal. now apply IH.
Qed.

Lemma repeat_app_Tau t n m :
  repeat (Tau t) (n + m) = repeat (Tau t) n ++ repeat (Tau t) m.
Proof. apply repeat_app. Qed.

(** The loop, from index [k - 1] down, then the clearing of [stopFns]. *)
Lemma run_loop k : forall s t,
  crashed s = None -> frames s t = Stop_for (Z.of_nat k - 1) ->
  (k <= List.length (stopFns (tg s)))%nat ->
  exists s', run (repeat (Tau t) (k + 1)) s = Some s' /\
    frames s' t = Stop_Unlock /\ tg s' = set_stopFns (tg s) [] /\
    trace s' = trace s ++
               map (RunStopFn t) (rev (firstn k (stopFns (tg s)))) /\
    crashed s' = None.
Proof.
  induction k as [|k IH]; intros s t Hcr Hf Hk.
  - eexists. split.
    { cbn [repeat Nat.add]. erewrite run_Tau;
        [reflexivity | exact Hcr | rewrite Hf; reflexivity]. }
    cbn. rewrite upd_same, app_nil_r. repeat split.
  - destruct (nth_error (stopFns (tg s)) k) as [f|] eqn:En.
    2:{ apply nth_error_None in En. lia. }
    set (s1 := mkState (tg s) (upd (frames s) t (Stop_for (Z.of_nat k - 1)))
                 (trace s ++ [RunStopFn t f]) None).
    destruct (IH s1 t eq_refl) as (s' & R & F & T & Tr & C).
    { cbn. apply upd_same. }
    { cbn. lia. }
    exists s'. split.
    { cbn [repeat Nat.add]. erewrite run_Tau; [exact R | exact Hcr |].
      rewrite Hf. cbn [step_frame].
      replace (0 <=? Z.of_nat (S k) - 1) with true
        by (symmetry; apply Z.leb_le; lia).
      replace (Z.to_nat (Z.of_nat (S k) - 1)) with k by lia.
      rewrite En. f_equal. f_equal. lia. }
    split; [exact F|]. split; [exact T|]. split; [|exact C].
    rewrite Tr. cbn [trace tg s1].
    rewrite (firstn_S_nth_error _ _ _ En), rev_app_distr. cbn [rev app map].
    rewrite <- app_assoc. reflexivity.
Qed.

(** X8.  On a group that is not stopped, with the mutex free and the
    counter at zero, [Stop] run on its own does not block: it closes the
    channel, calls every function of [stopFns] from the last to the first,
    releases the mutex and returns [nil], leaving the group closed, with
    [stopFns] empty. *)
Theorem Stop_alone_runs_all s t :
  crashed s = None -> frames s t = Idle -> mu (tg s) = None ->
  stopChan (tg s) <> ChanClosed -> wg (tg s) = 0 ->
  exists s',
    run (solo t MStop (List.length (stopFns (tg s)) + 6)) s = Some s' /\
    trace s' = trace s ++ [Call t MStop; Lock t; Close t] ++
               map (RunStopFn t) (rev (stopFns (tg s))) ++
               [Unlock t; Ret t MStop (VErr None)] /\
    tg s' = mkTG ChanClosed None 0 [] /\ frames s' t = Idle /\
    crashed s' = None.
Proof.
  intros Hcr Hf Hmu Hch Hw.
  set (n := List.length (stopFns (tg s))).
  assert (P : exists s3,
            run (Invoke t MStop :: repeat (Tau t) 3) s = Some s3 /\
            crashed s3 = None /\
            frames s3 t = Stop_for (Z.of_nat n - 1) /\
            tg s3 = mkTG ChanClosed (Some t) 0 (stopFns (tg s)) /\
            trace s3 = trace s ++ [Call t MStop; Lock t; Close t]).
  { destruct (stopChan (tg s)) eqn:Ech; [| |congruence].
    all: eexists; split;
      [ cbn [repeat]; rewrite run_Invoke by assumption;
        tau ltac:(rewrite ?Hmu, ?Ech); tau ltac:(rewrite ?Hmu, ?Ech);
        tau ltac:(rewrite ?Hmu, ?Ech); reflexivity | ].
    all: split; [reflexivity|].
    all: split; [cbn [frames]; apply upd_same|].
    all: split; [|cbn [trace]; rewrite <- !app_assoc; reflexivity].
    all: cbn [tg]; destruct (tg s); cbn in *; subst;
      unfold set_mu, set_stopChan; cbn; reflexivity. }
  destruct P as (s3 & R3 & C3 & F3 & T3 & Tr3).
  destruct (run_loop n s3 t C3 F3) as (s4 & R4 & F4 & T4 & Tr4 & C4).
  { rewrite T3. cbn. unfold n. lia. }
  eexists. split.
  { unfold solo.
    replace (n + 6)%nat with (3 + ((n + 1) + 2))%nat by lia.
    rewrite (repeat_app_Tau t 3), (repeat_app_Tau t (n + 1) 2).
    rewrite app_comm_cons, run_app, R3. cbv beta iota.
    rewrite run_app, R4. cbv beta iota.
    cbn [repeat].
    erewrite run_Tau;
      [ | exact C4 | rewrite F4, T4, T3; cbn; reflexivity ].
    tau idtac. reflexivity. }
  cbn [trace tg frames crashed].
  split.
  { rewrite Tr4, Tr3, T3. cbn [stopFns]. unfold n. rewrite firstn_all.
    rewrite <- !app_assoc. reflexivity. }
  split; [reflexivity|].
  split; [apply upd_same|reflexivity].
Qed.

Lemma Stop_alone_runs_all_witness :
  let s := state_after (solo 0%nat (MOnStop 7%nat) 4 ++
                        solo 1%nat (MOnStop 8%nat) 4) in
  exists s',
    run (solo 2%nat MStop 8) s = Some s' /\
    ran_by_Stop (trace s') = [8; 7]%nat /\ tg s' = mkTG ChanClosed None 0 [].
Proof.
  intros s.
  destruct (Stop_alone_runs_all s 2%nat) as (s' & R & Tr & T & _);
    try (vm_compute; reflexivity); try (vm_compute; discriminate).
  exists s'. split; [exact R|]. split; [|exact T].
  rewrite Tr. vm_compute. reflexivity.
Defined.

(** ** Functions called by OnStop come after the loop of Stop *)

Lemma loop_before_inline_app seen l1 l2 :
  loop_before_inline seen (l1 ++ l2) =
    loop_before_inline seen l1 &&
    loop_before_inline (seen || existsb p_RunNow_any l1) l2.
Proof.
  revert seen; induction l1 as [|e l1 IH]; intros seen; simpl.
  - now rewrite orb_false_r.
  - destruct e; simpl; rewrite ?IH; try reflexivity.
    + rewrite andb_assoc. reflexivity.
    + rewrite orb_true_r. reflexivity.
Qed.

Lemma loop_before_inline_quiet seen evs :
  ran_by_Stop evs = [] -> loop_before_inline seen evs = true.
Proof.
  revert seen; induction evs as [|e evs IH]; intros seen H; simpl;
    [reflexivity|].
  destruct e; simpl in *; try (apply IH; exact H); discriminate.
Qed.

Lemma loop_over_step a s s' :
  inv s -> step a s = Some s' -> loop_over s -> loop_over s'.
Proof.
  intros I H (Hc & Hn). step_cases I H t Ef; unfold loop_over; st_simpl.
  all: try (exfalso; intuition congruence).
  all: try (exfalso; eapply Hn; eassumption).
  all: split; [assumption|].
  all: intros u i; unfold upd; destruct (Nat.eqb u t);
    [try discriminate; try (destruct m; discriminate)|apply Hn].
  all: apply Hn.
Qed.

Lemma existsb_RunNow_app l1 l2 :
  existsb p_RunNow_any (l1 ++ l2) =
    existsb p_RunNow_any l1 || existsb p_RunNow_any l2.
Proof. apply existsb_app. Qed.

Lemma step_inline a s s' :
  inv s -> step a s = Some s' -> inline_inv s -> inline_inv s'.
Proof.
  intros I H (K1 & K2 & K3).
  assert (L : loop_over s -> loop_over s')
    by (apply (loop_over_step _ _ _ I H)).
  assert (N : forall t i, frames s t = Stop_for i ->
                existsb p_RunNow_any (trace s) = false).
  { intros t i Ft. destruct (existsb p_RunNow_any (trace s)) eqn:E;
      [|reflexivity].
    destruct (K2 eq_refl) as (_ & Hn). exfalso. eapply Hn; exact Ft. }
  step_cases I H t Ef; unfold inline_inv; st_simpl.
  all: try (split; [exact K1|split; assumption]).
  all: rewrite ?loop_before_inline_app, ?existsb_RunNow_app, ?K1; simpl.
  all: try rewrite (N t _ Ef).
  all: simpl; rewrite ?orb_false_r.
  all: split; [reflexivity|].
  all: split;
    [ first [ intros E; discriminate E
            | intros E; apply L; apply K2; exact E
            | intros _; apply L; apply (K3 t f); right; exact Ef ] | ].
  all: intros u g; unfold upd; destruct (Nat.eqb_spec u t) as [->|Hne];
    [ | intros Hu; apply L; apply (K3 u g); exact Hu ].
  all: try (intros [Hu|Hu]; discriminate).
  all: try (destruct m; intros [Hu|Hu]; discriminate).
  - (* IsStopped answered true inside OnStop: the caller holds the mutex,
       so nobody is inside the loop *)
    intros _. split; [assumption|]. cbn [frames]. intros u i.
    destruct (Nat.eqb u t); [discriminate|]. intros Fu.
    assert (Hu : mu (tg s) = Some u)
      by (apply (inv_mutex _ I u); rewrite Fu; reflexivity).
    assert (Ht : mu (tg s) = Some t) by (apply Mt; reflexivity).
    assert (u = t) by congruence. subst. congruence.
  - intros _. apply L. apply (K3 t f). left. exact Ef.
Qed.

(** X9.  A function that [OnStop] calls itself is never followed by a call
    from the loop of [Stop]: when [OnStop] calls one, the channel is closed
    and [Stop] has already called every registered function and cleared
    [stopFns]. *)
Theorem inline_calls_follow_the_loop s :
  reachable s ->
  loop_before_inline false (trace s) = true /\
  (existsb p_RunNow_any (trace s) = true ->
     stopChan (tg s) = ChanClosed /\ stopFns (tg s) = [] /\
     ran_by_Stop (trace s) = rev (appended (trace s))).
Proof.
  intros (l & H).
  assert (G : forall l s0 s1, inv s0 -> inv2 s0 -> inline_inv s0 ->
            run l s0 = Some s1 -> inv s1 /\ inline_inv s1).
  { clear. induction l as [|a l IH]; intros s0 s1 I J K H; simpl in H.
    - injection H as <-. split; assumption.
    - destruct (step a s0) as [s2|] eqn:E; [|discriminate].
      apply (IH s2 s1 (step_inv _ _ _ I E) (step_inv2 _ _ _ I J E));
        [eapply step_inline; eassumption|exact H]. }
  destruct (G l init s inv_init inv2_init) as (I & K1 & K2 & _);
    [|exact H|].
  { split; [reflexivity|]. split; [discriminate|].
    intros t f [F|F]; discriminate. }
  split; [exact K1|]. intros E. destruct (K2 E) as (Hc & Hn).
  split; [exact Hc|].
  destruct (inv_after _ I Hc) as (u & _ & [(i & Fu)|A]); [|exact A].
  exfalso. eapply Hn. exact Fu.
Qed.

Lemma inline_calls_follow_the_loop_witness :
  let s := state_after (scenario_stopped ++ solo 3%nat (MOnStop 9%nat) 4) in
  reachable s /\ existsb p_RunNow_any (trace s) = true /\
  ran_by_Stop (trace s) = [8; 7]%nat.
Proof.
  intros s.
  assert (R : reachable s)
    by (exists (scenario_stopped ++ solo 3%nat (MOnStop 9%nat) 4);
        vm_compute; reflexivity).
  destruct (inline_calls_follow_the_loop s R) as (_ & H).
  destruct (H ltac:(vm_compute; reflexivity)) as (_ & _ & E).
  split; [exact R|]. split; [vm_compute; reflexivity|].
  rewrite E. vm_compute. reflexivity.
Defined.


End ThreadGroupProps.
